(** * remote-archive-decompression-server: path-addressable extraction layer

    A shallow embedding of [archiver.go] (package [archiver]: the three entry
    filters and the extractor wrapper) and of [cmd/server.go] (path
    resolution, pagination, Range parsing, the range reader and the [/down]
    handler), with the Go
    library functions they call ([strings], [path], [strconv], [io.Reader],
    the [Extract] loop of github.com/mholt/archiver/v4 and the part of gin's
    response writer that the handlers drive).

    Conventions.
    - A Go [string] is its byte sequence: [list ascii].  String literals are
      written as Rocq strings and coerced.
    - Go [int] and [int64] are [Z] with the two's-complement wrap-around of
      64-bit arithmetic written out ([wrap64]).
    - [[]byte] is [list Byte.byte].
    - A Go [error] is [option error]; [None] is [nil].  A function returning
      [(T, error)] returns a pair or a sum, as convenient.
    - A run-time panic ([make] with a length out of range, slice bounds out
      of range) is
      an explicit outcome. *)

From Stdlib Require Import Ascii String.
From Stdlib Require Import List Bool Arith ZArith Lia.
Import ListNotations.

Open Scope string_scope.
Open Scope list_scope.
Open Scope Z_scope.

(** A Go string: a sequence of bytes. *)
Definition str := list ascii.

Definition go (s : string) : list ascii := list_ascii_of_string s.
Coercion go : string >-> list.

(* ================================================================= *)
(** ** Package [strings] *)

Module strings.

(** [a == b] on strings. *)
Fixpoint eqb (a b : str) : bool :=
  match a, b with
  | [], [] => true
  | x :: a', y :: b' => Ascii.eqb x y && eqb a' b'
  | _, _ => false
  end.

(** [strings.HasPrefix(s, prefix)]. *)
Fixpoint HasPrefix (s prefix : str) {struct prefix} : bool :=
  match prefix, s with
  | [], _ => true
  | p :: prefix', c :: s' => Ascii.eqb c p && HasPrefix s' prefix'
  | _ :: _, [] => false
  end.

(** [strings.HasSuffix(s, suffix)]: some tail of [s] is [suffix]. *)
Fixpoint HasSuffix (s suffix : str) : bool :=
  eqb s suffix ||
  match s with
  | [] => false
  | _ :: s' => HasSuffix s' suffix
  end.

(** [strings.Contains(s, substr)]: [substr] starts at some index of [s]. *)
Fixpoint Contains (s substr : str) : bool :=
  HasPrefix s substr ||
  match s with
  | [] => false
  | _ :: s' => Contains s' substr
  end.

(** [strings.TrimPrefix(s, prefix)]: [s[len(prefix):]] when [s] starts with
    [prefix], and [s] unchanged otherwise. *)
Definition TrimPrefix (s prefix : str) : str :=
  if HasPrefix s prefix then skipn (length prefix) s else s.

(** [strings.TrimSuffix(s, suffix)]: [s[:len(s)-len(suffix)]] when [s] ends
    with [suffix], and [s] unchanged otherwise. *)
Definition TrimSuffix (s suffix : str) : str :=
  if HasSuffix s suffix then firstn (length s - length suffix) s else s.

(** [strings.Count(s, substr)] for a one-byte [substr], the only use in the
    source ([strings.Count(fileDir, "/")]); Go dispatches that case to
    [bytealg.CountString]. *)
Fixpoint CountByte (s : str) (c : ascii) : Z :=
  match s with
  | [] => 0
  | x :: s' => (if Ascii.eqb x c then 1 else 0) + CountByte s' c
  end.

(** [strings.Split(s, sep)] for a one-byte separator ([","] and ["-"] in
    the source): the pieces between the separators, [Count(s, sep) + 1] of
    them; [Split("", sep)] is the one-element list holding [""]. *)
Fixpoint Split (s : str) (sep : ascii) : list str :=
  match s with
  | [] => [[]]
  | c :: s' =>
      if Ascii.eqb c sep then [] :: Split s' sep
      else match Split s' sep with
           | piece :: pieces => (c :: piece) :: pieces
           | [] => [[c]]
           end
  end.

(** [strings.ReplaceAll(s, old, new)] for one-byte [old] and [new]
    (["\\"] by ["/"] in the source). *)
Definition ReplaceAllByte (s : str) (old new : ascii) : str :=
  map (fun c => if Ascii.eqb c old then new else c) s.

(** The UTF-8 encodings of the code points for which [unicode.IsSpace]
    holds: the six ASCII ones, U+0085, U+00A0, U+1680, U+2000..U+200A,
    U+2028, U+2029, U+202F, U+205F and U+3000. *)
Definition spaceEncodings : list (list nat) :=
  [ [9]; [10]; [11]; [12]; [13]; [32];
    [194; 133]; [194; 160]; [225; 154; 128];
    [226; 128; 128]; [226; 128; 129]; [226; 128; 130]; [226; 128; 131];
    [226; 128; 132]; [226; 128; 133]; [226; 128; 134]; [226; 128; 135];
    [226; 128; 136]; [226; 128; 137]; [226; 128; 138];
    [226; 128; 168]; [226; 128; 169]; [226; 128; 175];
    [226; 129; 159]; [227; 128; 128] ]%nat.

Definition spaces : list str := map (map ascii_of_nat) spaceEncodings.
Definition spacesRev : list str := map (@rev ascii) spaces.

(** The first encoding of [encs] that [s] starts with. *)
Definition leadingSpace (encs : list str) (s : str) : option str :=
  find (HasPrefix s) encs.

(** Drop leading white space.  [fuel] bounds the number of runes dropped;
    [length s] is enough since each one is at least a byte long. *)
Fixpoint trimLeft (encs : list str) (fuel : nat) (s : str) : str :=
  match fuel with
  | O => s
  | S fuel' =>
      match leadingSpace encs s with
      | Some e => trimLeft encs fuel' (skipn (length e) s)
      | None => s
      end
  end.

(** [strings.TrimSpace(s)]: leading and trailing Unicode white space
    removed. *)
Definition TrimSpace (s : str) : str :=
  let s1 := trimLeft spaces (length s) s in
  rev (trimLeft spacesRev (length s1) (rev s1)).

End strings.

(* ================================================================= *)
(** ** Package [path] *)

Module path.

Definition slash : ascii := "/"%char.
Definition dot : ascii := "."%char.

(** The [for out.w > dotdot && out.index(out.w) != '/' { out.w-- }] loop of
    [Clean].  The output buffer is kept as the list of its first [w] bytes
    in reverse order, so [out.w--] drops the head; [removed] is the byte
    just dropped, which is the one [out.index(out.w)] reads. *)
Fixpoint backLoop (dotdot : nat) (removed : ascii) (out : list ascii)
  : list ascii :=
  match out with
  | [] => []
  | c :: out' =>
      if (dotdot <? length out)%nat && negb (Ascii.eqb removed slash)
      then backLoop dotdot c out'
      else out
  end.

(** [out.w--] followed by the loop above. *)
Definition backtrack (dotdot : nat) (out : list ascii) : list ascii :=
  match out with
  | [] => []
  | c :: out' => backLoop dotdot c out'
  end.

(** One round of the main loop of [Clean], on the path element that starts
    at [r] (the bytes up to the next ['/']).  The state is the reversed
    output buffer and [dotdot]. *)
Definition cleanStep (rooted : bool) (st : list ascii * nat) (elem : str)
  : list ascii * nat :=
  let '(out, dotdot) := st in
  if strings.eqb elem "" then st                (* empty path element *)
  else if strings.eqb elem "." then st          (* . element *)
  else if strings.eqb elem ".." then            (* .. element *)
    if (dotdot <? length out)%nat then
      (backtrack dotdot out, dotdot)            (* can backtrack *)
    else if negb rooted then
      (* cannot backtrack, but not rooted, so append .. element *)
      let out1 := if (0 <? length out)%nat then slash :: out else out in
      let out2 := dot :: dot :: out1 in
      (out2, length out2)
    else st
  else                                          (* real path element *)
    let out1 :=
      if (rooted && negb (length out =? 1)%nat)
         || (negb rooted && negb (length out =? 0)%nat)
      then slash :: out else out in
    (rev elem ++ out1, dotdot).

(** [path.Clean(path)]. *)
Definition Clean (path : str) : str :=
  match path with
  | [] => "."
  | c0 :: rest =>
      let rooted := Ascii.eqb c0 slash in
      let init : list ascii * nat :=
        if rooted then ([slash], 1%nat) else ([], 0%nat) in
      let elems := strings.Split (if rooted then rest else path) slash in
      let '(out, _) := fold_left (cleanStep rooted) elems init in
      match out with
      | [] => "."                               (* turn empty string into "." *)
      | _ => rev out
      end
  end.

(** The loop of [path.Join] that glues the non-empty elements with ['/']. *)
Fixpoint joinNonEmpty (buf : str) (elem : list str) : str :=
  match elem with
  | [] => buf
  | e :: elem' =>
      if (0 <? length buf)%nat || negb (strings.eqb e "") then
        joinNonEmpty ((if (0 <? length buf)%nat then buf ++ [slash] else buf) ++ e)
                     elem'
      else joinNonEmpty buf elem'
  end.

(** [path.Join(elem...)]. *)
Definition Join (elem : list str) : str :=
  if (fold_left (fun size e => size + length e)%nat elem 0 =? 0)%nat then ""
  else Clean (joinNonEmpty [] elem).

(** Skip the bytes after the last ['/'] of a reversed path. *)
Fixpoint dropToSlash (rpath : list ascii) : list ascii :=
  match rpath with
  | [] => []
  | c :: rpath' => if Ascii.eqb c slash then rpath else dropToSlash rpath'
  end.

(** The [dir] result of [path.Split(path)]: [path[:i+1]] for [i] the index
    of the last ['/'], the empty string when there is none. *)
Definition SplitDir (path : str) : str := rev (dropToSlash (rev path)).

(** [path.Dir(path)]. *)
Definition Dir (path : str) : str := Clean (SplitDir path).

End path.


(* ================================================================= *)
(** ** 64-bit integers *)

Definition maxInt64 : Z := 2 ^ 63 - 1.
Definition minInt64 : Z := - 2 ^ 63.
Definition maxUint64 : Z := 2 ^ 64 - 1.

(** The value an [int64] (or a 64-bit [int]) holds after an operation whose
    mathematical result is [z]. *)
Definition wrap64 (z : Z) : Z := (z + 2 ^ 63) mod 2 ^ 64 - 2 ^ 63.

Definition isInt64 (z : Z) : Prop := minInt64 <= z <= maxInt64.

(* ================================================================= *)
(** ** Package [strconv] *)

Module strconv.

Inductive NumError := ErrSyntax | ErrRange.

(** The value of a decimal digit, [None] for any other byte. *)
Definition digitVal (c : ascii) : option Z :=
  let n := Z.of_nat (nat_of_ascii c) in
  if (48 <=? n) && (n <=? 57) then Some (n - 48) else None.

(** The loop of [ParseUint(s, 10, 64)], on [uint64] arithmetic; [cutoff]
    is [maxUint64/10 + 1] and [maxVal] is [maxUint64]. *)
Fixpoint parseUintLoop (s : str) (n : Z) : Z * option NumError :=
  match s with
  | [] => (n, None)
  | c :: s' =>
      match digitVal c with
      | None => (0, Some ErrSyntax)
      | Some d =>
          if maxUint64 / 10 + 1 <=? n then (maxUint64, Some ErrRange)
          else
            let n10 := (n * 10) mod 2 ^ 64 in
            let n1 := (n10 + d) mod 2 ^ 64 in
            if (n1 <? n10) || (maxUint64 <? n1) then (maxUint64, Some ErrRange)
            else parseUintLoop s' n1
      end
  end.

Definition ParseUint (s : str) : Z * option NumError :=
  match s with
  | [] => (0, Some ErrSyntax)
  | _ => parseUintLoop s 0
  end.

(** [strconv.ParseInt(s, 10, 64)]: on a range error the nearest bound is
    returned together with the error. *)
Definition ParseInt (s : str) : Z * option NumError :=
  match s with
  | [] => (0, Some ErrSyntax)
  | c0 :: s' =>
      let '(neg, digits) :=
        if Ascii.eqb c0 "+" then (false, s')
        else if Ascii.eqb c0 "-" then (true, s')
        else (false, s) in
      let '(un, err) := ParseUint digits in
      match err with
      | Some ErrSyntax => (0, err)
      | _ =>
          let cutoff := 2 ^ 63 in
          if negb neg && (cutoff <=? un) then (cutoff - 1, Some ErrRange)
          else if neg && (cutoff <? un) then (- cutoff, Some ErrRange)
          else
            let n := wrap64 un in
            ((if neg then wrap64 (- n) else n), None)
      end
  end.

Definition digitChar (d : Z) : ascii := ascii_of_nat (48 + Z.to_nat d).

(** The digit loop of [formatBits], least significant digit first;
    twenty rounds cover every [uint64]. *)
Fixpoint formatBits (fuel : nat) (u : Z) (acc : str) : str :=
  match fuel with
  | O => acc
  | S fuel' =>
      if u <? 10 then digitChar u :: acc
      else formatBits fuel' (u / 10) (digitChar (u mod 10) :: acc)
  end.

(** [strconv.FormatInt(i, 10)]. *)
Definition FormatInt (i : Z) : str :=
  if i <? 0 then "-"%char :: formatBits 20 ((- i) mod 2 ^ 64) []
  else formatBits 20 i [].

End strconv.

(* ================================================================= *)
(** ** Errors *)

Inductive error :=
| SkipDir                         (* fs.SkipDir *)
| SkipAll                         (* fs.SkipAll *)
| EOF                             (* io.EOF *)
| ErrNotSupport                   (* errors.New("not support") *)
| ErrRelativePath                 (* errors.New("access using relative path is not allowed") *)
| errorString (msg : str)         (* errors.New(msg), fmt.Errorf(msg) *)
| handlingFile (i : Z) (name : str) (e : error).
                                  (* fmt.Errorf("handling file %d: %s: %w", i, name, e) *)

(** [err.Error()]. *)
Fixpoint Error (e : error) : str :=
  match e with
  | SkipDir => "skip this directory"
  | SkipAll => "skip everything and stop the walk"
  | EOF => "EOF"
  | ErrNotSupport => "not support"
  | ErrRelativePath => "access using relative path is not allowed"
  | errorString msg => msg
  | handlingFile i name e' =>
      "handling file " ++ strconv.FormatInt i ++ ": " ++ name ++ ": " ++ Error e'
  end.

(* ================================================================= *)
(** ** [io.Reader] *)

Module io.

(** A stream as the successive [Read] calls see it: the chunks that the
    calls find available, one after the other; the error that the reader
    returns together with the last bytes ([None] for a reader that reports
    the end on a call of its own, as [bytes.Reader] does, and [io.EOF] for a
    reader that knows it is done when it hands out the last bytes, as the
    flate reader behind a zip entry does); and the error of every call after
    the last byte ([io.EOF], or the error of a stream that is cut short or
    corrupt). *)
Record Stream (A : Type) := {
  chunks : list A;
  withLast : option error;
  atEnd : error
}.
Arguments chunks {A} _.
Arguments withLast {A} _.
Arguments atEnd {A} _.

(** The stream of the given chunks that ends with [0, io.EOF] on a call of
    its own.  A list of chunks stands for this stream. *)
Definition plain {A : Type} (l : list A) : Stream A :=
  {| chunks := l; withLast := None; atEnd := EOF |}.

(** A one-pass reader over what is left of its stream. *)
Record Reader := { pending : Stream (list Byte.byte) }.

(** [r.Read(p)]: the new contents of [p], the count [n], the error and the
    reader afterwards.  A call is served from the first chunk only, as a
    decompressor serves a call from what it has decoded so far: at most
    [len(p)] bytes of it are copied to the front of [p].  The call that
    takes the last bytes returns them with the error [withLast]; a call
    after the last byte returns [0] and the error [atEnd]. *)
Definition Read (r : Reader) (p : list Byte.byte)
  : list Byte.byte * Z * option error * Reader :=
  match chunks (pending r) with
  | [] => (p, 0, Some (atEnd (pending r)), r)
  | chunk :: rest =>
      let n := Nat.min (length p) (length chunk) in
      let left := if (n <? length chunk)%nat then skipn n chunk :: rest
                  else rest in
      (firstn n chunk ++ skipn n p, Z.of_nat n,
       match left with
       | [] => withLast (pending r)
       | _ :: _ => None
       end,
       {| pending := {| chunks := left; withLast := withLast (pending r);
                        atEnd := atEnd (pending r) |} |})
  end.

(** What [io.Copy(dst, r)] writes to [dst]: everything up to the end of
    the stream or to its error. *)
Definition Copy (r : Reader) : list Byte.byte := concat (chunks (pending r)).

End io.

Coercion io.plain : list >-> io.Stream.

(** [make([]byte, n)]: [n] zero bytes. *)
Definition makeBytes (n : Z) : list Byte.byte := repeat Byte.x00 (Z.to_nat n).

(** The limit of [runtime.makeslice]: [maxAlloc], [1 << 48] bytes on the
    64-bit platforms. *)
Definition maxAlloc : Z := 2 ^ 48.

(** [make([]byte, n)] panics ("len out of range") when [n] is negative or
    above [maxAlloc].  A length that passes this test is taken to be
    allocated: the machine is assumed to have the memory. *)
Definition makePanics (n : Z) : bool := (n <? 0) || (maxAlloc <? n).

(* ================================================================= *)
(** ** github.com/mholt/archiver/v4: [File], [FileHandler], [Extract]

    This package is imported by the repository, not part of it.  What the
    repository relies on is modelled here after the package's Zip and 7z
    extractors: the archive's entries are visited in their stored order,
    [pathsInArchive] restricts the visit, and a handler that answers
    [fs.SkipDir] has the rest of that directory skipped. *)

Module mholt.

(** [archiver.File], with the [fs.FileInfo] methods the repository calls
    as fields. *)
Record File := {
  NameInArchive : str;
  Name : str;                         (* FileInfo.Name() *)
  Size : Z;                           (* FileInfo.Size() *)
  IsDir : bool;                       (* FileInfo.IsDir() *)
  LinkTarget : str;
  Open : error + io.Reader            (* Open() (io.ReadCloser, error) *)
}.

(** [archiver.FileHandler].  A handler of the repository is a closure over
    a [*[]archiver.File]; here the slice is passed in and out. *)
Definition FileHandler := list File -> File -> list File * option error.

(** [fileIsIncluded(filenameList, filename)]; [None] is the nil list. *)
Definition fileIsIncluded (filenameList : option (list str)) (filename : str)
  : bool :=
  match filenameList with
  | None => true
  | Some l =>
      existsb (fun fn =>
                 strings.eqb filename fn
                 || strings.HasPrefix filename (strings.TrimSuffix fn "/" ++ "/"))
              l
  end.

(** The loop of [skipList.add]: the list after the loop, whether the loop
    returned early on an identical element, and [dontAdd]. *)
Fixpoint addLoop (trimmedDir : str) (s : list str) : list str * bool * bool :=
  match s with
  | [] => ([], false, false)
  | elem :: s' =>
      let trimmedElem := strings.TrimSuffix elem "/" in
      if strings.eqb trimmedDir trimmedElem then (s, true, false)
      else if strings.HasPrefix trimmedDir (trimmedElem ++ "/") then
        let '(r, returned, _) := addLoop trimmedDir s' in (elem :: r, returned, true)
      else if strings.HasPrefix trimmedElem (trimmedDir ++ "/") then
        addLoop trimmedDir s'
      else
        let '(r, returned, dontAdd) := addLoop trimmedDir s' in
        (elem :: r, returned, dontAdd)
  end.

(** [skipList.add(dir)]. *)
Definition add (s : list str) (dir : str) : list str :=
  let '(r, returned, dontAdd) := addLoop (strings.TrimSuffix dir "/") s in
  if returned || dontAdd then r else r ++ [dir].

(** The entry loop of [Extract(ctx, sourceArchive, pathsInArchive,
    handleFile)] over the entries [entries] of the archive, from entry
    number [i] on, with the skip list and the handler's slice as state.
    [fs.SkipDir] from the handler adds a directory to the skip list; any
    other error, [fs.SkipAll] included, ends the extraction and is returned
    wrapped. *)
Fixpoint extractLoop (pathsInArchive : option (list str))
         (handleFile : FileHandler) (skipDirs : list str) (files : list File)
         (i : Z) (entries : list File) : list File * option error :=
  match entries with
  | [] => (files, None)
  | f :: rest =>
      if negb (fileIsIncluded pathsInArchive (NameInArchive f)) then
        extractLoop pathsInArchive handleFile skipDirs files (i + 1) rest
      else if fileIsIncluded (Some skipDirs) (NameInArchive f) then
        extractLoop pathsInArchive handleFile skipDirs files (i + 1) rest
      else
        let '(files', err) := handleFile files f in
        match err with
        | None => extractLoop pathsInArchive handleFile skipDirs files' (i + 1) rest
        | Some SkipDir =>
            (* if a directory, skip this path; if a file, skip the folder path *)
            let dirPath :=
              if IsDir f then NameInArchive f
              else path.Dir (NameInArchive f) ++ "/" in
            extractLoop pathsInArchive handleFile (add skipDirs dirPath) files'
                        (i + 1) rest
        | Some e => (files', Some (handlingFile i (NameInArchive f) e))
        end
  end.

Definition Extract (sourceArchive : list File)
           (pathsInArchive : option (list str)) (handleFile : FileHandler)
           (files : list File) : list File * option error :=
  extractLoop pathsInArchive handleFile [] files 0 sourceArchive.

End mholt.
Export mholt.

(* ================================================================= *)
(** ** archiver.go *)

(** [FileHanderFunc]: from the pointer to the result slice to a handler;
    with the slice threaded through the handler, the handler itself. *)
Definition FileHanderFunc := FileHandler.

(** [ArchiverExtractor].  [sourceArchive] stands for the opened archive: the
    entries its format yields, in order. *)
Record ArchiverExtractor := {
  sourceArchive : list File;
  fileHandlerFunc : option FileHanderFunc;
  pathsInArchive : option (list str)
}.

Definition NewArchive (sourceArchive : list File) : ArchiverExtractor :=
  {| sourceArchive := sourceArchive; fileHandlerFunc := None;
     pathsInArchive := None |}.

Definition SetFileHandlerFunc (ae : ArchiverExtractor) (h : FileHanderFunc)
  : ArchiverExtractor :=
  {| sourceArchive := sourceArchive ae; fileHandlerFunc := Some h;
     pathsInArchive := pathsInArchive ae |}.

(** [NoFilter]: every entry is appended. *)
Definition NoFilter : FileHandler :=
  fun files f => (files ++ [f], None).

(** [DirFilter]: the entries directly under [dir]. *)
Definition DirFilter (dir : str) : FileHandler :=
  fun files f =>
    let dirPath := NameInArchive f in
    let fileDir := strings.TrimPrefix ("/" ++ dirPath) dir in
    if ((strings.CountByte fileDir "/" =? 0) && (0 <? length fileDir)%nat)
       || ((strings.CountByte fileDir "/" =? 1) && strings.HasSuffix fileDir "/")
    then (files ++ [f], None)
    else (files, None).

(** [FileFilter]: the file at [filePath]. *)
Definition FileFilter (filePath : str) : FileHandler :=
  fun files f =>
    if IsDir f then (files, None)
    else
      let fileDir := path.Dir (NameInArchive f) in
      let fileDir := if strings.eqb fileDir "." then go "" else fileDir in
      if negb (strings.HasPrefix filePath ("/" ++ fileDir)) then (files, Some SkipDir)
      else if strings.eqb filePath ("/" ++ NameInArchive f) then (files ++ [f], None)
      else (files, None).

(** [ExtractDirs].  The slice returned is the one the handler has filled:
    [return files, ae.Extract(...)] reads [files] after the call, as the
    listing endpoint needs. *)
Definition ExtractDirs (ae : ArchiverExtractor) (dir : str)
  : list File * option error :=
  let ff := match fileHandlerFunc ae with
            | Some h => h
            | None => DirFilter dir
            end in
  Extract (sourceArchive ae) (pathsInArchive ae) ff [].

(** [CascadeExtractDirs]. *)
Definition CascadeExtractDirs (ae : ArchiverExtractor) (dir : str)
  : list File * option error :=
  let ff := match fileHandlerFunc ae with
            | Some h => h
            | None => NoFilter
            end in
  let pia := if negb (strings.eqb dir "/")
             then Some [strings.TrimPrefix dir "/"]
             else pathsInArchive ae in
  Extract (sourceArchive ae) pia ff [].

(** [ExtractFile]. *)
Definition ExtractFile (ae : ArchiverExtractor) (filePath : str)
  : option File * option error :=
  let ff := match fileHandlerFunc ae with
            | Some h => h
            | None => FileFilter filePath
            end in
  let '(files, err) := Extract (sourceArchive ae) (pathsInArchive ae) ff [] in
  match files with
  | [] => (None, Some (errorString "file not found"))
  | f :: _ => (Some f, err)
  end.

(* ================================================================= *)
(** ** gin: the response side of [*gin.Context] *)

(** [Resp[T]], the JSON envelope. *)
Record Resp (T : Type) := {
  Code : Z;
  Message : str;
  Data : option T
}.
Arguments Code {T} _.
Arguments Message {T} _.
Arguments Data {T} _.

Module gin.

(** What has been written to the response body.  [Data] is [nil] in every
    envelope written on the paths modelled here. *)
Inductive Payload :=
| JSONBody (r : Resp unit)
| RawBody (b : list Byte.byte).

Record Context := {
  reqHeader : list (str * str);       (* c.Request.Header *)
  status : Z;                         (* the status line of the response *)
  header : list (str * str);          (* c.Writer.Header() *)
  body : list Payload;                (* the writes, in order *)
  aborted : bool
}.

(** A context as a handler receives it. *)
Definition newContext (reqHeader : list (str * str)) : Context :=
  {| reqHeader := reqHeader; status := 200; header := []; body := [];
     aborted := false |}.

Fixpoint lookup (h : list (str * str)) (key : str) : option str :=
  match h with
  | [] => None
  | (k, v) :: h' => if strings.eqb k key then Some v else lookup h' key
  end.

(** [c.GetHeader(key)]: the empty string when the header is absent. *)
Definition GetHeader (c : Context) (key : str) : str :=
  match lookup (reqHeader c) key with
  | Some v => v
  | None => ""
  end.

Fixpoint set (h : list (str * str)) (key value : str) : list (str * str) :=
  match h with
  | [] => [(key, value)]
  | (k, v) :: h' =>
      if strings.eqb k key then (key, value) :: h' else (k, v) :: set h' key value
  end.

(** [c.Writer.Header().Set(key, value)]. *)
Definition HeaderSet (c : Context) (key value : str) : Context :=
  {| reqHeader := reqHeader c; status := status c;
     header := set (header c) key value; body := body c;
     aborted := aborted c |}.

(** [c.Writer.WriteHeader(code)]: ignored once the body has been started. *)
Definition WriteHeader (c : Context) (code : Z) : Context :=
  if (0 <? code) && negb (status c =? code) then
    match body c with
    | [] => {| reqHeader := reqHeader c; status := code; header := header c;
               body := body c; aborted := aborted c |}
    | _ => c
    end
  else c.

(** [c.Status(code)]. *)
Definition Status (c : Context) (code : Z) : Context := WriteHeader c code.

Definition write (c : Context) (p : Payload) : Context :=
  {| reqHeader := reqHeader c; status := status c; header := header c;
     body := body c ++ [p]; aborted := aborted c |}.

(** [c.Writer.Write(data)]. *)
Definition Write (c : Context) (data : list Byte.byte) : Context :=
  write c (RawBody data).

(** [c.JSON(code, obj)]: sets the status, sets [Content-Type] unless the
    handler has set one, and writes the encoded [obj]. *)
Definition JSON (c : Context) (code : Z) (obj : Resp unit) : Context :=
  let c := Status c code in
  let c := match lookup (header c) "Content-Type" with
           | Some _ => c
           | None => HeaderSet c "Content-Type" "application/json; charset=utf-8"
           end in
  write c (JSONBody obj).

(** [c.Abort()]. *)
Definition Abort (c : Context) : Context :=
  {| reqHeader := reqHeader c; status := status c; header := header c;
     body := body c; aborted := true |}.

End gin.

(* ================================================================= *)
(** ** cmd/server.go *)

(** What a call does: it returns, or it panics. *)
Inductive outcome (T : Type) :=
| Returns (v : T)
| Panics.
Arguments Returns {T} _.
Arguments Panics {T}.

(** [FixAndCleanPath]. *)
Definition FixAndCleanPath (p : str) : str :=
  let p := strings.ReplaceAllByte p "\" "/" in
  let p := if negb (strings.HasPrefix p "/") then "/" ++ p else p in
  path.Clean p.

(** [JoinBasePath]. *)
Definition JoinBasePath (basePath reqPath : str) : error + str :=
  if strings.eqb reqPath ".."
     || strings.HasSuffix reqPath "/.."
     || strings.HasPrefix reqPath "../"
     || strings.Contains reqPath "/../"
  then inl ErrRelativePath
  else inr (path.Join [FixAndCleanPath basePath; FixAndCleanPath reqPath]).

(** [handerReqPath]. *)
Definition handerReqPath (p : str) (isDir : bool) : error + str :=
  match JoinBasePath "" p with
  | inl err => inl err
  | inr reqPath =>
      let reqPath :=
        if negb (strings.eqb p "/") then path.Join [p ++ "/"] else reqPath in
      let reqPath :=
        if isDir && negb (strings.eqb reqPath "/") then reqPath ++ "/"
        else reqPath in
      inr reqPath
  end.

Record PageReq := {
  Page : Z;
  PerPage : Z
}.

(** The slice expression [objs[low:high]] on a slice whose capacity is its
    length: it panics unless [0 <= low <= high <= cap(objs)]. *)
Definition sliceExpr {T : Type} (objs : list T) (low high : Z)
  : outcome (list T) :=
  if (0 <=? low) && (low <=? high) && (high <=? Z.of_nat (length objs))
  then Returns (firstn (Z.to_nat (high - low)) (skipn (Z.to_nat low) objs))
  else Panics.

(** [pagination]. *)
Definition pagination {T : Type} (objs : list T) (req : PageReq)
  : outcome (Z * list T) :=
  let pageIndex := Page req in
  let pageSize := PerPage req in
  let pageIndex := if pageIndex <=? 0 then 1 else pageIndex in
  let pageSize := if pageSize <=? 0 then 10 else pageSize in
  let total := Z.of_nat (length objs) in
  let start := wrap64 (wrap64 (pageIndex - 1) * pageSize) in
  if total <? start then Returns (total, [])
  else
    let end_ := wrap64 (start + pageSize) in
    let end_ := if total <? end_ then total else end_ in
    match sliceExpr objs start end_ with
    | Returns window => Returns (total, window)
    | Panics => Panics
    end.

(** [ErrorStrResp]: the envelope goes out under HTTP status 200 and carries
    [code] in its [Code] field. *)
Definition ErrorStrResp (c : gin.Context) (msg : str) (code : Z) : gin.Context :=
  let c := gin.JSON c 200 {| Code := code; Message := msg; Data := None |} in
  gin.Abort c.

Record httpRange := {
  Start : Z;
  End_ : Z
}.

(** [\s] of Go's regexp syntax: tab, line feed, form feed, carriage return
    and space. *)
Definition isRegexpSpace (c : ascii) : bool :=
  existsb (Ascii.eqb c) (map ascii_of_nat [9; 10; 12; 13; 32]%nat).

Fixpoint skipSpaces (s : str) : str :=
  match s with
  | [] => []
  | c :: s' => if isRegexpSpace c then skipSpaces s' else s
  end.

(** The pattern of [parseRangeHeader]: start of text, white space, the word
    bytes, white space, the equals sign, white space, and a group of any
    bytes but line feeds up to the end of the text.  The result is the text
    of the group when [header] matches.  Each run of white space takes all
    the white space there is (nothing after it can start with white space
    and help the match), and the group matches what is left when that holds
    no line feed. *)
Definition matchRangePattern (header : str) : option str :=
  let s := skipSpaces header in
  if strings.HasPrefix s "bytes" then
    match skipSpaces (skipn 5 s) with
    | c :: s' =>
        if Ascii.eqb c "=" then
          let group := skipSpaces s' in
          if existsb (Ascii.eqb (ascii_of_nat 10)) group then None
          else Some group
        else None
    | [] => None
    end
  else None.

(** [toInt64]: the error of [ParseInt] is dropped. *)
Definition toInt64 (s : str) : Z := fst (strconv.ParseInt (strings.TrimSpace s)).

Definition ErrInvalidRange : error := errorString "Invalid Range Header".

(** The [start] and [end] that one round of the loop of [parseRangeHeader]
    computes from the two parts of a range. *)
Definition rangeBounds (part0 part1 : str) (totalLength : Z) : Z * Z :=
  if strings.eqb part0 "" then
    (wrap64 (wrap64 (totalLength - 1) - toInt64 part1), wrap64 (totalLength - 1))
  else if strings.eqb part1 "" then
    (toInt64 part0, wrap64 (totalLength - 1))
  else
    (toInt64 part0, toInt64 part1).

(** One round of the loop of [parseRangeHeader]. *)
Definition parseRangeSpec (rangeSpec : str) (totalLength : Z) : error + httpRange :=
  match strings.Split rangeSpec "-" with
  | [part0; part1] =>
      let '(start, end_) := rangeBounds part0 part1 totalLength in
      if (end_ <? start) || (totalLength <=? start) || (totalLength <=? end_)
      then inl ErrInvalidRange
      else inr {| Start := start; End_ := end_ |}
  | _ => inl ErrInvalidRange
  end.

Fixpoint parseRangeSpecs (rangeSpecs : list str) (totalLength : Z)
         (ranges : list httpRange) : error + list httpRange :=
  match rangeSpecs with
  | [] => inr ranges
  | rangeSpec :: rest =>
      match parseRangeSpec rangeSpec totalLength with
      | inl err => inl err
      | inr rg => parseRangeSpecs rest totalLength (ranges ++ [rg])
      end
  end.

(** [parseRangeHeader]. *)
Definition parseRangeHeader (header : str) (totalLength : Z)
  : error + list httpRange :=
  match matchRangePattern header with
  | None => inl ErrInvalidRange
  | Some group => parseRangeSpecs (strings.Split group ",") totalLength []
  end.

Record MyReadAtReader := {
  r : io.Reader;
  data : list Byte.byte;
  size : Z
}.

Definition NewMyReadAtReader (r : io.Reader) (size : Z) : MyReadAtReader :=
  {| r := r; data := []; size := size |}.

Definition withReader (rd : MyReadAtReader) (r' : io.Reader) : MyReadAtReader :=
  {| r := r'; data := data rd; size := size rd |}.

(** [MyReadAtReader.ReadAt(p, off)]: the contents of [p] afterwards, the
    results [n] and [err], and the reader afterwards.  There is one [Read]
    for the [off] bytes to drop and one [Read] for [p].  The [n] and [err] of
    the second [Read] are declared by the [if] statement and shadow the named
    results, so [err = io.EOF] is lost and [return n, err] returns the named
    results, which are still [0] and [nil]. *)
Definition ReadAt (rd : MyReadAtReader) (p : list Byte.byte) (off : Z)
  : list Byte.byte * Z * option error * MyReadAtReader :=
  if (off <? 0) || (size rd <=? off) then (p, 0, Some EOF, rd)
  else
    let discat := makeBytes off in
    let '(_, _, err, r1) := io.Read (r rd) discat in
    match err with
    | Some e => (p, 0, Some e, withReader rd r1)
    | None =>
        let '(p', _, err, r2) := io.Read r1 p in
        match err with
        | Some e => (p', 0, Some e, withReader rd r2)
        | None => (p', 0, None, withReader rd r2)
        end
    end.

(** The suffix-to-MIME table of [SuccessStreamResp], in the order of its
    [switch]. *)
Definition mimeTable : list (str * str) :=
  [ (go ".zip", go "application/zip");
    (go ".7z", go "application/x-7z-compressed");
    (go ".rar", go "application/x-rar-compressed");
    (go ".tar", go "application/x-tar");
    (go ".gz", go "application/gzip");
    (go ".bz2", go "application/x-bzip2");
    (go ".xz", go "application/x-xz");
    (go ".lz4", go "application/x-lz4");
    (go ".zst", go "application/zstd");
    (go ".mkv", go "video/x-matroska");
    (go ".mp4", go "video/mp4");
    (go ".mp3", go "audio/mpeg");
    (go ".flac", go "audio/flac");
    (go ".wav", go "audio/wav");
    (go ".ogg", go "audio/ogg");
    (go ".jpg", go "image/jpeg");
    (go ".jpeg", go "image/jpeg");
    (go ".png", go "image/png");
    (go ".gif", go "image/gif");
    (go ".webp", go "image/webp");
    (go ".pdf", go "application/pdf") ].

Definition defaultMIME (name : str) : str :=
  match find (fun '(suffix, _) => strings.HasSuffix name suffix) mimeTable with
  | Some (_, mime) => mime
  | None => "application/octet-stream"
  end.

(** The tail of [SuccessStreamResp]: status 200 and the whole stream. *)
Definition fullBody (c : gin.Context) (frc : io.Reader) : gin.Context :=
  gin.Write (gin.Status c 200) (io.Copy frc).

(** [SuccessStreamResp]. *)
Definition SuccessStreamResp (c : gin.Context) (f : File) : outcome gin.Context :=
  match Open f with
  | inl _ => Returns (ErrorStrResp c (Error ErrNotSupport) 500)
  | inr frc =>
      let totalLength := strconv.FormatInt (Size f) in
      let c := gin.HeaderSet c "Accept-Ranges" "bytes" in
      let c := gin.HeaderSet c "Content-Type" (defaultMIME (Name f)) in
      let c := gin.HeaderSet c "Content-Disposition"
                             ("attachment; filename=" ++ Name f) in
      let c := gin.HeaderSet c "Content-Length" totalLength in
      let c := gin.HeaderSet c "Expires" "0" in
      let c := gin.HeaderSet c "Cache-Control" "must-revalidate" in
      let c := gin.HeaderSet c "Pragma" "public" in
      let rangeHeader := gin.GetHeader c "Range" in
      if negb (strings.eqb rangeHeader "") then
        match parseRangeHeader rangeHeader (Size f) with
        | inl err => Returns (ErrorStrResp c (Error err) 416)
        | inr [rg] =>
            let start := Start rg in
            let end_ := End_ rg in
            let length := wrap64 (wrap64 (end_ - start) + 1) in
            if makePanics length then Panics    (* make([]byte, length) *)
            else
              let buf := makeBytes length in
              let myReader := NewMyReadAtReader frc (Size f) in
              let '(buf, _, err, _) := ReadAt myReader buf start in
              match err with
              | Some e => Returns (ErrorStrResp c (Error e) 500)
              | None =>
                  let c := gin.HeaderSet c "Content-Range"
                             ("bytes " ++ strconv.FormatInt start ++ "-"
                              ++ strconv.FormatInt end_ ++ "/" ++ totalLength) in
                  let c := gin.HeaderSet c "Content-Length"
                                         (strconv.FormatInt length) in
                  let c := gin.WriteHeader c 206 in
                  Returns (gin.Write c buf)
              end
        | inr _ => Returns (fullBody c frc)
        end
      else Returns (fullBody c frc)
  end.

(** The query of [/get] and [/down], as [c.ShouldBind] fills it. *)
Record GetReq := {
  RawLink : str;
  Path : str
}.

Section Handlers.

(** [c.ShouldBind(&req)] decodes the request and [getArchive(c, rawURL)]
    opens the remote archive over HTTP: what they return is given from
    outside. *)
Variable ShouldBind : gin.Context -> error + GetReq.
Variable getArchive : gin.Context -> str -> error + ArchiverExtractor.

(** [Down].  The last step dereferences [dFile]. *)
Definition Down (c : gin.Context) : outcome gin.Context :=
  match ShouldBind c with
  | inl err => Returns (ErrorStrResp c (Error err) 400)
  | inr req =>
      match handerReqPath (Path req) false with
      | inl err => Returns (ErrorStrResp c (Error err) 500)
      | inr reqPath =>
          match getArchive c (RawLink req) with
          | inl err => Returns (ErrorStrResp c (Error err) 500)
          | inr arc =>
              match ExtractFile arc reqPath with
              | (_, Some _) => Returns (ErrorStrResp c (Error ErrNotSupport) 500)
              | (Some dFile, None) => SuccessStreamResp c dFile
              | (None, None) => Panics
              end
          end
      end
  end.

End Handlers.

(* ================================================================= *)
(** ** Vocabulary of the specification *)

(** The raw paths that path resolution refuses: exactly [..], ending in
    [/..], starting with [../], or holding [/../] somewhere. *)
Definition escapesRoot (p : str) : Prop :=
  p = ".."
  \/ (exists a, p = a ++ "/..")
  \/ (exists b, p = "../" ++ b)
  \/ (exists a b, p = a ++ "/../" ++ b).

Definition noSlash (s : str) : Prop := ~ In path.slash s.

(** [r] is what is left of [x] once the prefix [P] is stripped: the rest
    after [P] when [x] starts with [P], and [x] itself when it does not. *)
Definition strippedOf (P x r : str) : Prop :=
  x = P ++ r \/ ((forall t, x <> P ++ t) /\ r = x).

(** A name with no slash that is not empty (a file directly below), or a
    name with exactly one slash, at its end (a directory directly below). *)
Definition directChildName (r : str) : Prop :=
  (noSlash r /\ r <> [])
  \/ (exists s, r = s ++ "/" /\ noSlash s).

Definition DirectChild (P name : str) : Prop :=
  exists r, strippedOf P ("/" ++ name) r /\ directChildName r.

(** The test of [DirFilter] on what [TrimPrefix] leaves. *)
Definition dirCond (fileDir : str) : bool :=
  ((strings.CountByte fileDir "/" =? 0) && (0 <? length fileDir)%nat)
  || ((strings.CountByte fileDir "/" =? 1) && strings.HasSuffix fileDir "/").

(** A path element that [path.Clean] copies to its output: not empty, with
    no slash, and neither [.] nor [..]. *)
Definition realElem (e : str) : Prop :=
  e <> [] /\ noSlash e /\ e <> "." /\ e <> "..".

(** Path elements glued with single slashes. *)
Fixpoint joinElems (es : list str) : str :=
  match es with
  | [] => []
  | e :: es' =>
      match es' with
      | [] => e
      | _ => e ++ "/" ++ joinElems es'
      end
  end.

(** The reversed output buffer of [path.Clean] on a rooted path once it has
    copied the elements [rs] (the last one first): the root slash, then the
    elements with single slashes between them. *)
Fixpoint rootedBuf (rs : list str) : list ascii :=
  match rs with
  | [] => [path.slash]
  | e :: rs' =>
      rev e ++ match rs' with
               | [] => [path.slash]
               | _ => path.slash :: rootedBuf rs'
               end
  end.

(** A normalized file path: rooted and unchanged by dot-segment collapse. *)
Definition NormalizedFilePath (F : str) : Prop :=
  strings.HasPrefix F "/" = true /\ path.Clean F = F.

(** The entry that [ExtractFile] looks for. *)
Definition isFileAt (F : str) (f : File) : Prop :=
  IsDir f = false /\ "/" ++ NameInArchive f = F.

(** The test that decides [isFileAt]. *)
Definition isFileAtb (F : str) (f : File) : bool :=
  negb (IsDir f) && strings.eqb F ("/" ++ NameInArchive f).

(** No directory of the skip list holds the entry looked for. *)
Definition skipSafe (F : str) (skipDirs : list str) : Prop :=
  forall fn, In fn skipDirs ->
    forall name, fileIsIncluded (Some [fn]) name = true -> "/" ++ name <> F.

(** A range of the header fails the validation of [parseRangeHeader]: the
    header matches the pattern, one of its comma-separated ranges has two
    parts, and the bounds computed from them have [start > end],
    [start >= S] or [end >= S]. *)
Definition failsValidation (header : str) (S : Z) : Prop :=
  exists group rangeSpec part0 part1,
    matchRangePattern header = Some group
    /\ In rangeSpec (strings.Split group ",")
    /\ strings.Split rangeSpec "-" = [part0; part1]
    /\ (snd (rangeBounds part0 part1 S) < fst (rangeBounds part0 part1 S)
        \/ S <= fst (rangeBounds part0 part1 S)
        \/ S <= snd (rangeBounds part0 part1 S)).

(** The header lists several comma-separated ranges. *)
Definition listsSeveralRanges (header : str) : Prop :=
  exists group, matchRangePattern header = Some group /\ In ","%char group.

(** The response of [ErrorStrResp] on a fresh context. *)
Definition isErrorEnvelope (c : gin.Context) (code : Z) (msg : str) : Prop :=
  gin.status c = 200
  /\ gin.body c = [gin.JSONBody {| Code := code; Message := msg; Data := None |}]
  /\ gin.aborted c = true.

(** A file of the given bytes, which its reader delivers in the given
    chunks, reporting the end on a call of its own. *)
Definition fileOf (name : string) (chunks : list (list Byte.byte)) : File :=
  {| NameInArchive := name; Name := name;
     Size := Z.of_nat (length (concat chunks)); IsDir := false;
     LinkTarget := ""; Open := inr {| io.pending := chunks |} |}.

(** The bytes [0, 1, ..., 255, 0, 1, ...], [n] of them. *)
Definition sampleBytes (n : nat) : list Byte.byte :=
  map (fun i => match Byte.of_nat (i mod 256) with
                | Some b => b
                | None => Byte.x00
                end) (seq 0 n).

(** A request with the given [Range] header. *)
Definition rangeRequest (header : string) : gin.Context :=
  gin.newContext [(go "Range", go header)].

(** The decimal digits. *)
Definition digits : list ascii :=
  ["0"; "1"; "2"; "3"; "4"; "5"; "6"; "7"; "8"; "9"]%char.

Definition allDigits (s : str) : Prop := Forall (fun c => In c digits) s.

(** An entry of the examples of the specification. *)
Definition entry (name : string) (isDir : bool) : File :=
  {| NameInArchive := name; Name := name; Size := 0; IsDir := isDir;
     LinkTarget := ""; Open := inr {| io.pending := [] |} |}.

Definition exampleEntries : list File :=
  [ entry "a/" true; entry "a/b.txt" false; entry "a/c/" true;
    entry "a/c/d.txt" false ].

(** The path elements that [path.Clean] neither drops as empty nor as a
    [.] element. *)
Definition keptElem (e : str) : bool :=
  negb (strings.eqb e "") && negb (strings.eqb e ".").

Definition backslash : ascii := "\"%char.

(** A path that does not begin with a slash. *)
Definition unrooted (p : str) : Prop := strings.HasPrefix p "/" = false.

(** A reversed output buffer of [path.Clean] that is empty or whose first
    byte is no slash. *)
Definition plainStart (out : list ascii) : Prop :=
  forall c t, rev out = c :: t -> c <> path.slash.

(** The window that [pagination] returns, empty if it panics. *)
Definition pageWindow {T : Type} (objs : list T) (page perPage : Z) : list T :=
  match pagination objs {| Page := page; PerPage := perPage |} with
  | Returns (_, window) => window
  | Panics => []
  end.

(** A range that passes the validation of [parseRangeHeader]. *)
Definition validRange (S : Z) (rg : httpRange) : Prop :=
  Start rg <= End_ rg /\ Start rg < S /\ End_ rg < S.

(** The bytes of a range specification: decimal digits and the dash. *)
Definition rangeChar (c : ascii) : Prop := In c digits \/ c = "-"%char.

(** A listed range that parses and passes the validation: it has two
    parts around one dash, and the bounds read from them have
    [start <= end], [start < S] and [end < S]. *)
Definition rangePasses (rangeSpec : str) (S : Z) : Prop :=
  exists part0 part1,
    strings.Split rangeSpec "-" = [part0; part1]
    /\ fst (rangeBounds part0 part1 S) <= snd (rangeBounds part0 part1 S)
    /\ fst (rangeBounds part0 part1 S) < S
    /\ snd (rangeBounds part0 part1 S) < S.

(** The ranges that a header lists: what stands between the commas of its
    group. *)
Definition listedRanges (header : str) : list str :=
  match matchRangePattern header with
  | Some group => strings.Split group ","
  | None => []
  end.

(** The range from [a] to [b] as a client writes it, the two numbers in
    decimal. *)
Definition closedRange (ab : Z * Z) : str :=
  strconv.FormatInt (fst ab) ++ "-" ++ strconv.FormatInt (snd ab).

Fixpoint joinComma (specs : list str) : str :=
  match specs with
  | [] => []
  | sp :: specs' =>
      match specs' with
      | [] => sp
      | _ => sp ++ "," ++ joinComma specs'
      end
  end.

(** The Range header that lists the given ranges. *)
Definition closedRangesHeader (pairs : list (Z * Z)) : str :=
  "bytes=" ++ joinComma (map closedRange pairs).

(* ================================================================= *)
(** ** Facts about [strings] *)

Lemma eqb_eq (a b : str) : strings.eqb a b = true <-> a = b.
Proof.
  revert b; induction a as [|x a IH]; intros [|y b]; simpl; split;
    try congruence; try reflexivity.
  - rewrite andb_true_iff, Ascii.eqb_eq, IH. intros [-> ->]; reflexivity.
  - intros E; injection E as -> ->.
    rewrite andb_true_iff, Ascii.eqb_eq, IH; auto.
Qed.

Lemma eqb_refl (a : str) : strings.eqb a a = true.
Proof. apply eqb_eq; reflexivity. Qed.

Lemma eqb_neq (a b : str) : strings.eqb a b = false <-> a <> b.
Proof.
  rewrite <- eqb_eq. destruct (strings.eqb a b); split; congruence.
Qed.

Lemma HasPrefix_iff (s p : str) :
  strings.HasPrefix s p = true <-> exists t, s = p ++ t.
Proof.
  revert s; induction p as [|c p IH]; intros s; simpl.
  - split; [intros _; exists s; reflexivity | destruct s; reflexivity].
  - destruct s as [|d s]; simpl.
    + split; [discriminate | intros [t E]; discriminate].
    + rewrite andb_true_iff, Ascii.eqb_eq, IH. split.
      * intros [-> [t ->]]. exists t; reflexivity.
      * intros [t E]. injection E as -> ->. split; [reflexivity | exists t; reflexivity].
Qed.

Lemma HasPrefix_app (p t : str) : strings.HasPrefix (p ++ t) p = true.
Proof. apply HasPrefix_iff; exists t; reflexivity. Qed.

Lemma HasSuffix_iff (s x : str) :
  strings.HasSuffix s x = true <-> exists t, s = t ++ x.
Proof.
  induction s as [|c s IH]; cbn [strings.HasSuffix].
  - rewrite orb_false_r, eqb_eq. split.
    + intros <-. exists []; reflexivity.
    + intros [t E]. symmetry in E. apply app_eq_nil in E. symmetry; tauto.
  - rewrite orb_true_iff, eqb_eq, IH. split.
    + intros [<- | [t ->]]; [exists [] | exists (c :: t)]; reflexivity.
    + intros [[|d t] E]; simpl in E.
      * left; congruence.
      * right. injection E as -> ->. exists t; reflexivity.
Qed.

Lemma Contains_iff (s x : str) :
  strings.Contains s x = true <-> exists a b, s = a ++ x ++ b.
Proof.
  induction s as [|c s IH]; cbn [strings.Contains].
  - rewrite orb_false_r, HasPrefix_iff. split.
    + intros [t E]. exists [], t; exact E.
    + intros [[|d a] [b E]]; simpl in E; [exists b; exact E | discriminate].
  - rewrite orb_true_iff, HasPrefix_iff, IH. split.
    + intros [[t E] | [a [b ->]]]; [exists [], t; exact E | exists (c :: a), b; reflexivity].
    + intros [[|d a] [b E]]; simpl in E.
      * left; exists b; exact E.
      * right. injection E as -> ->. exists a, b; reflexivity.
Qed.

Lemma TrimPrefix_app (p t : str) : strings.TrimPrefix (p ++ t) p = t.
Proof.
  unfold strings.TrimPrefix. rewrite HasPrefix_app.
  rewrite skipn_app, skipn_all, Nat.sub_diag. reflexivity.
Qed.

Lemma TrimPrefix_other (s p : str) :
  (forall t, s <> p ++ t) -> strings.TrimPrefix s p = s.
Proof.
  intros H. unfold strings.TrimPrefix.
  destruct (strings.HasPrefix s p) eqn:E; [|reflexivity].
  apply HasPrefix_iff in E. destruct E as [t E]. elim (H t E).
Qed.

Lemma TrimSuffix_app (t x : str) : strings.TrimSuffix (t ++ x) x = t.
Proof.
  unfold strings.TrimSuffix.
  assert (E : strings.HasSuffix (t ++ x) x = true)
    by (apply HasSuffix_iff; exists t; reflexivity).
  rewrite E, length_app, Nat.add_sub, firstn_app, firstn_all, Nat.sub_diag.
  simpl. apply app_nil_r.
Qed.

Lemma CountByte_nonneg (s : str) (c : ascii) : 0 <= strings.CountByte s c.
Proof. induction s as [|x s IH]; simpl; [lia | destruct (Ascii.eqb x c); lia]. Qed.

Lemma CountByte_zero (s : str) (c : ascii) :
  strings.CountByte s c = 0 <-> ~ In c s.
Proof.
  induction s as [|x s IH]; simpl; [tauto|].
  pose proof (CountByte_nonneg s c).
  destruct (Ascii.eqb_spec x c) as [->|N].
  - split; [lia | intros H'; elim H'; auto].
  - rewrite Z.add_0_l, IH. split; [intros H' [E|I]; congruence || tauto | tauto].
Qed.

Lemma CountByte_app (s t : str) (c : ascii) :
  strings.CountByte (s ++ t) c = strings.CountByte s c + strings.CountByte t c.
Proof. induction s as [|x s IH]; simpl; [reflexivity | rewrite IH; lia]. Qed.

(* ================================================================= *)
(** ** The library models on known values *)

Example Clean_examples :
  path.Clean "a//\b/" = go "a/\b" /\ path.Clean "/a/b/../c/./d" = go "/a/c/d" /\
  path.Clean "/../x" = go "/x" /\ path.Clean "../../x/.." = go "../.." /\
  path.Clean "a/.." = go "." /\ path.Dir "a/b/c.txt" = go "a/b" /\
  path.Dir "c.txt" = go "." /\ path.Join ["/" : str; "/a/b" : str] = go "/a/b" /\
  strings.TrimSpace "  12 " = go "12".
Proof. repeat split; reflexivity. Qed.

(** [path.Clean] on the table of the tests of the Go library. *)
Example Clean_table :
  forallb (fun '(p, cleaned) => strings.eqb (path.Clean (go p)) (go cleaned))
    [ ("", "."); ("abc", "abc"); ("abc/def", "abc/def"); ("a/b/c", "a/b/c");
      (".", "."); ("..", ".."); ("../..", "../.."); ("../../abc", "../../abc");
      ("/abc", "/abc"); ("/", "/"); ("abc/", "abc"); ("abc/def/", "abc/def");
      ("a/b/c/", "a/b/c"); ("./", "."); ("../", ".."); ("../../", "../..");
      ("/abc/", "/abc"); ("abc//def//ghi", "abc/def/ghi"); ("//abc", "/abc");
      ("///abc", "/abc"); ("//abc//", "/abc"); ("abc//", "abc");
      ("abc/./def", "abc/def"); ("/./abc/def", "/abc/def"); ("abc/.", "abc");
      ("abc/def/ghi/../jkl", "abc/def/jkl"); ("abc/def/../ghi/../jkl", "abc/jkl");
      ("abc/def/..", "abc"); ("abc/def/../..", "."); ("/abc/def/../..", "/");
      ("abc/def/../../..", ".."); ("/abc/def/../../..", "/");
      ("abc/def/../../../ghi/jkl/../../../mno", "../../mno");
      ("abc/./../def", "def"); ("abc//./../def", "def");
      ("abc/../../././../def", "../../def") ]
  = true.
Proof. reflexivity. Qed.

Example strconv_examples :
  strconv.ParseInt "99999999999999999999999" = (maxInt64, Some strconv.ErrRange)
  /\ strconv.ParseInt "-9223372036854775808" = (minInt64, None)
  /\ strconv.ParseInt "12a" = (0, Some strconv.ErrSyntax)
  /\ strconv.FormatInt (-1234567890123) = go "-1234567890123"
  /\ toInt64 " 42 " = 42.
Proof. repeat split; reflexivity. Qed.

(* ================================================================= *)
(** ** Path resolution: the relative-path check *)

Lemma JoinBasePath_denied (base p : str) :
  JoinBasePath base p = inl ErrRelativePath <-> escapesRoot p.
Proof.
  unfold JoinBasePath, escapesRoot.
  destruct (strings.eqb p ".." || strings.HasSuffix p "/.."
            || strings.HasPrefix p "../" || strings.Contains p "/../") eqn:E.
  - split; [intros _ | reflexivity].
    rewrite !orb_true_iff in E.
    rewrite eqb_eq, HasSuffix_iff, HasPrefix_iff, Contains_iff in E. tauto.
  - split; [discriminate|]. intros H.
    rewrite !orb_false_iff in E. destruct E as [[[E1 E2] E3] E4].
    rewrite <- eqb_eq, <- HasSuffix_iff, <- HasPrefix_iff, <- Contains_iff in H.
    destruct H as [H|[H|[H|H]]]; congruence.
Qed.

Lemma JoinBasePath_error (base p : str) (e : error) :
  JoinBasePath base p = inl e -> e = ErrRelativePath.
Proof.
  unfold JoinBasePath.
  destruct (_ || _); [intros E; injection E; auto | discriminate].
Qed.

(** C1.  Path resolution fails with the relative-path-denied error exactly
    on the raw paths that are [..], end in [/..], start with [../] or hold
    [/../]: this holds of [JoinBasePath] whatever the base path, and of
    [handerReqPath] whether a directory is wanted or not; the check comes
    first, and path resolution raises no other error. *)
Theorem C1_relative_path_denied (p : str) (isDir : bool) :
  (handerReqPath p isDir = inl ErrRelativePath <-> escapesRoot p)
  /\ (forall e, handerReqPath p isDir = inl e -> e = ErrRelativePath)
  /\ (forall base, JoinBasePath base p = inl ErrRelativePath <-> escapesRoot p).
Proof.
  assert (R : forall e, handerReqPath p isDir = inl e <-> JoinBasePath "" p = inl e).
  { intros e. unfold handerReqPath.
    destruct (JoinBasePath "" p); [tauto | split; discriminate]. }
  split; [|split].
  - rewrite R. apply JoinBasePath_denied.
  - intros e H. apply R in H. eapply JoinBasePath_error; eassumption.
  - intros base. apply JoinBasePath_denied.
Qed.

(* ================================================================= *)
(** ** Path resolution: what is returned *)

(** C7.  [FixAndCleanPath] turns [a//\b] into [/a/b], and [handerReqPath]
    resolves the empty path to [/] when a directory is wanted; but on
    [a//\b] [handerReqPath] returns [a/\b]: the cleaned path is replaced by
    [path.Join] of the raw path, so the backslash stays and no leading slash
    is added. *)
Theorem C7_handerReqPath_keeps_raw_path :
  FixAndCleanPath "a//\b" = "/a/b"
  /\ handerReqPath "" true = inr (go "/")
  /\ handerReqPath "a//\b" false = inr (go "a/\b")
  /\ handerReqPath "a//\b" false <> inr (go "/a/b").
Proof. repeat split; try reflexivity. discriminate. Qed.

(** What [handerReqPath] returns on a path it does not refuse: the root for
    the raw path [/], and otherwise [path.Clean] of the raw path followed by
    a slash; a slash is appended when a directory is wanted and the result
    is not the root. *)
Lemma handerReqPath_returns (p : str) (isDir : bool) :
  ~ escapesRoot p ->
  handerReqPath p isDir
  = inr (let q := if strings.eqb p "/" then go "/" else path.Clean (p ++ "/") in
         if isDir && negb (strings.eqb q "/") then q ++ "/" else q).
Proof.
  intros H. unfold handerReqPath.
  destruct (JoinBasePath "" p) as [e|reqPath] eqn:J.
  - pose proof (JoinBasePath_error _ _ _ J) as ->.
    apply JoinBasePath_denied in J. contradiction.
  - destruct (strings.eqb p "/") eqn:E.
    + apply eqb_eq in E. subst p. vm_compute in J. injection J as <-. reflexivity.
    + cbn [negb]. f_equal.
      assert (Jn : path.Join [p ++ "/"] = path.Clean (p ++ "/")).
      { unfold path.Join. cbn [fold_left].
        replace (0 + length (p ++ "/") =? 0)%nat with false
          by (symmetry; apply Nat.eqb_neq; rewrite length_app; simpl; lia).
        cbn [path.joinNonEmpty length Nat.ltb Nat.leb orb].
        replace (strings.eqb (p ++ "/") "") with false
          by (symmetry; apply eqb_neq; destruct p; discriminate).
        reflexivity. }
      rewrite Jn. reflexivity.
Qed.

(* ================================================================= *)
(** ** The entry loop under a handler that never skips *)

(** A handler that appends the entries satisfying [keep] and never answers
    an error sees every included entry, so the result is the included
    entries that satisfy [keep], in the order of the archive. *)
Lemma extractLoop_appending (pia : option (list str)) (h : FileHandler)
      (keep : File -> bool) :
  (forall files f, h files f = (files ++ (if keep f then [f] else []), None)) ->
  forall es files i,
    mholt.extractLoop pia h [] files i es
    = (files ++ filter (fun f => fileIsIncluded pia (NameInArchive f) && keep f) es,
       None).
Proof.
  intros Hh. induction es as [|f es IH]; intros files i; simpl.
  - rewrite app_nil_r; reflexivity.
  - destruct (fileIsIncluded pia (NameInArchive f)); simpl.
    + rewrite Hh, IH. destruct (keep f); simpl.
      * rewrite <- app_assoc; reflexivity.
      * rewrite app_nil_r; reflexivity.
    + apply IH.
Qed.

(* ================================================================= *)
(** ** The directory filter *)

Lemma dirCond_iff (r : str) : dirCond r = true <-> directChildName r.
Proof.
  unfold dirCond, directChildName, noSlash.
  rewrite orb_true_iff, !andb_true_iff, !Z.eqb_eq, Nat.ltb_lt, HasSuffix_iff.
  rewrite CountByte_zero. split.
  - intros [[H0 Hl] | [H1 [t ->]]].
    + left. split; [exact H0 | intros ->; simpl in Hl; lia].
    + right. exists t. split; [reflexivity|].
      rewrite CountByte_app in H1. simpl in H1.
      apply (CountByte_zero t path.slash). unfold path.slash. lia.
  - intros [[H0 Hn] | [t [-> Ht]]].
    + left. split; [exact H0 | destruct r; [congruence | simpl; lia]].
    + right. split; [| exists t; reflexivity].
      rewrite CountByte_app. simpl.
      apply (CountByte_zero t path.slash) in Ht. unfold path.slash in Ht. lia.
Qed.

Lemma strippedOf_iff (P x r : str) :
  strippedOf P x r <-> r = strings.TrimPrefix x P.
Proof.
  unfold strippedOf. split.
  - intros [-> | [H ->]].
    + rewrite TrimPrefix_app; reflexivity.
    + rewrite TrimPrefix_other; auto.
  - intros ->. unfold strings.TrimPrefix.
    destruct (strings.HasPrefix x P) eqn:E.
    + apply HasPrefix_iff in E. destruct E as [t ->].
      left. rewrite skipn_app, skipn_all, Nat.sub_diag. reflexivity.
    + right. split; [|reflexivity]. intros t ->.
      rewrite HasPrefix_app in E; discriminate.
Qed.

Lemma DirectChild_iff (P name : str) :
  DirectChild P name <-> dirCond (strings.TrimPrefix ("/" ++ name) P) = true.
Proof.
  unfold DirectChild. rewrite dirCond_iff. split.
  - intros [r [S D]]. apply strippedOf_iff in S. subst r. exact D.
  - intros D. eexists. split; [apply strippedOf_iff; reflexivity | exact D].
Qed.

(** An anchored name that does not start with [P] passes the test only when
    the name is empty. *)
Lemma directChildName_anchored (name : str) :
  directChildName ("/" ++ name) -> name = [].
Proof.
  intros [[H _] | [s [E Hs]]].
  - elim H. left; reflexivity.
  - destruct s as [|c s].
    + simpl in E. injection E; auto.
    + simpl in E. injection E as <- _. elim Hs. left; reflexivity.
Qed.

Lemma DirectChild_below (P name : str) :
  name <> [] ->
  (DirectChild P name <-> exists r, "/" ++ name = P ++ r /\ directChildName r).
Proof.
  intros Hn. split.
  - intros [r [[E | [_ ->]] D]].
    + exists r; auto.
    + elim Hn. apply directChildName_anchored; exact D.
  - intros [r [E D]]. exists r. split; [left; exact E | exact D].
Qed.

Lemma DirFilter_appends (P : str) (files : list File) (f : File) :
  DirFilter P files f
  = (files ++ (if dirCond (strings.TrimPrefix ("/" ++ NameInArchive f) P)
               then [f] else []), None).
Proof.
  unfold DirFilter, dirCond.
  destruct (_ || _); [reflexivity | rewrite app_nil_r; reflexivity].
Qed.

(** C4.  For every directory path [P] and every entry stream, the directory
    filter keeps, in the order of the archive, exactly the entries whose
    name, anchored with a leading slash and with the prefix [P] stripped,
    has no slash and is not empty, or has exactly one slash, at its end.  For
    an entry whose name is not empty this means: the anchored name is [P]
    followed by such a rest.  On the entries [a/], [a/b.txt], [a/c/],
    [a/c/d.txt] and the path [/a/] the result is [a/b.txt], [a/c/]. *)
Theorem C4_directory_filter_direct_children :
  (forall (P : str) (es : list File),
      exists keep : File -> bool,
        ExtractDirs (NewArchive es) P = (filter keep es, None)
        /\ (forall f, keep f = true <-> DirectChild P (NameInArchive f))
        /\ (forall f, NameInArchive f <> [] ->
                      (keep f = true <->
                       exists r, "/" ++ NameInArchive f = P ++ r
                                 /\ directChildName r)))
  /\ map NameInArchive (fst (ExtractDirs (NewArchive exampleEntries) "/a/"))
     = [go "a/b.txt"; go "a/c/"].
Proof.
  split; [|reflexivity].
  intros P es.
  exists (fun f => dirCond (strings.TrimPrefix ("/" ++ NameInArchive f) P)).
  split; [|split].
  - unfold ExtractDirs, mholt.Extract. simpl.
    rewrite (extractLoop_appending None _ _ (DirFilter_appends P)).
    reflexivity.
  - intros f. symmetry. apply DirectChild_iff.
  - intros f Hn. rewrite <- DirectChild_iff. apply DirectChild_below; exact Hn.
Qed.

(* ================================================================= *)
(** ** The cascade filter *)

Lemma NoFilter_appends (files : list File) (f : File) :
  NoFilter files f = (files ++ (if true then [f] else []), None).
Proof. reflexivity. Qed.

Lemma filter_all (A : Type) (l : list A) : filter (fun _ => true) l = l.
Proof. induction l as [|a l IH]; simpl; [|rewrite IH]; reflexivity. Qed.

(** The entries that a one-element [pathsInArchive] holding [d/] lets
    through: those whose name starts with [d/]. *)
Lemma fileIsIncluded_dir (d name : str) :
  fileIsIncluded (Some [d ++ "/"]) name = true <-> exists r, name = d ++ "/" ++ r.
Proof.
  cbn [fileIsIncluded existsb].
  rewrite orb_false_r, TrimSuffix_app, orb_true_iff, eqb_eq, HasPrefix_iff.
  split.
  - intros [-> | [r ->]].
    + exists []. rewrite app_nil_r. reflexivity.
    + exists r. rewrite <- app_assoc. reflexivity.
  - intros [r ->]. right. exists r. rewrite <- app_assoc. reflexivity.
Qed.

(** C8 (as the code has it).  For the root path the cascade filter yields
    every entry.  For a directory path [/d/] it yields, in the order of the
    archive, exactly the entries whose anchored name starts with [/d/]: every
    descendant at any depth and also the entry of the directory [d/] itself.
    On the entries [a/], [a/b.txt], [a/c/], [a/c/d.txt] and the path [/a/]
    the result is all four entries. *)
Theorem C8_cascade_filter_subtree_with_root :
  (forall es, CascadeExtractDirs (NewArchive es) "/" = (es, None))
  /\ (forall (d : str) (es : list File),
         exists keep : File -> bool,
           CascadeExtractDirs (NewArchive es) ("/" ++ d ++ "/")
           = (filter keep es, None)
           /\ (forall f, keep f = true <->
                         exists r, "/" ++ NameInArchive f = ("/" ++ d ++ "/") ++ r))
  /\ map NameInArchive (fst (CascadeExtractDirs (NewArchive exampleEntries) "/a/"))
     = [go "a/"; go "a/b.txt"; go "a/c/"; go "a/c/d.txt"].
Proof.
  split; [|split; [|reflexivity]].
  - intros es. unfold CascadeExtractDirs, mholt.Extract. simpl.
    rewrite (extractLoop_appending None _ (fun _ => true) NoFilter_appends). simpl.
    rewrite filter_all. reflexivity.
  - intros d es.
    exists (fun f => fileIsIncluded (Some [d ++ "/"]) (NameInArchive f)).
    split.
    + unfold CascadeExtractDirs, mholt.Extract.
      assert (E : strings.eqb ("/" ++ d ++ "/") "/" = false).
      { apply eqb_neq. destruct d; discriminate. }
      rewrite E.
      change (strings.TrimPrefix ("/" ++ d ++ "/") "/") with (d ++ "/").
      cbn [negb fileHandlerFunc NewArchive sourceArchive].
      rewrite (extractLoop_appending _ _ (fun _ => true) NoFilter_appends). simpl app.
      f_equal. apply filter_ext. intros f. apply andb_true_r.
    + intros f. rewrite fileIsIncluded_dir. split.
      * intros [r E]. exists r. rewrite E. simpl. rewrite <- app_assoc. reflexivity.
      * intros [r E]. exists r. simpl in E. rewrite <- app_assoc in E.
        injection E; auto.
Qed.

(** The claim C8 of the specification fails on its own example: the entry
    [a/] is in the result of the cascade filter for [/a/], which the
    specification gives as [a/b.txt], [a/c/], [a/c/d.txt]. *)
Lemma C8_cascade_example_differs :
  In (go "a/")
     (map NameInArchive (fst (CascadeExtractDirs (NewArchive exampleEntries) "/a/")))
  /\ ~ In (go "a/") [go "a/b.txt"; go "a/c/"; go "a/c/d.txt"]
  /\ map NameInArchive (fst (CascadeExtractDirs (NewArchive exampleEntries) "/a/"))
     <> [go "a/b.txt"; go "a/c/"; go "a/c/d.txt"].
Proof.
  split; [|split].
  - left; reflexivity.
  - intros [H|[H|[H|[]]]]; discriminate.
  - discriminate.
Qed.

(* ================================================================= *)
(** ** Facts about [path.Clean] and [path.Dir] *)

Lemma Split_noSep (s : str) (sep : ascii) :
  Forall (fun e => ~ In sep e) (strings.Split s sep).
Proof.
  induction s as [|c s IH]; simpl.
  - constructor; [tauto | constructor].
  - destruct (Ascii.eqb_spec c sep) as [->|N].
    + constructor; [tauto | exact IH].
    + destruct (strings.Split s sep) as [|piece pieces].
      * constructor; [|constructor]. intros [E|[]]; congruence.
      * inversion IH as [|? ? Hp Hps]; subst. constructor; [|exact Hps].
        intros [E|I]; [congruence | tauto].
Qed.

(** A piece with no separator, followed by a separator, is split off. *)
Lemma Split_piece (e s : str) (sep : ascii) :
  ~ In sep e -> strings.Split (e ++ sep :: s) sep = e :: strings.Split s sep.
Proof.
  induction e as [|c e IH]; intros H; simpl.
  - rewrite Ascii.eqb_refl. reflexivity.
  - destruct (Ascii.eqb_spec c sep) as [->|N].
    + elim H; left; reflexivity.
    + rewrite IH; [reflexivity | intros I; apply H; right; exact I].
Qed.

Lemma Split_single (e : str) (sep : ascii) :
  ~ In sep e -> strings.Split e sep = [e].
Proof.
  induction e as [|c e IH]; intros H; simpl; [reflexivity|].
  destruct (Ascii.eqb_spec c sep) as [->|N].
  - elim H; left; reflexivity.
  - rewrite IH; [reflexivity | intros I; apply H; right; exact I].
Qed.

Lemma realElem_tests (e : str) :
  realElem e ->
  strings.eqb e "" = false /\ strings.eqb e "." = false
  /\ strings.eqb e ".." = false.
Proof.
  intros [H1 [_ [H2 H3]]]. repeat split; apply eqb_neq; assumption.
Qed.

Lemma realElem_of_tests (e : str) :
  noSlash e -> strings.eqb e "" = false -> strings.eqb e "." = false ->
  strings.eqb e ".." = false -> realElem e.
Proof.
  intros H H1 H2 H3. apply eqb_neq in H1, H2, H3. repeat split; assumption.
Qed.

Lemma backLoop_elem (cs : list ascii) :
  forall (c : ascii) (T : list ascii),
    c <> path.slash -> Forall (fun x => x <> path.slash) cs ->
    path.backLoop 1 c (cs ++ path.slash :: T)
    = match T with [] => [path.slash] | _ => T end.
Proof.
  induction cs as [|a cs IH]; intros c T Hc Hcs.
  - simpl app. cbn [path.backLoop]. apply Ascii.eqb_neq in Hc. rewrite Hc.
    destruct T as [|t T]; [reflexivity|].
    cbn [length Nat.ltb Nat.leb negb andb path.backLoop].
    rewrite Ascii.eqb_refl. cbn [negb]. rewrite andb_false_r. reflexivity.
  - inversion Hcs as [|? ? Ha Hcs']; subst.
    simpl app. cbn [path.backLoop]. apply Ascii.eqb_neq in Hc. rewrite Hc.
    replace (1 <? length (a :: cs ++ path.slash :: T))%nat with true.
    + apply IH; assumption.
    + symmetry. apply Nat.ltb_lt. simpl. rewrite length_app. simpl. lia.
Qed.

Lemma rootedBuf_nonempty (rs : list str) : rootedBuf rs <> [].
Proof.
  destruct rs as [|e rs]; simpl; [discriminate|].
  destruct rs; intros E; apply app_eq_nil in E; destruct E; discriminate.
Qed.

Lemma noSlash_rev (e : str) :
  noSlash e -> Forall (fun x => x <> path.slash) (rev e).
Proof.
  intros H. apply Forall_forall. intros x I E. subst x.
  apply H. apply in_rev. exact I.
Qed.

Lemma backtrack_rootedBuf (e : str) (rs : list str) :
  realElem e -> path.backtrack 1 (rootedBuf (e :: rs)) = rootedBuf rs.
Proof.
  intros [Hne [Hns _]].
  pose proof (noSlash_rev e Hns) as HF.
  assert (B : forall T, path.backtrack 1 (rev e ++ path.slash :: T)
                        = match T with [] => [path.slash] | _ => T end).
  { intros T. destruct (rev e) as [|c cs] eqn:Er.
    - elim Hne. rewrite <- (rev_involutive e), Er. reflexivity.
    - inversion HF as [|? ? Hc Hcs]; subst.
      simpl app. cbn [path.backtrack]. apply backLoop_elem; assumption. }
  destruct rs as [|r1 rs1].
  - apply (B []).
  - change (rootedBuf (e :: r1 :: rs1))
      with (rev e ++ path.slash :: rootedBuf (r1 :: rs1)).
    rewrite B. pose proof (rootedBuf_nonempty (r1 :: rs1)) as N.
    destruct (rootedBuf (r1 :: rs1)); [congruence | reflexivity].
Qed.

Lemma length_rootedBuf (e : str) (rs : list str) :
  e <> [] -> (2 <= length (rootedBuf (e :: rs)))%nat.
Proof.
  intros H. cbn [rootedBuf]. rewrite length_app, length_rev.
  destruct e; [congruence|]. destruct rs; simpl; lia.
Qed.

Lemma cleanStep_rooted (rs : list str) (e : str) :
  Forall realElem rs -> noSlash e ->
  exists rs', Forall realElem rs'
              /\ path.cleanStep true (rootedBuf rs, 1%nat) e = (rootedBuf rs', 1%nat).
Proof.
  intros Hrs He. unfold path.cleanStep.
  destruct (strings.eqb e "") eqn:E1; [exists rs; auto|].
  destruct (strings.eqb e ".") eqn:E2; [exists rs; auto|].
  destruct (strings.eqb e "..") eqn:E3.
  - destruct rs as [|r1 rs1].
    + exists []. split; [constructor | reflexivity].
    + inversion Hrs as [|? ? Hr1 Hrs1]; subst.
      pose proof (length_rootedBuf r1 rs1 (proj1 Hr1)) as L.
      replace (1 <? length (rootedBuf (r1 :: rs1)))%nat with true
        by (symmetry; apply Nat.ltb_lt; lia).
      exists rs1. split; [exact Hrs1|].
      rewrite backtrack_rootedBuf; [reflexivity | exact Hr1].
  - pose proof (realElem_of_tests e He E1 E2 E3) as Hreal.
    exists (e :: rs). split; [constructor; assumption|].
    destruct rs as [|r1 rs1].
    + reflexivity.
    + inversion Hrs as [|? ? Hr1 Hrs1]; subst.
      pose proof (length_rootedBuf r1 rs1 (proj1 Hr1)) as L.
      replace (length (rootedBuf (r1 :: rs1)) =? 1)%nat with false
        by (symmetry; apply Nat.eqb_neq; lia).
      reflexivity.
Qed.

Lemma fold_cleanStep_rooted (elems : list str) :
  forall rs, Forall noSlash elems -> Forall realElem rs ->
    exists rs', Forall realElem rs'
                /\ fold_left (path.cleanStep true) elems (rootedBuf rs, 1%nat)
                   = (rootedBuf rs', 1%nat).
Proof.
  induction elems as [|e elems IH]; intros rs Hel Hrs.
  - exists rs. split; [exact Hrs | reflexivity].
  - inversion Hel as [|? ? He Hel']; subst.
    destruct (cleanStep_rooted rs e Hrs He) as [rs1 [Hrs1 E]].
    cbn [fold_left]. rewrite E. apply IH; assumption.
Qed.

Lemma joinElems_snoc (es : list str) (e : str) :
  es <> [] -> joinElems (es ++ [e]) = joinElems es ++ "/" ++ e.
Proof.
  induction es as [|a es IH]; intros H; [congruence|].
  destruct es as [|b es].
  - reflexivity.
  - change (joinElems ((a :: b :: es) ++ [e]))
      with (a ++ "/" ++ joinElems ((b :: es) ++ [e])).
    rewrite IH by discriminate.
    change (joinElems (a :: b :: es)) with (a ++ "/" ++ joinElems (b :: es)).
    rewrite <- !app_assoc. reflexivity.
Qed.

Lemma rev_rootedBuf (rs : list str) :
  rev (rootedBuf rs) = path.slash :: joinElems (rev rs).
Proof.
  induction rs as [|e rs IH]; [reflexivity|].
  cbn [rootedBuf]. rewrite rev_app_distr, rev_involutive.
  destruct rs as [|r1 rs1].
  - reflexivity.
  - cbn [rev] in *. rewrite IH. cbn [rev].
    rewrite (joinElems_snoc (rev rs1 ++ [r1]) e).
    + simpl. rewrite <- !app_assoc. reflexivity.
    + intros E. apply app_eq_nil in E. destruct E; discriminate.
Qed.

(** The result of [path.Clean] on a rooted path: the root slash followed by
    real elements glued with single slashes. *)
Lemma Clean_rooted_shape (rest : str) :
  exists es, Forall realElem es
             /\ path.Clean (path.slash :: rest) = path.slash :: joinElems es.
Proof.
  unfold path.Clean. rewrite Ascii.eqb_refl.
  destruct (fold_cleanStep_rooted (strings.Split rest path.slash) [])
    as [rs [Hrs E]].
  - apply Split_noSep.
  - constructor.
  - change ([path.slash], 1%nat) with (rootedBuf [], 1%nat). rewrite E.
    exists (rev rs). split.
    + apply Forall_rev; exact Hrs.
    + pose proof (rootedBuf_nonempty rs) as N.
      destruct (rootedBuf rs) eqn:B; [congruence|].
      rewrite <- B. apply rev_rootedBuf.
Qed.

Lemma joinElems_nonempty (es : list str) :
  Forall realElem es -> es <> [] -> joinElems es <> [].
Proof.
  intros H N. destruct es as [|e es]; [congruence|].
  inversion H as [|? ? [He _] _]; subst.
  destruct e as [|c e]; [congruence|]. destruct es; discriminate.
Qed.

(** The first byte of real elements glued together is no slash. *)
Lemma joinElems_head (es : list str) :
  Forall realElem es -> es <> [] ->
  exists c t, joinElems es = c :: t /\ c <> path.slash.
Proof.
  intros H N. destruct es as [|e es]; [congruence|].
  inversion H as [|? ? [He [Hs _]] _]; subst.
  destruct e as [|c e]; [congruence|].
  assert (Hc : c <> path.slash) by (intros ->; apply Hs; left; reflexivity).
  destruct es; [exists c, e | eexists c, _]; split; try reflexivity; exact Hc.
Qed.

Lemma cleanStep_unrooted (acc : list str) (e : str) :
  Forall realElem acc -> realElem e ->
  path.cleanStep false (rev (joinElems acc), 0%nat) e
  = (rev (joinElems (acc ++ [e])), 0%nat).
Proof.
  intros Hacc He. unfold path.cleanStep.
  destruct (realElem_tests e He) as [E1 [E2 E3]]. rewrite E1, E2, E3.
  destruct acc as [|a acc].
  - simpl. rewrite app_nil_r. reflexivity.
  - pose proof (joinElems_nonempty (a :: acc) Hacc ltac:(discriminate)) as N.
    rewrite joinElems_snoc by discriminate.
    replace (length (rev (joinElems (a :: acc))) =? 0)%nat with false.
    + cbn [andb orb negb]. rewrite !rev_app_distr. simpl.
      rewrite <- app_assoc. reflexivity.
    + symmetry. apply Nat.eqb_neq. rewrite length_rev.
      destruct (joinElems (a :: acc)); [congruence | simpl; lia].
Qed.

Lemma fold_cleanStep_unrooted (es : list str) :
  forall acc, Forall realElem es -> Forall realElem acc ->
    fold_left (path.cleanStep false) es (rev (joinElems acc), 0%nat)
    = (rev (joinElems (acc ++ es)), 0%nat).
Proof.
  induction es as [|e es IH]; intros acc Hes Hacc.
  - rewrite app_nil_r. reflexivity.
  - inversion Hes as [|? ? He Hes']; subst.
    cbn [fold_left]. rewrite cleanStep_unrooted by assumption.
    rewrite IH.
    + rewrite <- app_assoc. reflexivity.
    + exact Hes'.
    + apply Forall_app. split; [exact Hacc | constructor; [exact He | constructor]].
Qed.

Lemma joinElems_cons (e : str) (es : list str) :
  es <> [] -> joinElems (e :: es) = e ++ path.slash :: joinElems es.
Proof. destruct es; [congruence | reflexivity]. Qed.

Lemma Split_joinElems_then (es : list str) (tail : str) :
  Forall realElem es -> es <> [] ->
  strings.Split (joinElems es ++ path.slash :: tail) path.slash
  = es ++ strings.Split tail path.slash.
Proof.
  induction es as [|e es IH]; intros H N; [congruence|].
  inversion H as [|? ? [_ [Hs _]] Hes]; subst.
  destruct es as [|e2 es].
  - cbn [joinElems]. rewrite Split_piece by exact Hs. reflexivity.
  - rewrite joinElems_cons by discriminate.
    rewrite <- app_assoc, <- app_comm_cons.
    rewrite Split_piece by exact Hs.
    rewrite IH; [reflexivity | exact Hes | discriminate].
Qed.

Lemma Split_joinElems (es : list str) :
  Forall realElem es -> es <> [] ->
  strings.Split (joinElems es ++ "/") path.slash = es ++ [[]].
Proof. intros H N. apply (Split_joinElems_then es [] H N). Qed.

Lemma Clean_unrooted_unfold (c : ascii) (rest : str) :
  c <> path.slash ->
  path.Clean (c :: rest)
  = let '(out, _) := fold_left (path.cleanStep false)
                               (strings.Split (c :: rest) path.slash)
                               ([], 0%nat) in
    match out with [] => go "." | _ => rev out end.
Proof.
  intros Hc. unfold path.Clean. apply Ascii.eqb_neq in Hc. rewrite Hc.
  reflexivity.
Qed.

(** Real elements glued with slashes and followed by a slash are cleaned to
    the elements glued with slashes. *)
Lemma Clean_unrooted (es : list str) :
  Forall realElem es -> es <> [] ->
  path.Clean (joinElems es ++ "/") = joinElems es.
Proof.
  intros H N.
  pose proof (Split_joinElems es H N) as S.
  destruct (joinElems_head es H N) as [c [t [E Hc]]].
  rewrite E in S |- *. rewrite <- app_comm_cons in S |- *.
  rewrite Clean_unrooted_unfold by exact Hc. rewrite S.
  rewrite fold_left_app.
  change (([] : list ascii), 0%nat) with (rev (joinElems []), 0%nat).
  rewrite fold_cleanStep_unrooted by (assumption || constructor).
  simpl app. cbn [fold_left path.cleanStep strings.eqb go list_ascii_of_string].
  rewrite E.
  destruct (rev (c :: t)) eqn:R.
  - apply (f_equal (@rev ascii)) in R. rewrite rev_involutive in R. discriminate.
  - rewrite <- R. apply rev_involutive.
Qed.

Lemma dropToSlash_none (cs : list ascii) :
  Forall (fun x => x <> path.slash) cs -> path.dropToSlash cs = [].
Proof.
  induction 1 as [|c cs Hc _ IH]; simpl; [reflexivity|].
  apply Ascii.eqb_neq in Hc. rewrite Hc. exact IH.
Qed.

Lemma dropToSlash_app (cs T : list ascii) :
  Forall (fun x => x <> path.slash) cs ->
  path.dropToSlash (cs ++ path.slash :: T) = path.slash :: T.
Proof.
  induction 1 as [|c cs Hc _ IH]; cbn [app path.dropToSlash].
  - rewrite Ascii.eqb_refl. reflexivity.
  - apply Ascii.eqb_neq in Hc. rewrite Hc. exact IH.
Qed.

(** [path.Dir] of a name with no slash is [.]. *)
Lemma Dir_single (e : str) : noSlash e -> path.Dir e = ".".
Proof.
  intros H. unfold path.Dir, path.SplitDir.
  rewrite dropToSlash_none by (apply noSlash_rev; exact H). reflexivity.
Qed.

(** [path.Dir] of clean elements followed by a last one is the elements
    before the last. *)
Lemma Dir_snoc (es : list str) (e : str) :
  Forall realElem es -> es <> [] -> noSlash e ->
  path.Dir (joinElems es ++ "/" ++ e) = joinElems es.
Proof.
  intros H N He. unfold path.Dir, path.SplitDir.
  rewrite !rev_app_distr. simpl rev at 2. rewrite <- app_assoc. simpl app at 2.
  rewrite dropToSlash_app by (apply noSlash_rev; exact He).
  simpl rev. rewrite rev_involutive.
  apply Clean_unrooted; assumption.
Qed.

Lemma list_last_case (A : Type) (l : list A) :
  l = [] \/ exists l' a, l = l' ++ [a].
Proof.
  induction l as [|x l IH] using rev_ind; [left; reflexivity|].
  right. exists l, x. reflexivity.
Qed.

(* ================================================================= *)
(** ** The file filter *)

Lemma isFileAtb_iff (F : str) (f : File) :
  isFileAtb F f = true <-> isFileAt F f.
Proof.
  unfold isFileAtb, isFileAt.
  rewrite andb_true_iff, negb_true_iff, eqb_eq. intuition congruence.
Qed.

Lemma addLoop_incl (trimmedDir : str) (s : list str) :
  forall x, In x (fst (fst (mholt.addLoop trimmedDir s))) -> In x s.
Proof.
  induction s as [|elem s IH]; intros x; cbn [mholt.addLoop]; [tauto|].
  destruct (strings.eqb trimmedDir (strings.TrimSuffix elem "/")); [tauto|].
  destruct (strings.HasPrefix trimmedDir (strings.TrimSuffix elem "/" ++ "/")).
  - destruct (mholt.addLoop trimmedDir s) as [[r ret] da]. simpl in *.
    intros [E|I]; [left; exact E | right; apply IH; exact I].
  - destruct (strings.HasPrefix (strings.TrimSuffix elem "/") (trimmedDir ++ "/")).
    + intros I. right. apply IH. exact I.
    + destruct (mholt.addLoop trimmedDir s) as [[r ret] da]. simpl in *.
      intros [E|I]; [left; exact E | right; apply IH; exact I].
Qed.

(** The skip list only ever holds directories that were added to it. *)
Lemma add_incl (s : list str) (dir x : str) :
  In x (mholt.add s dir) -> In x s \/ x = dir.
Proof.
  unfold mholt.add. pose proof (addLoop_incl (strings.TrimSuffix dir "/") s x) as H.
  destruct (mholt.addLoop (strings.TrimSuffix dir "/") s) as [[r ret] da].
  simpl in H. destruct (ret || da).
  - intros I. left. apply H. exact I.
  - intros I. apply in_app_or in I. destruct I as [I|[E|[]]]; [left; auto | right; auto].
Qed.

Lemma fileIsIncluded_some (l : list str) (name : str) :
  fileIsIncluded (Some l) name = true
  <-> exists fn, In fn l /\ fileIsIncluded (Some [fn]) name = true.
Proof.
  cbn [fileIsIncluded]. rewrite existsb_exists. split.
  - intros [fn [I E]]. exists fn. split; [exact I|].
    cbn [existsb]. rewrite E. reflexivity.
  - intros [fn [I E]]. exists fn. split; [exact I|].
    cbn [existsb] in E. rewrite orb_false_r in E. exact E.
Qed.

Lemma skipSafe_nil (F : str) : skipSafe F [].
Proof. intros fn []. Qed.

Lemma filter_none (A : Type) (p : A -> bool) (l : list A) :
  filter p l = [] <-> forall x, In x l -> p x = false.
Proof.
  induction l as [|a l IH]; simpl; [tauto|].
  destruct (p a) eqn:E.
  - split; [discriminate | intros H; specialize (H a (or_introl eq_refl)); congruence].
  - rewrite IH. split.
    + intros H x [<-|I]; auto.
    + intros H x I. apply H. right. exact I.
Qed.

Section FileFilterInvariant.

Variable F : str.
Hypothesis HF : NormalizedFilePath F.

(** The prefix test of [FileFilter] passes on the entry whose anchored name
    is the normalized path looked for. *)
Lemma FileFilter_prefix_of_target (name : str) :
  "/" ++ name = F ->
  strings.HasPrefix F
    ("/" ++ (if strings.eqb (path.Dir name) "." then go "" else path.Dir name))
  = true.
Proof.
  destruct HF as [Hroot Hclean]. intros E.
  destruct (strings.eqb (path.Dir name) ".") eqn:D; [exact Hroot|].
  rewrite <- E in Hclean |- *.
  change (go "/" ++ name) with (path.slash :: name) in *.
  destruct (Clean_rooted_shape name) as [es [Hes S]].
  rewrite Hclean in S. injection S as S.
  destruct (list_last_case _ es) as [-> | [es' [e ->]]].
  - simpl in S. subst name. discriminate D.
  - apply Forall_app in Hes. destruct Hes as [Hes' He].
    inversion He as [|? ? [_ [Hs _]] _]; subst.
    destruct es' as [|e1 es'].
    + simpl in D. rewrite Dir_single in D by exact Hs. discriminate D.
    + rewrite joinElems_snoc by discriminate.
      rewrite Dir_snoc by (assumption || discriminate).
      apply HasPrefix_iff. exists ("/" ++ e).
      change (path.slash :: ?x) with (go "/" ++ x).
      rewrite <- !app_assoc. reflexivity.
Qed.

(** The directory that the file filter has skipped, [path.Dir(name) + "/"]
    for a file whose directory is no prefix of [F], does not hold [F]. *)
Lemma skipSafe_add (name : str) (skipDirs : list str) :
  strings.HasPrefix F
    ("/" ++ (if strings.eqb (path.Dir name) "." then go "" else path.Dir name))
  = false ->
  skipSafe F skipDirs ->
  skipSafe F (mholt.add skipDirs (path.Dir name ++ "/")).
Proof.
  intros HP Hs fn I name' Hin.
  apply add_incl in I. destruct I as [I | ->].
  - apply (Hs fn I name' Hin).
  - apply fileIsIncluded_dir in Hin. destruct Hin as [r' ->]. intros E.
    destruct (strings.eqb (path.Dir name) ".").
    + exact (eq_true_false_abs _ (proj1 HF) HP).
    + assert (T : strings.HasPrefix F ("/" ++ path.Dir name) = true).
      { apply HasPrefix_iff. exists ("/" ++ r'). rewrite <- E.
        rewrite <- !app_assoc. reflexivity. }
      congruence.
Qed.

(** Under the file filter the entry loop collects exactly the files at
    [F]: what the filter prunes never holds one of them. *)
Lemma extractLoop_FileFilter (es : list File) :
  forall skipDirs files i,
    skipSafe F skipDirs ->
    mholt.extractLoop None (FileFilter F) skipDirs files i es
    = (files ++ filter (isFileAtb F) es, None).
Proof.
  induction es as [|f es IH]; intros skipDirs files i Hs.
  - simpl. rewrite app_nil_r. reflexivity.
  - cbn [mholt.extractLoop filter].
    change (fileIsIncluded None (NameInArchive f)) with true. cbn [negb].
    destruct (fileIsIncluded (Some skipDirs) (NameInArchive f)) eqn:Sk.
    + (* the entry lies in a skipped directory *)
      apply fileIsIncluded_some in Sk. destruct Sk as [fn [I Hin]].
      assert (N : isFileAtb F f = false).
      { unfold isFileAtb. replace (strings.eqb F ("/" ++ NameInArchive f)) with false.
        - apply andb_false_r.
        - symmetry. apply eqb_neq. intros E. apply (Hs fn I _ Hin). auto. }
      rewrite N. apply IH. exact Hs.
    + destruct (IsDir f) eqn:D.
      * assert (E1 : FileFilter F files f = (files, None))
          by (unfold FileFilter; rewrite D; reflexivity).
        rewrite E1. unfold isFileAtb at 1. rewrite D. cbn [negb andb].
        apply IH. exact Hs.
      * destruct (strings.HasPrefix F
                    ("/" ++ (if strings.eqb (path.Dir (NameInArchive f)) "."
                             then go "" else path.Dir (NameInArchive f))))
                 eqn:HP.
        -- destruct (strings.eqb F ("/" ++ NameInArchive f)) eqn:EQ.
           ++ assert (E1 : FileFilter F files f = (files ++ [f], None))
                by (unfold FileFilter; rewrite D; cbv zeta; rewrite HP, EQ; reflexivity).
              rewrite E1. unfold isFileAtb at 1. rewrite D, EQ. cbn [negb andb].
              rewrite IH by exact Hs. rewrite <- app_assoc. reflexivity.
           ++ assert (E1 : FileFilter F files f = (files, None))
                by (unfold FileFilter; rewrite D; cbv zeta; rewrite HP, EQ; reflexivity).
              rewrite E1. unfold isFileAtb at 1. rewrite D, EQ. cbn [negb andb].
              apply IH. exact Hs.
        -- assert (E1 : FileFilter F files f = (files, Some SkipDir))
             by (unfold FileFilter; rewrite D; cbv zeta; rewrite HP; reflexivity).
           rewrite E1. unfold isFileAtb at 1. rewrite D.
           replace (strings.eqb F ("/" ++ NameInArchive f)) with false.
           ++ cbn [negb andb]. apply IH.
              apply skipSafe_add; [exact HP | exact Hs].
           ++ symmetry. apply eqb_neq. intros E.
              rewrite (FileFilter_prefix_of_target _ (eq_sym E)) in HP.
              discriminate.
Qed.

Lemma ExtractFile_filter (es : list File) :
  ExtractFile (NewArchive es) F
  = match filter (isFileAtb F) es with
    | [] => (None, Some (errorString "file not found"))
    | f :: _ => (Some f, None)
    end.
Proof.
  unfold ExtractFile, mholt.Extract.
  cbn [fileHandlerFunc NewArchive sourceArchive pathsInArchive].
  rewrite (extractLoop_FileFilter es [] [] 0 (skipSafe_nil F)).
  reflexivity.
Qed.

End FileFilterInvariant.

(** C5.  For a normalized file path [F], [ExtractFile] returns the first
    entry of the stream that is not a directory and whose anchored name is
    [F], with no error: the pruning of the file filter never hides it.  It
    returns the error "file not found" exactly when the stream has no such
    entry.  On the example entries, [/a/c/d.txt] yields that entry and
    [/a/missing.txt] yields the error. *)
Theorem C5_ExtractFile_finds_the_file (F : str) (es : list File) :
  NormalizedFilePath F ->
  (forall pre f post,
      es = pre ++ f :: post -> isFileAt F f ->
      (forall g, In g pre -> ~ isFileAt F g) ->
      ExtractFile (NewArchive es) F = (Some f, None))
  /\ (ExtractFile (NewArchive es) F = (None, Some (errorString "file not found"))
      <-> forall f, In f es -> ~ isFileAt F f)
  /\ ExtractFile (NewArchive exampleEntries) "/a/c/d.txt"
     = (Some (entry "a/c/d.txt" false), None)
  /\ ExtractFile (NewArchive exampleEntries) "/a/missing.txt"
     = (None, Some (errorString "file not found")).
Proof.
  intros HF. split; [|split; [|split; reflexivity]].
  - intros pre f post -> Hf Hpre.
    rewrite ExtractFile_filter by exact HF.
    rewrite filter_app. cbn [filter].
    apply isFileAtb_iff in Hf. rewrite Hf.
    replace (filter (isFileAtb F) pre) with (@nil File); [reflexivity|].
    symmetry. apply filter_none. intros g I.
    destruct (isFileAtb F g) eqn:E; [|reflexivity].
    apply isFileAtb_iff in E. elim (Hpre g I E).
  - rewrite ExtractFile_filter by exact HF. split.
    + intros H f I Hf.
      destruct (filter (isFileAtb F) es) eqn:E; [|discriminate].
      apply isFileAtb_iff in Hf.
      rewrite (proj1 (filter_none _ _ _) E f I) in Hf. discriminate.
    + intros H.
      replace (filter (isFileAtb F) es) with (@nil File); [reflexivity|].
      symmetry. apply filter_none. intros f I.
      destruct (isFileAtb F f) eqn:E; [|reflexivity].
      apply isFileAtb_iff in E. elim (H f I E).
Qed.

Lemma C5_ExtractFile_witness :
  NormalizedFilePath "/a/c/d.txt"
  /\ ExtractFile (NewArchive exampleEntries) "/a/c/d.txt"
     = (Some (entry "a/c/d.txt" false), None).
Proof.
  assert (HF : NormalizedFilePath "/a/c/d.txt") by (split; reflexivity).
  split; [exact HF|].
  apply (proj1 (C5_ExtractFile_finds_the_file "/a/c/d.txt" exampleEntries HF)
               [entry "a/" true; entry "a/b.txt" false; entry "a/c/" true]
               (entry "a/c/d.txt" false) []).
  - reflexivity.
  - split; reflexivity.
  - intros g [<-|[<-|[<-|[]]]] [D E]; discriminate.
Defined.

(* ================================================================= *)
(** ** Pagination *)

Lemma wrap64_id (z : Z) : isInt64 z -> wrap64 z = z.
Proof.
  unfold isInt64, minInt64, maxInt64, wrap64. intros H.
  rewrite Z.mod_small; lia.
Qed.

(** Where the products and sums of [pagination] fit in 64 bits, it returns
    the total and the window [[start, min(start+perPage, total))], which is
    empty when [start] is beyond the total. *)
Lemma pagination_in_range (T : Type) (objs : list T) (page perPage : Z) :
  let pageIndex := if page <=? 0 then 1 else page in
  let pageSize := if perPage <=? 0 then 10 else perPage in
  let total := Z.of_nat (length objs) in
  let start := (pageIndex - 1) * pageSize in
  start + pageSize <= maxInt64 ->
  pagination objs {| Page := page; PerPage := perPage |}
  = Returns (total,
             if total <? start then []
             else firstn (Z.to_nat (Z.min (start + pageSize) total - start))
                         (skipn (Z.to_nat start) objs)).
Proof.
  intros pageIndex pageSize total start Hfit.
  assert (H1 : 1 <= pageIndex) by (subst pageIndex; destruct (Z.leb_spec page 0); lia).
  assert (H2 : 1 <= pageSize) by (subst pageSize; destruct (Z.leb_spec perPage 0); lia).
  assert (H3 : 0 <= start) by (subst start; nia).
  assert (H4 : pageIndex - 1 <= start) by (subst start; nia).
  unfold pagination. cbn [Page PerPage].
  fold pageIndex. fold pageSize. fold total.
  unfold maxInt64 in Hfit.
  rewrite (wrap64_id (pageIndex - 1)) by (unfold isInt64, minInt64, maxInt64; lia).
  fold start.
  rewrite (wrap64_id start) by (unfold isInt64, minInt64, maxInt64; lia).
  destruct (Z.ltb_spec total start) as [Hlt|Hge]; [reflexivity|].
  rewrite (wrap64_id (start + pageSize)) by (unfold isInt64, minInt64, maxInt64; lia).
  unfold sliceExpr. fold total.
  destruct (Z.ltb_spec total (start + pageSize)) as [Hc|Hc].
  - replace ((0 <=? start) && (start <=? total) && (total <=? total)) with true
      by (symmetry; rewrite !andb_true_iff, !Z.leb_le; lia).
    rewrite Z.min_r by lia. reflexivity.
  - replace ((0 <=? start) && (start <=? start + pageSize)
             && (start + pageSize <=? total)) with true
      by (symmetry; rewrite !andb_true_iff, !Z.leb_le; lia).
    rewrite Z.min_l by lia. reflexivity.
Qed.

Example pagination_examples :
  pagination (map Z.of_nat (seq 1 25)) {| Page := 3; PerPage := 10 |}
  = Returns (25, [21; 22; 23; 24; 25])
  /\ pagination [1; 2; 3; 4; 5] {| Page := 99; PerPage := 10 |} = Returns (5, [])
  /\ pagination [1; 2; 3; 4; 5] {| Page := 0; PerPage := 0 |}
     = pagination [1; 2; 3; 4; 5] {| Page := 1; PerPage := 10 |}.
Proof. repeat split; reflexivity. Qed.

(** C9.  With [page = 2^31 + 1] and [perPage = 2^32] the product
    [(page-1)*perPage] is [2^63], which wraps to the least [int]: [start] is
    negative, the test [start > total] fails and the slice expression
    panics, so an out-of-range page yields an error.  With [page = 2^32 + 1]
    and [perPage = 2^32] the product wraps to [0] and the far out-of-range
    page returns the first window instead of an empty one. *)
Theorem C9_pagination_overflow :
  pagination [1; 2; 3; 4; 5] {| Page := 2147483649; PerPage := 4294967296 |}
  = Panics
  /\ pagination [1; 2; 3; 4; 5] {| Page := 4294967297; PerPage := 4294967296 |}
     = Returns (5, [1; 2; 3; 4; 5]).
Proof. split; reflexivity. Qed.

(* ================================================================= *)
(** ** The range reader *)

(** A [Read] that the first chunk can serve in full. *)
Lemma Read_within_chunk (chunk : list Byte.byte) (rest : list (list Byte.byte))
      (p : list Byte.byte) :
  (length p <= length chunk)%nat ->
  io.Read {| io.pending := chunk :: rest |} p
  = (firstn (length p) chunk, Z.of_nat (length p), None,
     {| io.pending := if (length p <? length chunk)%nat
                      then skipn (length p) chunk :: rest else rest |}).
Proof.
  intros H. unfold io.Read.
  cbn [io.pending io.chunks io.withLast io.atEnd io.plain].
  rewrite Nat.min_l by exact H. rewrite skipn_all, app_nil_r.
  destruct (length p <? length chunk)%nat; [reflexivity|].
  destruct rest; reflexivity.
Qed.

(** On a stream that delivers the whole entry in one chunk and reports the
    end on a call of its own, [ReadAt] does fill the buffer with the bytes
    from [off] on. *)
Lemma ReadAt_one_chunk (content p : list Byte.byte) (off sz : Z) :
  0 <= off < sz ->
  (Z.to_nat off < length content)%nat ->
  (length p <= length content - Z.to_nat off)%nat ->
  exists rd,
    ReadAt (NewMyReadAtReader {| io.pending := [content] |} sz) p off
    = (firstn (length p) (skipn (Z.to_nat off) content), 0, None, rd).
Proof.
  intros Hoff Hlt Hp. unfold ReadAt, NewMyReadAtReader. cbn [r size].
  replace ((off <? 0) || (sz <=? off)) with false
    by (symmetry; apply orb_false_iff; split; [apply Z.ltb_ge | apply Z.leb_gt]; lia).
  assert (L : length (makeBytes off) = Z.to_nat off)
    by (unfold makeBytes; apply repeat_length).
  rewrite Read_within_chunk by (rewrite L; lia).
  rewrite L. replace (Z.to_nat off <? length content)%nat with true
    by (symmetry; apply Nat.ltb_lt; exact Hlt).
  rewrite Read_within_chunk by (rewrite length_skipn; exact Hp).
  eexists. reflexivity.
Qed.

(** C6.  On a six-byte stream that delivers two bytes per [Read], [ReadAt]
    for the range [(start = 3, length = 2)] drops two bytes, not three, and
    fills the buffer with the bytes at offsets 2 and 3, where the range asks
    for those at offsets 3 and 4; it reports no error.  The response to
    [Range: bytes=3-4] is a 206 with exactly that payload.  On a stream that
    delivers three bytes per [Read], [ReadAt] for [(0, 6)] reads three bytes
    and leaves the rest of the buffer zero, again with no error. *)
Theorem C6_ReadAt_reads_once :
  let twos := [[Byte.x00; Byte.x01]; [Byte.x02; Byte.x03]; [Byte.x04; Byte.x05]] in
  let threes := [[Byte.x00; Byte.x01; Byte.x02]; [Byte.x03; Byte.x04; Byte.x05]] in
  (let '(buf, n, err, _) :=
     ReadAt (NewMyReadAtReader {| io.pending := twos |} 6) (makeBytes 2) 3 in
   (buf, n, err)) = ([Byte.x02; Byte.x03], 0, None)
  /\ firstn 2 (skipn 3 (io.Copy {| io.pending := twos |})) = [Byte.x03; Byte.x04]
  /\ (exists c, SuccessStreamResp (rangeRequest "bytes=3-4") (fileOf "f.bin" twos)
                = Returns c
                /\ gin.status c = 206
                /\ gin.lookup (gin.header c) "Content-Range" = Some (go "bytes 3-4/6")
                /\ gin.body c = [gin.RawBody [Byte.x02; Byte.x03]])
  /\ (let '(buf, n, err, _) :=
        ReadAt (NewMyReadAtReader {| io.pending := threes |} 6) (makeBytes 6) 0 in
      (buf, n, err))
     = ([Byte.x00; Byte.x01; Byte.x02; Byte.x00; Byte.x00; Byte.x00], 0, None).
Proof.
  cbv zeta. split; [reflexivity | split; [reflexivity | split; [|reflexivity]]].
  eexists. split; [reflexivity|]. repeat split; reflexivity.
Qed.

(* ================================================================= *)
(** ** Range parsing and the answers to a Range request *)

Lemma parseRangeSpec_error (rangeSpec : str) (S : Z) (e : error) :
  parseRangeSpec rangeSpec S = inl e -> e = ErrInvalidRange.
Proof.
  unfold parseRangeSpec.
  destruct (strings.Split rangeSpec "-") as [|p0 [|p1 [|p2 l]]];
    try (intros E; injection E; auto).
  destruct (rangeBounds p0 p1 S) as [start end_].
  destruct (_ || _); [intros E; injection E; auto | discriminate].
Qed.

(** A range that [parseRangeSpec] accepts has two parts and bounds that pass
    the validation. *)
Lemma parseRangeSpec_ok (rangeSpec : str) (S : Z) (rg : httpRange) :
  parseRangeSpec rangeSpec S = inr rg ->
  exists part0 part1,
    strings.Split rangeSpec "-" = [part0; part1]
    /\ rg = {| Start := fst (rangeBounds part0 part1 S);
               End_ := snd (rangeBounds part0 part1 S) |}
    /\ fst (rangeBounds part0 part1 S) <= snd (rangeBounds part0 part1 S)
    /\ fst (rangeBounds part0 part1 S) < S
    /\ snd (rangeBounds part0 part1 S) < S.
Proof.
  unfold parseRangeSpec.
  destruct (strings.Split rangeSpec "-") as [|p0 [|p1 [|p2 l]]]; try discriminate.
  destruct (rangeBounds p0 p1 S) as [start end_] eqn:B.
  destruct (_ || _) eqn:V; [discriminate|].
  intros E. injection E as <-. exists p0, p1.
  rewrite !orb_false_iff, Z.ltb_ge, !Z.leb_gt in V. rewrite B. simpl. intuition.
Qed.

Lemma parseRangeSpecs_error (rangeSpecs : list str) (S : Z) :
  forall ranges e, parseRangeSpecs rangeSpecs S ranges = inl e -> e = ErrInvalidRange.
Proof.
  induction rangeSpecs as [|sp rest IH]; intros ranges e; simpl; [discriminate|].
  destruct (parseRangeSpec sp S) as [e'|rg] eqn:P.
  - intros E. injection E as <-. eapply parseRangeSpec_error; eassumption.
  - apply IH.
Qed.

Lemma parseRangeSpecs_ok (rangeSpecs : list str) (S : Z) :
  forall ranges result,
    parseRangeSpecs rangeSpecs S ranges = inr result ->
    length result = (length ranges + length rangeSpecs)%nat
    /\ forall sp, In sp rangeSpecs -> exists rg, parseRangeSpec sp S = inr rg.
Proof.
  induction rangeSpecs as [|sp rest IH]; intros ranges result; simpl.
  - intros E. injection E as <-. split; [lia | intros sp []].
  - destruct (parseRangeSpec sp S) as [e'|rg] eqn:P; [discriminate|].
    intros E. apply IH in E. destruct E as [L A].
    rewrite length_app in L. simpl in L. split; [lia|].
    intros sp' [<-|I]; [exists rg; exact P | apply A; exact I].
Qed.

Lemma parseRangeHeader_error (header : str) (S : Z) (e : error) :
  parseRangeHeader header S = inl e -> e = ErrInvalidRange.
Proof.
  unfold parseRangeHeader. destruct (matchRangePattern header).
  - apply parseRangeSpecs_error.
  - intros E. injection E; auto.
Qed.

(** A header with a range that fails the validation is refused. *)
Lemma failsValidation_error (header : str) (S : Z) :
  failsValidation header S -> parseRangeHeader header S = inl ErrInvalidRange.
Proof.
  intros [group [sp [p0 [p1 [M [I [Sp V]]]]]]].
  destruct (parseRangeHeader header S) as [e|ranges] eqn:P.
  - f_equal. eapply parseRangeHeader_error; eassumption.
  - exfalso. unfold parseRangeHeader in P. rewrite M in P.
    apply parseRangeSpecs_ok in P. destruct P as [_ A].
    destruct (A sp I) as [rg R]. apply parseRangeSpec_ok in R.
    destruct R as [q0 [q1 [Sq [_ [V1 [V2 V3]]]]]].
    rewrite Sp in Sq. injection Sq as <- <-. lia.
Qed.

Lemma Split_nonempty (s : str) (sep : ascii) : strings.Split s sep <> [].
Proof.
  destruct s as [|c s]; simpl; [discriminate|].
  destruct (Ascii.eqb c sep); [discriminate|].
  destruct (strings.Split s sep); discriminate.
Qed.

Lemma Split_several (s : str) (sep : ascii) :
  In sep s -> (2 <= length (strings.Split s sep))%nat.
Proof.
  induction s as [|c s IH]; simpl; [tauto|].
  destruct (Ascii.eqb_spec c sep) as [->|N].
  - intros _. pose proof (Split_nonempty s sep).
    destruct (strings.Split s sep); [congruence | simpl; lia].
  - intros [E|I]; [congruence|]. specialize (IH I).
    destruct (strings.Split s sep); simpl in *; lia.
Qed.

(** [ErrorStrResp] on a context with nothing written yet: the envelope goes
    out under status 200. *)
Lemma ErrorStrResp_envelope (c : gin.Context) (msg : str) (code : Z) :
  gin.status c = 200 -> gin.body c = [] ->
  isErrorEnvelope (ErrorStrResp c msg code) code msg.
Proof.
  intros Hs Hb.
  assert (W : gin.WriteHeader c 200 = c)
    by (unfold gin.WriteHeader; rewrite Hs; reflexivity).
  unfold ErrorStrResp, gin.JSON, gin.Status. rewrite W.
  destruct (gin.lookup (gin.header c) "Content-Type");
    unfold isErrorEnvelope;
    cbn [gin.status gin.body gin.aborted gin.Abort gin.write gin.HeaderSet];
    rewrite Hs, Hb; auto.
Qed.

(** What [SuccessStreamResp] answers to a request that carries a Range
    header, on a fresh context and a file that opens: the error envelope
    with code 416 when the header is refused, and the whole stream under
    status 200 when it is accepted with a number of ranges other than
    one. *)
Lemma SuccessStreamResp_range (reqHeader : list (str * str)) (f : File)
      (frc : io.Reader) (header : str) :
  Open f = inr frc ->
  gin.GetHeader (gin.newContext reqHeader) "Range" = header ->
  header <> [] ->
  match parseRangeHeader header (Size f) with
  | inl e =>
      exists c, SuccessStreamResp (gin.newContext reqHeader) f = Returns c
                /\ isErrorEnvelope c 416 (Error e)
  | inr [_] => True
  | inr _ =>
      exists c, SuccessStreamResp (gin.newContext reqHeader) f = Returns c
                /\ gin.status c = 200
                /\ gin.body c = [gin.RawBody (io.Copy frc)]
  end.
Proof.
  intros HO HR HN. unfold SuccessStreamResp. rewrite HO. cbv zeta.
  match goal with
  | |- context [gin.GetHeader ?c7 _] =>
      change (gin.GetHeader c7 "Range")
        with (gin.GetHeader (gin.newContext reqHeader) "Range");
      set (ctx := c7)
  end.
  rewrite HR.
  assert (HN' : strings.eqb header "" = false) by (apply eqb_neq; exact HN).
  rewrite HN'. cbn [negb].
  assert (Hs : gin.status ctx = 200) by reflexivity.
  assert (Hb : gin.body ctx = []) by reflexivity.
  destruct (parseRangeHeader header (Size f)) as [e|[|rg [|rg2 ranges]]].
  - eexists. split; [reflexivity|]. apply ErrorStrResp_envelope; assumption.
  - eexists. split; [reflexivity|]. split; reflexivity.
  - exact I.
  - eexists. split; [reflexivity|]. split; reflexivity.
Qed.

(** The examples of the range streamer on a 1000-byte file delivered in one
    chunk: [bytes=0-99] and [bytes=900-999] yield 206 with the first and the
    last hundred bytes, and no Range header yields 200 with all of them. *)
Example SuccessStreamResp_examples :
  let f := fileOf "f.bin" [sampleBytes 1000] in
  (exists c, SuccessStreamResp (rangeRequest "bytes=0-99") f = Returns c
             /\ gin.status c = 206
             /\ gin.lookup (gin.header c) "Content-Range"
                = Some (go "bytes 0-99/1000")
             /\ gin.lookup (gin.header c) "Content-Length" = Some (go "100")
             /\ gin.body c = [gin.RawBody (firstn 100 (sampleBytes 1000))])
  /\ (exists c, SuccessStreamResp (rangeRequest "bytes=900-999") f = Returns c
                /\ gin.status c = 206
                /\ gin.body c = [gin.RawBody (skipn 900 (sampleBytes 1000))])
  /\ (exists c, SuccessStreamResp (gin.newContext []) f = Returns c
                /\ gin.status c = 200
                /\ gin.body c = [gin.RawBody (sampleBytes 1000)]).
Proof.
  cbv zeta. repeat split; eexists; (split; [vm_compute; reflexivity|]);
    repeat split; vm_compute; reflexivity.
Qed.

(** C2 (as the code has it).  For every /down request on a fresh context,
    over a file that opens, whose Range header holds a range that fails the
    validation, the response is the JSON envelope with code 416 and the
    message of the parse error, and it is sent under HTTP status 200. *)
Theorem C2_invalid_range_envelope_416_status_200
        (reqHeader : list (str * str)) (f : File) (frc : io.Reader) (header : str) :
  Open f = inr frc ->
  gin.GetHeader (gin.newContext reqHeader) "Range" = header ->
  header <> [] ->
  failsValidation header (Size f) ->
  exists c, SuccessStreamResp (gin.newContext reqHeader) f = Returns c
            /\ gin.status c = 200
            /\ gin.body c = [gin.JSONBody {| Code := 416;
                                             Message := "Invalid Range Header";
                                             Data := None |}]
            /\ gin.aborted c = true.
Proof.
  intros HO HR HN HV.
  pose proof (SuccessStreamResp_range reqHeader f frc header HO HR HN) as H.
  rewrite (failsValidation_error header (Size f) HV) in H.
  exact H.
Qed.

Lemma failsValidation_example : failsValidation "bytes=0-1000" 1000.
Proof.
  exists (go "0-1000"), (go "0-1000"), (go "0"), (go "1000").
  repeat split; try reflexivity.
  - left; reflexivity.
  - right; right. vm_compute. discriminate.
Qed.

Lemma C2_invalid_range_witness :
  exists c, SuccessStreamResp (rangeRequest "bytes=0-1000")
                              (fileOf "f.bin" [repeat Byte.x00 1000])
            = Returns c
            /\ gin.status c = 200
            /\ gin.body c = [gin.JSONBody {| Code := 416;
                                             Message := "Invalid Range Header";
                                             Data := None |}]
            /\ gin.aborted c = true.
Proof.
  apply (C2_invalid_range_envelope_416_status_200
           [(go "Range", go "bytes=0-1000")]
           (fileOf "f.bin" [repeat Byte.x00 1000])
           {| io.pending := [repeat Byte.x00 1000] |} "bytes=0-1000").
  - reflexivity.
  - reflexivity.
  - discriminate.
  - exact failsValidation_example.
Defined.

(** The claim C2 of the specification fails on its own example: for a
    1000-byte file and [Range: bytes=0-1000] the code 416 is in the body of
    the response, and the status line carries 200. *)
Lemma C2_status_line_is_200 :
  failsValidation "bytes=0-1000" 1000
  /\ exists c, SuccessStreamResp (rangeRequest "bytes=0-1000")
                                 (fileOf "f.bin" [repeat Byte.x00 1000])
               = Returns c
               /\ gin.body c = [gin.JSONBody {| Code := 416;
                                                Message := "Invalid Range Header";
                                                Data := None |}]
               /\ gin.status c = 200
               /\ gin.status c <> 416.
Proof.
  split; [exact failsValidation_example|].
  eexists. split; [vm_compute; reflexivity|].
  split; [reflexivity|]. split; [reflexivity | discriminate].
Qed.

(* ================================================================= *)
(** ** Decimal numbers: [FormatInt] then [ParseInt] *)

Ltac each_digit H :=
  unfold digits in H; simpl in H;
  repeat (destruct H as [H|H]; [subst|]); try contradiction.

Lemma digitChar_in (d : Z) : 0 <= d < 10 -> In (strconv.digitChar d) digits.
Proof.
  intros H.
  assert (C : d = 0 \/ d = 1 \/ d = 2 \/ d = 3 \/ d = 4 \/ d = 5 \/ d = 6
              \/ d = 7 \/ d = 8 \/ d = 9) by lia.
  repeat (destruct C as [->|C]; [vm_compute; tauto|]). subst. vm_compute; tauto.
Qed.

Lemma digitVal_digitChar (d : Z) :
  0 <= d < 10 -> strconv.digitVal (strconv.digitChar d) = Some d.
Proof.
  intros H.
  assert (C : d = 0 \/ d = 1 \/ d = 2 \/ d = 3 \/ d = 4 \/ d = 5 \/ d = 6
              \/ d = 7 \/ d = 8 \/ d = 9) by lia.
  repeat (destruct C as [->|C]; [reflexivity|]). subst. reflexivity.
Qed.

(** A digit is none of the bytes that the parsers treat specially. *)
Lemma digit_plain (c : ascii) :
  In c digits ->
  isRegexpSpace c = false
  /\ Ascii.eqb (ascii_of_nat 10) c = false
  /\ c <> ","%char /\ c <> "-"%char
  /\ Ascii.eqb c "+" = false /\ Ascii.eqb c "-" = false.
Proof. intros H. each_digit H; repeat split; try reflexivity; discriminate. Qed.

Lemma digit_no_space (c : ascii) (t : str) :
  In c digits ->
  strings.leadingSpace strings.spaces (c :: t) = None
  /\ strings.leadingSpace strings.spacesRev (c :: t) = None.
Proof. intros H. each_digit H; split; reflexivity. Qed.

Lemma trimLeft_digits (s : str) (fuel : nat) :
  allDigits s ->
  strings.trimLeft strings.spaces fuel s = s
  /\ strings.trimLeft strings.spacesRev fuel s = s.
Proof.
  intros H. destruct fuel as [|fuel]; [split; reflexivity|].
  destruct H as [|c t Hc _]; [split; reflexivity|].
  destruct (digit_no_space c t Hc) as [E1 E2].
  cbn [strings.trimLeft]. rewrite E1, E2. split; reflexivity.
Qed.

Lemma TrimSpace_digits (s : str) : allDigits s -> strings.TrimSpace s = s.
Proof.
  intros H. unfold strings.TrimSpace.
  rewrite (proj1 (trimLeft_digits s _ H)).
  rewrite (proj2 (trimLeft_digits (rev s) _ (Forall_rev H))).
  apply rev_involutive.
Qed.

Lemma formatBits_digits (fuel : nat) :
  forall u acc, 0 <= u -> allDigits acc ->
                allDigits (strconv.formatBits fuel u acc).
Proof.
  induction fuel as [|fuel IH]; intros u acc Hu Hacc; simpl; [exact Hacc|].
  destruct (Z.ltb_spec u 10).
  - constructor; [apply digitChar_in; lia | exact Hacc].
  - apply IH.
    + apply Z.div_pos; lia.
    + constructor; [apply digitChar_in; apply Z.mod_pos_bound; lia | exact Hacc].
Qed.

Lemma formatBits_nonempty (fuel : nat) :
  forall u acc, (fuel <> 0%nat \/ acc <> []) -> strconv.formatBits fuel u acc <> [].
Proof.
  induction fuel as [|fuel IH]; intros u acc H; simpl.
  - destruct H; congruence.
  - destruct (u <? 10); [discriminate|]. apply IH. right; discriminate.
Qed.

(** Parsing the digits that [formatBits] has put in front of [acc] brings
    the accumulator of [ParseUint] from [0] to [u]. *)
Lemma parseUintLoop_formatBits (fuel : nat) :
  forall u acc,
    0 <= u <= maxUint64 -> u < 10 ^ Z.of_nat fuel ->
    strconv.parseUintLoop (strconv.formatBits fuel u acc) 0
    = strconv.parseUintLoop acc u.
Proof.
  unfold maxUint64.
  induction fuel as [|fuel IH]; intros u acc Hu Hf.
  - simpl in Hf. assert (u = 0) by lia. subst. reflexivity.
  - cbn [strconv.formatBits].
    destruct (Z.ltb_spec u 10) as [Hs|Hb].
    + cbn [strconv.parseUintLoop]. rewrite digitVal_digitChar by lia.
      replace (maxUint64 / 10 + 1 <=? 0) with false by reflexivity.
      change (0 * 10) with 0. rewrite Z.mod_0_l by lia. rewrite Z.add_0_l.
      rewrite Z.mod_small by lia.
      replace (u <? 0) with false by (symmetry; apply Z.ltb_ge; lia).
      replace (maxUint64 <? u) with false
        by (symmetry; apply Z.ltb_ge; unfold maxUint64; lia).
      reflexivity.
    + assert (Hq : 0 <= u / 10 <= u) by (split; [apply Z.div_pos; lia | apply Z.div_le_upper_bound; lia]).
      assert (Hm : 0 <= u mod 10 < 10) by (apply Z.mod_pos_bound; lia).
      assert (Hd : u = 10 * (u / 10) + u mod 10) by (apply Z.div_mod; lia).
      rewrite IH.
      * cbn [strconv.parseUintLoop]. rewrite digitVal_digitChar by exact Hm.
        assert (Hc : u / 10 < maxUint64 / 10 + 1).
        { assert (u / 10 <= maxUint64 / 10)
            by (apply Z.div_le_mono; unfold maxUint64; lia). lia. }
        replace (maxUint64 / 10 + 1 <=? u / 10) with false
          by (symmetry; apply Z.leb_gt; exact Hc).
        rewrite (Z.mod_small (u / 10 * 10)) by lia.
        replace (u / 10 * 10 + u mod 10) with u by lia.
        rewrite Z.mod_small by lia.
        replace (u <? u / 10 * 10) with false by (symmetry; apply Z.ltb_ge; lia).
        replace (maxUint64 <? u) with false
          by (symmetry; apply Z.ltb_ge; unfold maxUint64; lia).
        reflexivity.
      * lia.
      * rewrite Nat2Z.inj_succ, Z.pow_succ_r in Hf by lia.
        apply Z.div_lt_upper_bound; lia.
Qed.

(** What [FormatInt] prints for a non-negative [int64], [ParseInt] reads
    back. *)
Lemma ParseInt_FormatInt (n : Z) :
  0 <= n <= maxInt64 -> strconv.ParseInt (strconv.FormatInt n) = (n, None).
Proof.
  unfold maxInt64. intros H. unfold strconv.FormatInt.
  replace (n <? 0) with false by (symmetry; apply Z.ltb_ge; lia).
  pose proof (formatBits_digits 20 n [] ltac:(lia) ltac:(constructor)) as D.
  pose proof (formatBits_nonempty 20 n [] ltac:(left; discriminate)) as N.
  pose proof (parseUintLoop_formatBits 20 n []
                ltac:(unfold maxUint64; lia) ltac:(simpl; lia)) as P.
  destruct (strconv.formatBits 20 n []) as [|c0 s'] eqn:E; [congruence|].
  inversion D as [|? ? Hc0 _]; subst.
  destruct (digit_plain c0 Hc0) as [_ [_ [_ [_ [P1 P2]]]]].
  unfold strconv.ParseInt. rewrite P1, P2.
  unfold strconv.ParseUint. rewrite P. cbn [strconv.parseUintLoop].
  replace (2 ^ 63 <=? n) with false by (symmetry; apply Z.leb_gt; lia).
  cbn [negb andb]. rewrite wrap64_id by (unfold isInt64, minInt64, maxInt64; lia).
  reflexivity.
Qed.

Lemma toInt64_FormatInt (n : Z) :
  0 <= n <= maxInt64 -> toInt64 (strconv.FormatInt n) = n.
Proof.
  intros H. unfold toInt64.
  rewrite TrimSpace_digits.
  - rewrite ParseInt_FormatInt by exact H. reflexivity.
  - unfold strconv.FormatInt.
    replace (n <? 0) with false by (symmetry; apply Z.ltb_ge; lia).
    apply formatBits_digits; [lia | constructor].
Qed.

(* ================================================================= *)
(** ** The suffix form of the Range header *)

Lemma no_line_feed (ds : str) :
  allDigits ds -> existsb (Ascii.eqb (ascii_of_nat 10)) ds = false.
Proof.
  induction 1 as [|c t Hc _ IH]; [reflexivity|].
  cbn [existsb]. rewrite IH.
  destruct (digit_plain c Hc) as [_ [E _]]. rewrite E. reflexivity.
Qed.

Lemma matchRangePattern_suffix (ds : str) :
  allDigits ds -> matchRangePattern ("bytes=-" ++ ds) = Some ("-"%char :: ds).
Proof.
  intros H. unfold matchRangePattern. simpl.
  rewrite (no_line_feed ds H). reflexivity.
Qed.

Lemma digits_no_byte (ds : str) (c : ascii) :
  allDigits ds -> ~ In c digits -> ~ In c ds.
Proof.
  intros H N I. apply N. exact (proj1 (Forall_forall _ _) H c I).
Qed.

(** C10.  For a file of [S] bytes and [0 < N <= S-1], the header [bytes=-N]
    (with [N] in decimal) is accepted, and the one range it yields has
    [Start = S-1-N] and [End = S-1]: the window that [SuccessStreamResp]
    computes from it spans [N+1] bytes. *)
Theorem C10_suffix_range_spans_N_plus_1 (S N : Z) :
  0 < N -> N <= S - 1 -> S <= maxInt64 ->
  parseRangeHeader ("bytes=-" ++ strconv.FormatInt N) S
  = inr [{| Start := S - 1 - N; End_ := S - 1 |}]
  /\ wrap64 (wrap64 ((S - 1) - (S - 1 - N)) + 1) = N + 1.
Proof.
  intros HN HS HM. unfold maxInt64 in HM. split.
  - assert (D : allDigits (strconv.FormatInt N)).
    { unfold strconv.FormatInt.
      replace (N <? 0) with false by (symmetry; apply Z.ltb_ge; lia).
      apply formatBits_digits; [lia | constructor]. }
    unfold parseRangeHeader. rewrite (matchRangePattern_suffix _ D).
    rewrite Split_single.
    2:{ intros [E|I]; [discriminate|].
        revert I. apply digits_no_byte; [exact D|].
        intros I. each_digit I; discriminate. }
    cbn [parseRangeSpecs]. unfold parseRangeSpec.
    cbn [strings.Split]. rewrite Ascii.eqb_refl.
    rewrite Split_single.
    2:{ apply digits_no_byte; [exact D|]. intros I. each_digit I; discriminate. }
    unfold rangeBounds. cbn [strings.eqb go list_ascii_of_string].
    rewrite toInt64_FormatInt by (unfold maxInt64; lia).
    rewrite (wrap64_id (S - 1)) by (unfold isInt64, minInt64, maxInt64; lia).
    rewrite (wrap64_id (S - 1 - N)) by (unfold isInt64, minInt64, maxInt64; lia).
    replace (S - 1 <? S - 1 - N) with false by (symmetry; apply Z.ltb_ge; lia).
    replace (S <=? S - 1 - N) with false by (symmetry; apply Z.leb_gt; lia).
    replace (S <=? S - 1) with false by (symmetry; apply Z.leb_gt; lia).
    reflexivity.
  - replace (S - 1 - (S - 1 - N)) with N by lia.
    rewrite (wrap64_id N) by (unfold isInt64, minInt64, maxInt64; lia).
    apply wrap64_id. unfold isInt64, minInt64, maxInt64; lia.
Qed.

Lemma C10_suffix_range_witness :
  parseRangeHeader ("bytes=-" ++ strconv.FormatInt 100) 1000
  = inr [{| Start := 1000 - 1 - 100; End_ := 1000 - 1 |}]
  /\ wrap64 (wrap64 ((1000 - 1) - (1000 - 1 - 100)) + 1) = 100 + 1.
Proof.
  apply (C10_suffix_range_spans_N_plus_1 1000 100).
  - lia.
  - lia.
  - unfold maxInt64. lia.
Defined.

(* ================================================================= *)
(** ** More on [path.Clean]: fixed points and unrooted paths *)

Lemma cleanStep_rooted_real (acc : list str) (e : str) :
  Forall realElem acc -> realElem e ->
  path.cleanStep true (rootedBuf acc, 1%nat) e = (rootedBuf (e :: acc), 1%nat).
Proof.
  intros Hacc He. unfold path.cleanStep.
  destruct (realElem_tests e He) as [E1 [E2 E3]]. rewrite E1, E2, E3.
  destruct acc as [|a acc]; [reflexivity|].
  inversion Hacc as [|? ? Ha _]; subst.
  pose proof (length_rootedBuf a acc (proj1 Ha)) as L.
  replace (length (rootedBuf (a :: acc)) =? 1)%nat with false
    by (symmetry; apply Nat.eqb_neq; lia).
  reflexivity.
Qed.

Lemma keptElem_real (e : str) :
  noSlash e -> e <> ".." -> keptElem e = true -> realElem e.
Proof.
  unfold keptElem. intros Hs Hd K.
  apply andb_true_iff in K. destruct K as [K1 K2].
  apply negb_true_iff in K1, K2.
  apply realElem_of_tests; try assumption. apply eqb_neq; exact Hd.
Qed.

(** On elements none of which is [..], the loop of [Clean] on a rooted path
    appends the elements that are neither empty nor [.]. *)
Lemma fold_cleanStep_rooted_kept (elems : list str) :
  forall acc,
    Forall (fun e => noSlash e /\ e <> "..") elems -> Forall realElem acc ->
    fold_left (path.cleanStep true) elems (rootedBuf acc, 1%nat)
    = (rootedBuf (rev (filter keptElem elems) ++ acc), 1%nat).
Proof.
  induction elems as [|e elems IH]; intros acc Hel Hacc; [reflexivity|].
  inversion Hel as [|? ? [Hs Hd] Hel']; subst.
  cbn [fold_left filter]. destruct (keptElem e) eqn:K.
  - pose proof (keptElem_real e Hs Hd K) as He.
    rewrite cleanStep_rooted_real by assumption.
    rewrite IH by (try assumption; constructor; assumption).
    cbn [rev]. rewrite <- app_assoc. reflexivity.
  - assert (E : path.cleanStep true (rootedBuf acc, 1%nat) e = (rootedBuf acc, 1%nat)).
    { unfold path.cleanStep, keptElem in *.
      destruct (strings.eqb e ""); [reflexivity|].
      destruct (strings.eqb e "."); [reflexivity | discriminate K]. }
    rewrite E. apply IH; assumption.
Qed.

Lemma Split_joinElems_plain (es : list str) :
  Forall realElem es -> es <> [] ->
  strings.Split (joinElems es) path.slash = es.
Proof.
  induction es as [|e es IH]; intros H N; [congruence|].
  inversion H as [|? ? [_ [Hs _]] Hes]; subst.
  destruct es as [|e2 es].
  - apply Split_single. exact Hs.
  - rewrite joinElems_cons by discriminate.
    rewrite Split_piece by exact Hs.
    rewrite IH; [reflexivity | exact Hes | discriminate].
Qed.

Lemma filter_kept_real (es : list str) :
  Forall realElem es -> filter keptElem es = es.
Proof.
  induction 1 as [|e es He _ IH]; [reflexivity|].
  cbn [filter]. destruct (realElem_tests e He) as [E1 [E2 _]].
  assert (K : keptElem e = true) by (unfold keptElem; rewrite E1, E2; reflexivity).
  rewrite K, IH. reflexivity.
Qed.

Lemma real_nodotdot (es : list str) :
  Forall realElem es -> Forall (fun e => noSlash e /\ e <> "..") es.
Proof.
  intros H. eapply Forall_impl; [|exact H].
  intros e [_ [Hs [_ Hd]]]. split; assumption.
Qed.

(** The elements that [Split] finds in real elements glued with slashes,
    once the empty ones are dropped, are those elements. *)
Lemma kept_Split_joinElems (es : list str) :
  Forall realElem es ->
  filter keptElem (strings.Split (joinElems es) path.slash) = es
  /\ Forall (fun e => noSlash e /\ e <> "..")
            (strings.Split (joinElems es) path.slash).
Proof.
  intros H. destruct es as [|e es].
  - split; [reflexivity|]. constructor; [|constructor].
    split; [intros [] | discriminate].
  - rewrite Split_joinElems_plain by (assumption || discriminate).
    split; [apply filter_kept_real; exact H | apply real_nodotdot; exact H].
Qed.

Lemma Clean_rooted_unfold (rest : str) :
  path.Clean (path.slash :: rest)
  = rev (fst (fold_left (path.cleanStep true) (strings.Split rest path.slash)
                        (rootedBuf [], 1%nat))).
Proof.
  unfold path.Clean. rewrite Ascii.eqb_refl.
  destruct (fold_cleanStep_rooted (strings.Split rest path.slash) [])
    as [rs [Hrs E]]; [apply Split_noSep | constructor |].
  change ([path.slash], 1%nat) with (rootedBuf [], 1%nat). rewrite E.
  cbn [fst]. pose proof (rootedBuf_nonempty rs) as N.
  destruct (rootedBuf rs); [congruence | reflexivity].
Qed.

(** A rooted path made of real elements is a fixed point of [path.Clean],
    also behind further slashes. *)
Lemma Clean_rooted_fixed (es : list str) (slashes : list str) :
  Forall realElem es -> Forall (fun e => e = []) slashes ->
  path.Clean (path.slash :: concat (map (fun e => e ++ [path.slash]) slashes)
                         ++ joinElems es)
  = path.slash :: joinElems es.
Proof.
  intros H Hs. rewrite Clean_rooted_unfold.
  assert (S : forall tail,
             strings.Split (concat (map (fun e => e ++ [path.slash]) slashes) ++ tail)
                           path.slash
             = slashes ++ strings.Split tail path.slash).
  { intros tail. induction Hs as [|e l He _ IH]; [reflexivity|].
    subst e. cbn [map concat app]. cbn [strings.Split].
    rewrite Ascii.eqb_refl, IH. reflexivity. }
  rewrite S, fold_left_app.
  destruct (kept_Split_joinElems es H) as [K N].
  rewrite (fold_cleanStep_rooted_kept slashes []).
  - replace (filter keptElem slashes) with (@nil str).
    + cbn [rev app]. rewrite fold_cleanStep_rooted_kept by (assumption || constructor).
      rewrite K, app_nil_r. cbn [fst]. rewrite rev_rootedBuf, rev_involutive.
      reflexivity.
    + symmetry. apply filter_none. intros e I.
      rewrite (proj1 (Forall_forall _ _) Hs e I). reflexivity.
  - eapply Forall_impl; [|exact Hs]. intros e ->. split; [intros [] | discriminate].
  - constructor.
Qed.

(** [path.Clean] is idempotent on rooted paths. *)
Lemma Clean_rooted_idem (rest : str) :
  path.Clean (path.Clean (path.slash :: rest)) = path.Clean (path.slash :: rest).
Proof.
  destruct (Clean_rooted_shape rest) as [es [Hes E]]. rewrite E.
  apply (Clean_rooted_fixed es [] Hes). constructor.
Qed.

Lemma rooted_cons (p : str) :
  strings.HasPrefix p "/" = true -> exists rest, p = path.slash :: rest.
Proof.
  intros H. apply HasPrefix_iff in H. destruct H as [t ->]. exists t. reflexivity.
Qed.

(** [path.Clean] of a rooted path is a normalized path. *)
Lemma Clean_rooted_normalized (rest : str) :
  NormalizedFilePath (path.Clean (path.slash :: rest)).
Proof.
  split.
  - destruct (Clean_rooted_shape rest) as [es [_ E]]. rewrite E. reflexivity.
  - apply Clean_rooted_idem.
Qed.

Lemma cleanStep_rooted_incl (rs : list str) (e : str) :
  Forall realElem rs -> noSlash e ->
  exists rs', Forall realElem rs'
              /\ (forall x, In x rs' -> x = e \/ In x rs)
              /\ path.cleanStep true (rootedBuf rs, 1%nat) e = (rootedBuf rs', 1%nat).
Proof.
  intros Hrs He. unfold path.cleanStep.
  destruct (strings.eqb e "") eqn:E1; [exists rs; auto|].
  destruct (strings.eqb e ".") eqn:E2; [exists rs; auto|].
  destruct (strings.eqb e "..") eqn:E3.
  - destruct rs as [|r1 rs1].
    + exists []. split; [constructor | split; [intros x [] | reflexivity]].
    + inversion Hrs as [|? ? Hr1 Hrs1]; subst.
      pose proof (length_rootedBuf r1 rs1 (proj1 Hr1)) as L.
      replace (1 <? length (rootedBuf (r1 :: rs1)))%nat with true
        by (symmetry; apply Nat.ltb_lt; lia).
      exists rs1. split; [exact Hrs1 | split; [intros x I; right; right; exact I|]].
      rewrite backtrack_rootedBuf; [reflexivity | exact Hr1].
  - pose proof (realElem_of_tests e He E1 E2 E3) as Hreal.
    exists (e :: rs). split; [constructor; assumption|].
    split; [intros x [<-|I]; auto|].
    fold (path.cleanStep true (rootedBuf rs, 1%nat) e).
    pose proof (cleanStep_rooted_real rs e Hrs Hreal) as C.
    unfold path.cleanStep in C. rewrite E1, E2, E3 in C. exact C.
Qed.

Lemma fold_cleanStep_rooted_incl (elems : list str) :
  forall rs, Forall noSlash elems -> Forall realElem rs ->
    exists rs', Forall realElem rs'
                /\ (forall x, In x rs' -> In x elems \/ In x rs)
                /\ fold_left (path.cleanStep true) elems (rootedBuf rs, 1%nat)
                   = (rootedBuf rs', 1%nat).
Proof.
  induction elems as [|e elems IH]; intros rs Hel Hrs.
  - exists rs. split; [exact Hrs | split; [auto | reflexivity]].
  - inversion Hel as [|? ? He Hel']; subst.
    destruct (cleanStep_rooted_incl rs e Hrs He) as [rs1 [Hrs1 [I1 E]]].
    destruct (IH rs1 Hel' Hrs1) as [rs2 [Hrs2 [I2 E2]]].
    exists rs2. split; [exact Hrs2 | split].
    + intros x I. destruct (I2 x I) as [J|J]; [left; right; exact J|].
      destruct (I1 x J) as [->|K]; [left; left; reflexivity | right; exact K].
    + cbn [fold_left]. rewrite E. exact E2.
Qed.

Lemma In_Split (s : str) (sep : ascii) :
  forall e, In e (strings.Split s sep) -> forall c, In c e -> In c s.
Proof.
  induction s as [|a s IH]; intros e I c Hc.
  - simpl in I. destruct I as [<-|[]]. exact Hc.
  - cbn [strings.Split] in I. destruct (Ascii.eqb a sep).
    + destruct I as [<-|I]; [destruct Hc | right; exact (IH e I c Hc)].
    + destruct (strings.Split s sep) as [|piece pieces] eqn:S.
      * destruct I as [<-|[]]. destruct Hc as [<-|[]]. left; reflexivity.
      * destruct I as [<-|I].
        -- destruct Hc as [<-|Hc]; [left; reflexivity|].
           right. apply (IH piece (or_introl eq_refl) c Hc).
        -- right. apply (IH e (or_intror I) c Hc).
Qed.

Lemma In_joinElems (es : list str) (c : ascii) :
  In c (joinElems es) -> c = path.slash \/ exists e, In e es /\ In c e.
Proof.
  induction es as [|e es IH]; intros I; [destruct I|].
  destruct es as [|e2 es].
  - right. exists e. split; [left; reflexivity | exact I].
  - rewrite joinElems_cons in I by discriminate.
    apply in_app_or in I. destruct I as [I|[<-|I]].
    + right. exists e. split; [left; reflexivity | exact I].
    + left; reflexivity.
    + destruct (IH I) as [->|[x [Ix Hc]]]; [left; reflexivity|].
      right. exists x. split; [right; exact Ix | exact Hc].
Qed.

(** [path.Clean] of a rooted path invents no byte: what it returns is made
    of slashes and of bytes of its argument. *)
Lemma Clean_rooted_bytes (rest : str) (c : ascii) :
  In c (path.Clean (path.slash :: rest)) -> c = path.slash \/ In c rest.
Proof.
  rewrite Clean_rooted_unfold.
  destruct (fold_cleanStep_rooted_incl (strings.Split rest path.slash) [])
    as [rs [Hrs [I E]]]; [apply Split_noSep | constructor |].
  rewrite E. cbn [fst]. rewrite rev_rootedBuf. intros [<-|J]; [left; reflexivity|].
  apply In_joinElems in J. destruct J as [->|[e [Ie Hc]]]; [left; reflexivity|].
  right. apply in_rev in Ie. destruct (I e Ie) as [K|[]].
  exact (In_Split rest path.slash e K c Hc).
Qed.

(** The loop that backtracks only drops bytes from the end of the buffer. *)
Lemma backLoop_suffix (dotdot : nat) (out : list ascii) :
  forall removed, exists dropped, out = dropped ++ path.backLoop dotdot removed out.
Proof.
  induction out as [|c out IH]; intros removed; [exists []; reflexivity|].
  cbn [path.backLoop].
  destruct ((dotdot <? length (c :: out))%nat && negb (Ascii.eqb removed path.slash)).
  - destruct (IH c) as [d E]. exists (c :: d). cbn [app]. rewrite <- E. reflexivity.
  - exists []. reflexivity.
Qed.

Lemma backtrack_suffix (dotdot : nat) (out : list ascii) :
  exists dropped, out = dropped ++ path.backtrack dotdot out.
Proof.
  destruct out as [|c out]; [exists []; reflexivity|].
  destruct (backLoop_suffix dotdot out c) as [d E].
  exists (c :: d). cbn [path.backtrack app]. rewrite <- E. reflexivity.
Qed.

Lemma plainStart_snoc (out tail : list ascii) :
  out <> [] -> plainStart out -> plainStart (tail ++ out).
Proof.
  intros N H c t E. rewrite rev_app_distr in E.
  destruct (rev out) as [|c' t'] eqn:R.
  - elim N. rewrite <- (rev_involutive out), R. reflexivity.
  - cbn [app] in E. injection E as <- _. apply (H c' t'). exact R.
Qed.

Lemma cleanStep_unrooted_plain (out : list ascii) (dotdot : nat) (e : str) :
  plainStart out -> noSlash e ->
  plainStart (fst (path.cleanStep false (out, dotdot) e)).
Proof.
  intros H He. unfold path.cleanStep.
  destruct (strings.eqb e "") eqn:E1; [exact H|].
  destruct (strings.eqb e ".") eqn:E2; [exact H|].
  destruct (strings.eqb e "..") eqn:E3.
  - destruct (dotdot <? length out)%nat.
    + cbn [fst]. destruct (backtrack_suffix dotdot out) as [d E].
      intros c t R. apply (H c (t ++ rev d)).
      rewrite E at 1. rewrite rev_app_distr, R. reflexivity.
    + cbn [negb fst]. destruct out as [|a out].
      * intros c t R. cbn in R. injection R as <- _. discriminate.
      * cbn [length Nat.ltb Nat.leb].
        change (path.dot :: path.dot :: path.slash :: a :: out)
          with ([path.dot; path.dot; path.slash] ++ a :: out).
        apply plainStart_snoc; [discriminate | exact H].
  - cbn [fst andb orb negb]. destruct out as [|a out].
    + cbn [length Nat.eqb negb]. rewrite app_nil_r. intros c t R.
      rewrite rev_involutive in R. subst e. intros ->.
      apply He. left; reflexivity.
    + cbn [length Nat.eqb negb].
      change (rev e ++ path.slash :: a :: out)
        with (rev e ++ [path.slash] ++ a :: out).
      rewrite app_assoc. apply plainStart_snoc; [discriminate | exact H].
Qed.

Lemma fold_cleanStep_unrooted_plain (elems : list str) :
  forall out dotdot,
    Forall noSlash elems -> plainStart out ->
    plainStart (fst (fold_left (path.cleanStep false) elems (out, dotdot))).
Proof.
  induction elems as [|e elems IH]; intros out dotdot Hel H; [exact H|].
  inversion Hel as [|? ? He Hel']; subst. cbn [fold_left].
  pose proof (cleanStep_unrooted_plain out dotdot e H He) as P.
  destruct (path.cleanStep false (out, dotdot) e) as [out' dotdot'].
  apply IH; assumption.
Qed.

(** [path.Clean] of a path that begins with another byte than a slash is not
    empty and does not begin with a slash. *)
Lemma Clean_unrooted_plain (c : ascii) (rest : str) :
  c <> path.slash ->
  exists c' t, path.Clean (c :: rest) = c' :: t /\ c' <> path.slash.
Proof.
  intros Hc. rewrite Clean_unrooted_unfold by exact Hc.
  pose proof (fold_cleanStep_unrooted_plain
                (strings.Split (c :: rest) path.slash) [] 0%nat
                (Split_noSep _ _)) as P.
  destruct (fold_left (path.cleanStep false) (strings.Split (c :: rest) path.slash)
                      ([], 0%nat)) as [out d].
  cbn [fst] in P. destruct out as [|a out].
  - exists path.dot, []. split; [reflexivity | discriminate].
  - assert (Q : plainStart (a :: out)) by (apply P; intros x t R; discriminate R).
    destruct (rev (a :: out)) as [|c' t] eqn:R.
    + apply (f_equal (@rev ascii)) in R. rewrite rev_involutive in R. discriminate.
    + exists c', t. split; [reflexivity | exact (Q c' t R)].
Qed.

(* ================================================================= *)
(** ** Path resolution: what the functions return *)

Lemma Split_app (a b : str) (sep : ascii) :
  strings.Split (a ++ sep :: b) sep = strings.Split a sep ++ strings.Split b sep.
Proof.
  induction a as [|c a IH]; cbn [app strings.Split].
  - rewrite Ascii.eqb_refl. reflexivity.
  - destruct (Ascii.eqb c sep); rewrite IH; [reflexivity|].
    pose proof (Split_nonempty a sep) as N.
    destruct (strings.Split a sep); [congruence | reflexivity].
Qed.

(** A slash at the end of a rooted path changes nothing for [path.Clean]. *)
Lemma Clean_rooted_trailing_slash (rest : str) :
  path.Clean (path.slash :: rest ++ [path.slash]) = path.Clean (path.slash :: rest).
Proof.
  rewrite !Clean_rooted_unfold. rewrite Split_app, fold_left_app.
  cbn [strings.Split fold_left].
  destruct (fold_left (path.cleanStep true) (strings.Split rest path.slash)
                      (rootedBuf [], 1%nat)) as [out d].
  reflexivity.
Qed.

Lemma ReplaceAllByte_gone (s : str) (old new : ascii) :
  old <> new -> ~ In old (strings.ReplaceAllByte s old new).
Proof.
  intros N I. unfold strings.ReplaceAllByte in I. apply in_map_iff in I.
  destruct I as [x [E _]]. destruct (Ascii.eqb_spec x old); congruence.
Qed.

Lemma ReplaceAllByte_absent (s : str) (old new : ascii) :
  ~ In old s -> strings.ReplaceAllByte s old new = s.
Proof.
  induction s as [|c s IH]; intros H; [reflexivity|].
  cbn [strings.ReplaceAllByte map].
  destruct (Ascii.eqb_spec c old) as [->|N].
  - elim H. left; reflexivity.
  - f_equal. apply IH. intros I. apply H. right; exact I.
Qed.

(** [FixAndCleanPath] as [path.Clean] of a rooted path with no backslash. *)
Lemma FixAndCleanPath_rooted (p : str) :
  exists rest, ~ In backslash rest
               /\ FixAndCleanPath p = path.Clean (path.slash :: rest).
Proof.
  unfold FixAndCleanPath.
  pose proof (ReplaceAllByte_gone p backslash path.slash ltac:(discriminate)) as G.
  change (strings.ReplaceAllByte p "\" "/")
    with (strings.ReplaceAllByte p backslash path.slash).
  destruct (strings.HasPrefix (strings.ReplaceAllByte p backslash path.slash) "/") eqn:E.
  - destruct (rooted_cons _ E) as [rest R]. exists rest. cbn [negb]. rewrite R in *.
    split; [intros I; apply G; right; exact I | reflexivity].
  - exists (strings.ReplaceAllByte p backslash path.slash). split; [exact G | reflexivity].
Qed.

(** X1.  Whatever its argument, [FixAndCleanPath] returns a normalized path:
    it begins with a slash, [path.Clean] leaves it unchanged, it holds no
    backslash, and it is the root slash followed by path elements, none
    empty, [.] or [..], glued with single slashes. *)
Theorem X1_FixAndCleanPath_normalized (p : str) :
  NormalizedFilePath (FixAndCleanPath p)
  /\ ~ In backslash (FixAndCleanPath p)
  /\ exists es, Forall realElem es /\ FixAndCleanPath p = "/" ++ joinElems es.
Proof.
  destruct (FixAndCleanPath_rooted p) as [rest [Hb E]]. rewrite E.
  split; [apply Clean_rooted_normalized | split].
  - intros I. apply Clean_rooted_bytes in I. destruct I as [I|I]; [discriminate I | auto].
  - destruct (Clean_rooted_shape rest) as [es [Hes S]]. exists es. split; assumption.
Qed.

(** [path.Join] of two rooted paths made of real elements is the rooted path
    of the elements of both. *)
Lemma Join_rooted (bs xs : list str) :
  Forall realElem bs -> Forall realElem xs ->
  path.Join [path.slash :: joinElems bs; path.slash :: joinElems xs]
  = path.slash :: joinElems (bs ++ xs).
Proof.
  intros Hb Hx. unfold path.Join. cbn [fold_left length Nat.add Nat.eqb].
  cbn [path.joinNonEmpty length Nat.ltb Nat.leb orb strings.eqb negb
       go list_ascii_of_string app].
  rewrite Clean_rooted_unfold.
  assert (S : exists slashes,
             Forall (fun e => e = []) slashes
             /\ strings.Split (joinElems bs ++ [path.slash] ++ path.slash :: joinElems xs)
                              path.slash
                = bs ++ slashes ++ strings.Split (joinElems xs) path.slash).
  { destruct bs as [|b bs].
    - exists [[]; []]. split; [repeat constructor|].
      cbn [joinElems app strings.Split]. rewrite !Ascii.eqb_refl. reflexivity.
    - exists [[]]. split; [repeat constructor|].
      cbn [app]. rewrite Split_joinElems_then by (assumption || discriminate).
      cbn [strings.Split]. rewrite Ascii.eqb_refl. reflexivity. }
  destruct S as [slashes [Hs S]].
  replace ((joinElems bs ++ [path.slash]) ++ path.slash :: joinElems xs)
    with (joinElems bs ++ [path.slash] ++ path.slash :: joinElems xs)
    by (rewrite <- app_assoc; reflexivity).
  rewrite S.
  destruct (kept_Split_joinElems xs Hx) as [K N].
  assert (F : filter keptElem
                (bs ++ slashes ++ strings.Split (joinElems xs) path.slash)
              = bs ++ xs).
  { rewrite !filter_app.
    apply (f_equal2 (@app str)); [apply filter_kept_real; exact Hb|].
    change xs with ([] ++ xs) at 2.
    apply (f_equal2 (@app str)); [|exact K].
    apply filter_none. intros e I.
    rewrite (proj1 (Forall_forall _ _) Hs e I). reflexivity. }
  rewrite (fold_cleanStep_rooted_kept _ []).
  - cbn [fst]. rewrite rev_rootedBuf, app_nil_r, rev_involutive.
    f_equal. f_equal. exact F.
  - apply Forall_app. split; [apply real_nodotdot; exact Hb|].
    apply Forall_app. split; [|exact N].
    eapply Forall_impl; [|exact Hs]. intros e ->. split; [intros [] | discriminate].
  - constructor.
Qed.

Lemma FixAndCleanPath_shape (p : str) :
  exists es, Forall realElem es /\ FixAndCleanPath p = path.slash :: joinElems es.
Proof.
  destruct (FixAndCleanPath_rooted p) as [rest [_ E]]. rewrite E.
  apply Clean_rooted_shape.
Qed.

(** X2.  [JoinBasePath] either refuses the request path or returns the
    elements of the sanitized base path followed by the elements of the
    sanitized request path: the result never leaves the base.  With the
    empty base path, which is what the handlers pass, the result is the
    sanitized request path. *)
Theorem X2_JoinBasePath_stays_under_base (base p : str) :
  JoinBasePath base p = inl ErrRelativePath
  \/ (exists bs xs,
         Forall realElem bs /\ Forall realElem xs
         /\ FixAndCleanPath base = "/" ++ joinElems bs
         /\ FixAndCleanPath p = "/" ++ joinElems xs
         /\ JoinBasePath base p = inr ("/" ++ joinElems (bs ++ xs))
         /\ JoinBasePath "" p = inr (FixAndCleanPath p)).
Proof.
  destruct (FixAndCleanPath_shape base) as [bs [Hbs Eb]].
  destruct (FixAndCleanPath_shape p) as [xs [Hxs Ex]].
  unfold JoinBasePath.
  destruct (strings.eqb p ".." || strings.HasSuffix p "/.."
            || strings.HasPrefix p "../" || strings.Contains p "/../");
    [left; reflexivity | right].
  exists bs, xs. repeat split; try assumption.
  - rewrite Eb, Ex. f_equal. apply Join_rooted; assumption.
  - f_equal. rewrite Ex.
    change (FixAndCleanPath "") with (path.slash :: joinElems []).
    rewrite Join_rooted by (assumption || constructor). reflexivity.
Qed.

Lemma handerReqPath_rooted_result (p : str) :
  strings.HasPrefix p "/" = true ->
  (if strings.eqb p "/" then go "/" else path.Clean (p ++ "/")) = path.Clean p.
Proof.
  intros H. destruct (rooted_cons p H) as [rest ->].
  destruct (strings.eqb (path.slash :: rest) "/") eqn:E.
  - apply eqb_eq in E. rewrite E. reflexivity.
  - change ((path.slash :: rest) ++ go "/") with (path.slash :: rest ++ [path.slash]).
    apply Clean_rooted_trailing_slash.
Qed.

(** X3.  On a raw path that begins with a slash and is not refused,
    [handerReqPath] returns [path.Clean] of the raw path, which is a
    normalized path, followed by a slash when a directory is wanted and the
    path is not the root.  When the raw path holds no backslash this is the
    path that [FixAndCleanPath] computes. *)
Theorem X3_handerReqPath_rooted (p : str) (isDir : bool) :
  strings.HasPrefix p "/" = true -> ~ escapesRoot p ->
  NormalizedFilePath (path.Clean p)
  /\ handerReqPath p isDir
     = inr (if isDir && negb (strings.eqb (path.Clean p) "/")
            then path.Clean p ++ "/" else path.Clean p)
  /\ (~ In backslash p -> path.Clean p = FixAndCleanPath p).
Proof.
  intros H N. split; [|split].
  - destruct (rooted_cons p H) as [rest ->]. apply Clean_rooted_normalized.
  - rewrite (handerReqPath_returns p isDir N). cbv zeta.
    rewrite (handerReqPath_rooted_result p H). reflexivity.
  - intros B. unfold FixAndCleanPath.
    change (strings.ReplaceAllByte p "\" "/")
      with (strings.ReplaceAllByte p backslash path.slash).
    rewrite (ReplaceAllByte_absent p backslash path.slash B), H. reflexivity.
Qed.

Lemma not_escapes_example : ~ escapesRoot "/a/./b//c".
Proof.
  intros H. apply (JoinBasePath_denied "") in H. discriminate H.
Qed.

Lemma X3_handerReqPath_rooted_witness :
  NormalizedFilePath (path.Clean "/a/./b//c")
  /\ handerReqPath "/a/./b//c" true
     = inr (if true && negb (strings.eqb (path.Clean "/a/./b//c") "/")
            then path.Clean "/a/./b//c" ++ "/" else path.Clean "/a/./b//c")
  /\ (~ In backslash (go "/a/./b//c") -> path.Clean "/a/./b//c" = FixAndCleanPath "/a/./b//c").
Proof.
  apply (X3_handerReqPath_rooted "/a/./b//c" true).
  - reflexivity.
  - exact not_escapes_example.
Defined.

Lemma handerReqPath_unrooted_result (p : str) (isDir : bool) :
  p <> [] -> unrooted p -> ~ escapesRoot p ->
  exists q, handerReqPath p isDir = inr q /\ unrooted q.
Proof.
  intros Hne Hu N. rewrite (handerReqPath_returns p isDir N). cbv zeta.
  destruct p as [|c s]; [congruence|].
  assert (Hc : c <> path.slash).
  { intros ->. unfold unrooted in Hu. discriminate Hu. }
  assert (E : strings.eqb (c :: s) "/" = false).
  { apply eqb_neq. intros E. injection E as -> _. apply Hc. reflexivity. }
  rewrite E.
  destruct (Clean_unrooted_plain c (s ++ "/") Hc) as [c' [t [C Hc']]].
  change ((c :: s) ++ go "/") with (c :: s ++ go "/"). rewrite C.
  eexists. split; [reflexivity|].
  apply Ascii.eqb_neq in Hc'. unfold path.slash in Hc'. unfold unrooted.
  destruct (isDir && negb (strings.eqb (c' :: t) "/"));
    cbn [app strings.HasPrefix go list_ascii_of_string]; rewrite Hc'; reflexivity.
Qed.

(** X4.  On a raw path that is not empty, does not begin with a slash and is
    not refused, [handerReqPath] returns a path that does not begin with a
    slash either: the leading slash that [FixAndCleanPath] adds is lost. *)
Theorem X4_handerReqPath_unrooted (p : str) (isDir : bool) :
  p <> [] -> unrooted p -> ~ escapesRoot p ->
  exists q, handerReqPath p isDir = inr q /\ unrooted q.
Proof. apply handerReqPath_unrooted_result. Qed.

Lemma X4_handerReqPath_unrooted_witness :
  exists q, handerReqPath "a/b.txt" false = inr q /\ unrooted q.
Proof.
  apply (X4_handerReqPath_unrooted "a/b.txt" false).
  - discriminate.
  - reflexivity.
  - intros H. apply (JoinBasePath_denied "") in H. discriminate H.
Defined.

(* ================================================================= *)
(** ** The file filter on any path *)

(** Whatever the path looked for, the file filter only collects files at
    that path, in the order of the archive, and the entry loop ends with no
    error. *)
Lemma extractLoop_FileFilter_sound (F : str) (es : list File) :
  forall skipDirs files i,
    exists added,
      mholt.extractLoop None (FileFilter F) skipDirs files i es
      = (files ++ added, None)
      /\ Forall (fun f => isFileAt F f /\ In f es) added.
Proof.
  induction es as [|f es IH]; intros skipDirs files i.
  - exists []. rewrite app_nil_r. split; [reflexivity | constructor].
  - assert (W : forall added,
               Forall (fun g => isFileAt F g /\ In g es) added ->
               Forall (fun g => isFileAt F g /\ In g (f :: es)) added).
    { intros added H. eapply Forall_impl; [|exact H].
      intros g [A B]. split; [exact A | right; exact B]. }
    cbn [mholt.extractLoop].
    change (fileIsIncluded None (NameInArchive f)) with true. cbn [negb].
    destruct (fileIsIncluded (Some skipDirs) (NameInArchive f)).
    + destruct (IH skipDirs files (i + 1)) as [added [E A]].
      exists added. split; [exact E | apply W; exact A].
    + unfold FileFilter at 1.
      destruct (IsDir f) eqn:D.
      * destruct (IH skipDirs files (i + 1)) as [added [E A]].
        exists added. split; [exact E | apply W; exact A].
      * cbv zeta.
        destruct (strings.HasPrefix F
                    ("/" ++ (if strings.eqb (path.Dir (NameInArchive f)) "."
                             then go "" else path.Dir (NameInArchive f)))).
        -- cbn [negb].
           destruct (strings.eqb F ("/" ++ NameInArchive f)) eqn:EQ.
           ++ destruct (IH skipDirs (files ++ [f]) (i + 1)) as [added [E A]].
              exists (f :: added). split.
              ** rewrite E, <- app_assoc. reflexivity.
              ** constructor; [|apply W; exact A].
                 split; [|left; reflexivity].
                 split; [exact D | symmetry; apply eqb_eq; exact EQ].
           ++ destruct (IH skipDirs files (i + 1)) as [added [E A]].
              exists added. split; [exact E | apply W; exact A].
        -- cbn [negb].
           match goal with
           | |- context [mholt.extractLoop None _ ?sk _ _ es] =>
               destruct (IH sk files (i + 1)) as [added [E A]]
           end.
           exists added. split; [exact E | apply W; exact A].
Qed.

(** X5.  Whatever path it is given, [ExtractFile] never returns a directory
    or an entry of another name: what it returns is an entry of the archive
    that is not a directory and whose anchored name is the path, with no
    error; the only error it returns is "file not found", with no entry. *)
Theorem X5_ExtractFile_sound (F : str) (es : list File) :
  (forall f err, ExtractFile (NewArchive es) F = (Some f, err) ->
                 err = None /\ In f es /\ IsDir f = false
                 /\ "/" ++ NameInArchive f = F)
  /\ (forall err, ExtractFile (NewArchive es) F = (None, err) ->
                  err = Some (errorString "file not found")).
Proof.
  unfold ExtractFile, mholt.Extract.
  cbn [fileHandlerFunc NewArchive sourceArchive pathsInArchive].
  destruct (extractLoop_FileFilter_sound F es [] [] 0) as [added [E A]].
  rewrite E. cbn [app]. destruct added as [|g added].
  - split; [intros f err H; discriminate H | intros err H; injection H as <-; reflexivity].
  - split; [|intros err H; discriminate H].
    intros f err H. injection H as <- <-.
    inversion A as [|? ? [[D N] I] _]; subst. auto.
Qed.

(** X6.  For a path that does not begin with a slash, [ExtractFile] finds
    nothing, whatever the archive holds. *)
Theorem X6_ExtractFile_unrooted_not_found (F : str) (es : list File) :
  unrooted F ->
  ExtractFile (NewArchive es) F = (None, Some (errorString "file not found")).
Proof.
  intros Hu. unfold ExtractFile, mholt.Extract.
  cbn [fileHandlerFunc NewArchive sourceArchive pathsInArchive].
  destruct (extractLoop_FileFilter_sound F es [] [] 0) as [added [E A]].
  rewrite E. cbn [app]. destruct added as [|g added]; [reflexivity|].
  inversion A as [|? ? [[_ N] _] _]; subst.
  unfold unrooted in Hu. discriminate Hu.
Qed.

Lemma X6_ExtractFile_unrooted_witness :
  ExtractFile (NewArchive exampleEntries) "a/b.txt"
  = (None, Some (errorString "file not found")).
Proof.
  apply (X6_ExtractFile_unrooted_not_found "a/b.txt" exampleEntries).
  reflexivity.
Defined.

(* ================================================================= *)
(** ** The directory filter and the cascade filter side by side *)

Lemma ExtractDirs_filter (P : str) (es : list File) :
  ExtractDirs (NewArchive es) P
  = (filter (fun f => dirCond (strings.TrimPrefix ("/" ++ NameInArchive f) P)) es,
     None).
Proof.
  unfold ExtractDirs, mholt.Extract.
  cbn [fileHandlerFunc NewArchive sourceArchive pathsInArchive].
  rewrite (extractLoop_appending None _ _ (DirFilter_appends P)). reflexivity.
Qed.

Lemma CascadeExtractDirs_filter (d : str) (es : list File) :
  CascadeExtractDirs (NewArchive es) ("/" ++ d ++ "/")
  = (filter (fun f => fileIsIncluded (Some [d ++ "/"]) (NameInArchive f)) es, None).
Proof.
  unfold CascadeExtractDirs, mholt.Extract.
  assert (E : strings.eqb ("/" ++ d ++ "/") "/" = false).
  { apply eqb_neq. destruct d; discriminate. }
  rewrite E.
  change (strings.TrimPrefix ("/" ++ d ++ "/") "/") with (d ++ "/").
  cbn [negb fileHandlerFunc NewArchive sourceArchive].
  rewrite (extractLoop_appending _ _ (fun _ => true) NoFilter_appends). simpl app.
  f_equal. apply filter_ext. intros f. apply andb_true_r.
Qed.

Lemma dirCond_anchored (name : str) :
  dirCond ("/" ++ name) = strings.eqb name "".
Proof.
  destruct (strings.eqb name "") eqn:E.
  - apply eqb_eq in E. subst name. reflexivity.
  - destruct (dirCond ("/" ++ name)) eqn:D; [|reflexivity].
    apply dirCond_iff, directChildName_anchored in D.
    apply eqb_neq in E. contradiction.
Qed.

(** X7.  For a directory path that does not begin with a slash,
    [ExtractDirs] lists no named entry: it returns exactly the entries whose
    name is empty, since no anchored name starts with such a path. *)
Theorem X7_ExtractDirs_unrooted (P : str) (es : list File) :
  unrooted P ->
  ExtractDirs (NewArchive es) P
  = (filter (fun f => strings.eqb (NameInArchive f) "") es, None).
Proof.
  intros Hu. rewrite ExtractDirs_filter. f_equal. apply filter_ext. intros f.
  rewrite <- dirCond_anchored. f_equal.
  unfold strings.TrimPrefix.
  destruct P as [|c P]; [reflexivity|].
  unfold unrooted in Hu. cbn [strings.HasPrefix go list_ascii_of_string] in Hu.
  cbn [app strings.HasPrefix go list_ascii_of_string].
  rewrite Ascii.eqb_sym.
  destruct (Ascii.eqb c "/"); [|reflexivity].
  destruct P; discriminate Hu.
Qed.

Lemma X7_ExtractDirs_unrooted_witness :
  ExtractDirs (NewArchive exampleEntries) "a/"
  = (filter (fun f => strings.eqb (NameInArchive f) "") exampleEntries, None).
Proof.
  apply (X7_ExtractDirs_unrooted "a/" exampleEntries). reflexivity.
Defined.

(** X8.  Every entry with a name that the directory filter lists for a
    directory is also in the cascade listing of that directory. *)
Theorem X8_ExtractDirs_within_cascade (d : str) (es : list File) (f : File) :
  In f (fst (ExtractDirs (NewArchive es) ("/" ++ d ++ "/"))) ->
  NameInArchive f <> [] ->
  In f (fst (CascadeExtractDirs (NewArchive es) ("/" ++ d ++ "/"))).
Proof.
  rewrite ExtractDirs_filter, CascadeExtractDirs_filter. cbn [fst].
  rewrite !filter_In. intros [I D] N. split; [exact I|].
  apply DirectChild_iff in D. apply (DirectChild_below _ _ N) in D.
  destruct D as [r [E _]]. apply fileIsIncluded_dir. exists r.
  simpl in E. rewrite <- app_assoc in E. injection E; auto.
Qed.

Lemma X8_ExtractDirs_within_cascade_witness :
  In (entry "a/b.txt" false)
     (fst (CascadeExtractDirs (NewArchive exampleEntries) ("/" ++ go "a" ++ "/"))).
Proof.
  apply (X8_ExtractDirs_within_cascade "a" exampleEntries (entry "a/b.txt" false)).
  - left; reflexivity.
  - discriminate.
Defined.

(* ================================================================= *)
(** ** Pagination: what is returned when it returns *)

Lemma wrap64_range (z : Z) : isInt64 (wrap64 z).
Proof.
  unfold isInt64, minInt64, maxInt64, wrap64.
  pose proof (Z.mod_pos_bound (z + 2 ^ 63) (2 ^ 64) ltac:(lia)). lia.
Qed.

Lemma wrap64_over (z : Z) :
  maxInt64 < z < 2 ^ 64 -> wrap64 z = z - 2 ^ 64.
Proof.
  unfold maxInt64, wrap64. intros H.
  assert (E : (z + 2 ^ 63) mod 2 ^ 64 = z + 2 ^ 63 - 2 ^ 64)
    by (symmetry; apply (Z.mod_unique _ _ 1); lia).
  rewrite E. lia.
Qed.

(** X9.  Where [(page-1)*perPage + perPage] (after the defaults for
    non-positive arguments) fits in 64 bits, [pagination] returns the
    length of the list and the items at the indices
    [[start, min(start+perPage, total))] for [start = (page-1)*perPage],
    none when [start] is beyond the total. *)
Theorem X9_pagination_window (T : Type) (objs : list T) (page perPage : Z) :
  ((if page <=? 0 then 1 else page) - 1) * (if perPage <=? 0 then 10 else perPage)
  + (if perPage <=? 0 then 10 else perPage) <= maxInt64 ->
  pagination objs {| Page := page; PerPage := perPage |}
  = Returns
      (Z.of_nat (length objs),
       let pageSize := if perPage <=? 0 then 10 else perPage in
       let start := ((if page <=? 0 then 1 else page) - 1) * pageSize in
       if Z.of_nat (length objs) <? start then []
       else firstn (Z.to_nat (Z.min (start + pageSize) (Z.of_nat (length objs)) - start))
                   (skipn (Z.to_nat start) objs)).
Proof. intros H. apply (pagination_in_range T objs page perPage H). Qed.

Lemma X9_pagination_window_witness :
  pagination [1; 2; 3; 4; 5] {| Page := 2; PerPage := 2 |} = Returns (5, [3; 4]).
Proof.
  apply (X9_pagination_window Z [1; 2; 3; 4; 5] 2 2). unfold maxInt64. simpl. lia.
Defined.

(** X10.  Whatever the page and the page size, when [pagination] returns
    (it does not panic) the total is the length of the list, the window is
    a run of consecutive items of the list, in their order, and it holds at
    most [perPage] items (10 for a non-positive [perPage]). *)
Theorem X10_pagination_window_bounded (T : Type) (objs : list T) (req : PageReq)
        (total : Z) (window : list T) :
  isInt64 (Page req) -> isInt64 (PerPage req) ->
  pagination objs req = Returns (total, window) ->
  total = Z.of_nat (length objs)
  /\ Z.of_nat (length window) <= (if PerPage req <=? 0 then 10 else PerPage req)
  /\ exists before after, objs = before ++ window ++ after.
Proof.
  unfold isInt64, minInt64, maxInt64. intros HP HS. unfold pagination.
  set (pageIndex := if Page req <=? 0 then 1 else Page req).
  set (pageSize := if PerPage req <=? 0 then 10 else PerPage req).
  assert (H2 : 1 <= pageSize <= 2 ^ 63 - 1)
    by (subst pageSize; destruct (Z.leb_spec (PerPage req) 0); lia).
  set (start := wrap64 (wrap64 (pageIndex - 1) * pageSize)).
  pose proof (wrap64_range (wrap64 (pageIndex - 1) * pageSize)) as Hst.
  fold start in Hst. unfold isInt64, minInt64, maxInt64 in Hst.
  destruct (Z.ltb_spec (Z.of_nat (length objs)) start) as [Hlt|Hge].
  - intros E. injection E as <- <-. split; [reflexivity|]. split; [simpl; lia|].
    exists [], objs. reflexivity.
  - unfold sliceExpr.
    set (end_ := if Z.of_nat (length objs) <? wrap64 (start + pageSize)
                 then Z.of_nat (length objs) else wrap64 (start + pageSize)).
    destruct ((0 <=? start) && (start <=? end_) && (end_ <=? Z.of_nat (length objs)))
             eqn:C; [|discriminate].
    rewrite !andb_true_iff, !Z.leb_le in C. destruct C as [[C0 C1] C2].
    intros E. injection E as <- <-. split; [reflexivity|].
    assert (B : end_ - start <= pageSize).
    { subst end_.
      destruct (Z.ltb_spec (Z.of_nat (length objs)) (wrap64 (start + pageSize)))
        as [L|L].
      - destruct (Z_le_gt_dec (start + pageSize) (2 ^ 63 - 1)) as [F|F].
        + rewrite wrap64_id in L by (unfold isInt64, minInt64, maxInt64; lia). lia.
        + rewrite wrap64_over in L by (unfold maxInt64; lia). lia.
      - destruct (Z_le_gt_dec (start + pageSize) (2 ^ 63 - 1)) as [F|F].
        + rewrite wrap64_id in C1 |- * by (unfold isInt64, minInt64, maxInt64; lia). lia.
        + rewrite wrap64_over in C1 by (unfold maxInt64; lia). lia. }
    split.
    + rewrite length_firstn. lia.
    + exists (firstn (Z.to_nat start) objs),
             (skipn (Z.to_nat (end_ - start)) (skipn (Z.to_nat start) objs)).
      rewrite firstn_skipn, firstn_skipn. reflexivity.
Qed.

Lemma X10_pagination_window_bounded_witness :
  5 = Z.of_nat (length [1; 2; 3; 4; 5])
  /\ Z.of_nat (length [3; 4]) <= (if 2 <=? 0 then 10 else 2)
  /\ exists before after, [1; 2; 3; 4; 5] = before ++ [3; 4] ++ after.
Proof.
  apply (X10_pagination_window_bounded Z [1; 2; 3; 4; 5]
           {| Page := 2; PerPage := 2 |} 5 [3; 4]).
  - unfold isInt64, minInt64, maxInt64. simpl. lia.
  - unfold isInt64, minInt64, maxInt64. simpl. lia.
  - reflexivity.
Defined.

Lemma firstn_min_length (A : Type) (n : nat) (l : list A) :
  firstn (Nat.min n (length l)) l = firstn n l.
Proof.
  destruct (Nat.le_gt_cases n (length l)) as [H|H].
  - rewrite Nat.min_l by exact H. reflexivity.
  - rewrite Nat.min_r by lia. rewrite firstn_all, firstn_all2 by lia. reflexivity.
Qed.

(** Cutting a list into [k] consecutive pieces of [n] items loses nothing
    when [k * n] reaches its length. *)
Lemma concat_chunks (A : Type) (n : nat) :
  (0 < n)%nat ->
  forall (k : nat) (l : list A),
    (length l <= k * n)%nat ->
    concat (map (fun i => firstn n (skipn ((i - 1) * n) l)) (seq 1 k)) = l.
Proof.
  intros Hn. induction k as [|k IH]; intros l H.
  - destruct l; [reflexivity | simpl in H; lia].
  - cbn [seq map concat]. cbn [Nat.sub Nat.mul skipn].
    rewrite <- seq_shift, map_map.
    rewrite (map_ext_in _ (fun i => firstn n (skipn ((i - 1) * n) (skipn n l)))).
    + rewrite IH by (rewrite length_skipn; lia). apply firstn_skipn.
    + intros i I. apply in_seq in I. rewrite skipn_skipn. f_equal. f_equal.
      destruct i as [|j]; [lia|]. cbn [Nat.sub]. rewrite Nat.sub_0_r. cbn [Nat.mul]. lia.
Qed.

Lemma pageWindow_chunk (T : Type) (objs : list T) (perPage : Z) (i : nat) :
  0 < perPage -> (1 <= i)%nat -> Z.of_nat i * perPage <= maxInt64 ->
  pageWindow objs (Z.of_nat i) perPage
  = firstn (Z.to_nat perPage) (skipn ((i - 1) * Z.to_nat perPage) objs).
Proof.
  intros Hp Hi Hfit. unfold pageWindow.
  pose proof (pagination_in_range T objs (Z.of_nat i) perPage) as P.
  cbv zeta in P.
  replace (Z.of_nat i <=? 0) with false in P by (symmetry; apply Z.leb_gt; lia).
  replace (perPage <=? 0) with false in P by (symmetry; apply Z.leb_gt; lia).
  rewrite P by lia. clear P.
  assert (S : Z.to_nat ((Z.of_nat i - 1) * perPage) = ((i - 1) * Z.to_nat perPage)%nat).
  { rewrite Z2Nat.inj_mul by lia. f_equal. lia. }
  rewrite S.
  assert (Hs : 0 <= (Z.of_nat i - 1) * perPage) by nia.
  revert S Hs. generalize ((Z.of_nat i - 1) * perPage). intros s S Hs.
  destruct (Z.ltb_spec (Z.of_nat (length objs)) s) as [L|L].
  - rewrite skipn_all2; [destruct (Z.to_nat perPage); reflexivity|].
    rewrite <- S. lia.
  - rewrite <- (firstn_min_length _ (Z.to_nat perPage)). f_equal.
    rewrite length_skipn, <- S. lia.
Qed.

(** X11.  The pages tile the list: for a positive page size, the windows of
    the pages 1 to [k], one after the other, are the whole list, as soon as
    [k] pages reach its length (and [k * perPage] fits in 64 bits).  No item
    is lost, repeated or reordered. *)
Theorem X11_pagination_pages_tile (T : Type) (objs : list T) (perPage : Z) (k : nat) :
  0 < perPage ->
  Z.of_nat (length objs) <= Z.of_nat k * perPage ->
  Z.of_nat k * perPage <= maxInt64 ->
  concat (map (fun i => pageWindow objs (Z.of_nat i) perPage) (seq 1 k)) = objs.
Proof.
  intros Hp Hk Hfit.
  rewrite (map_ext_in _ (fun i => firstn (Z.to_nat perPage)
                                         (skipn ((i - 1) * Z.to_nat perPage) objs))).
  - apply concat_chunks; [lia|]. nia.
  - intros i I. apply in_seq in I. apply pageWindow_chunk; [exact Hp | lia | nia].
Qed.

Lemma X11_pagination_pages_tile_witness :
  concat (map (fun i => pageWindow [1; 2; 3; 4; 5] (Z.of_nat i) 2) (seq 1 3))
  = [1; 2; 3; 4; 5].
Proof.
  apply (X11_pagination_pages_tile Z [1; 2; 3; 4; 5] 2 3).
  - lia.
  - simpl. lia.
  - unfold maxInt64. simpl. lia.
Defined.

(* ================================================================= *)
(** ** Range parsing: what is accepted and what comes out *)

Lemma parseRangeSpecs_valid (rangeSpecs : list str) (S : Z) :
  forall ranges result,
    parseRangeSpecs rangeSpecs S ranges = inr result ->
    exists added, result = ranges ++ added
                  /\ length added = length rangeSpecs
                  /\ Forall (validRange S) added.
Proof.
  induction rangeSpecs as [|sp rest IH]; intros ranges result; cbn [parseRangeSpecs].
  - intros E. injection E as <-. exists []. rewrite app_nil_r.
    repeat split. constructor.
  - destruct (parseRangeSpec sp S) as [e|rg] eqn:P; [discriminate|].
    intros E. apply IH in E. destruct E as [added [-> [L V]]].
    exists (rg :: added). rewrite <- app_assoc. repeat split.
    + simpl. lia.
    + constructor; [|exact V].
      apply parseRangeSpec_ok in P. destruct P as [p0 [p1 [_ [-> B]]]]. exact B.
Qed.

(** X12.  Whatever the header and the size [S], [parseRangeHeader] either
    fails with the error "Invalid Range Header" or returns at least one
    range, and every range it returns has [Start <= End], [Start < S] and
    [End < S]. *)
Theorem X12_parseRangeHeader_postcondition (header : str) (S : Z) :
  match parseRangeHeader header S with
  | inl e => e = ErrInvalidRange
  | inr ranges => ranges <> [] /\ Forall (validRange S) ranges
  end.
Proof.
  destruct (parseRangeHeader header S) as [e|ranges] eqn:P.
  - eapply parseRangeHeader_error; eassumption.
  - unfold parseRangeHeader in P.
    destruct (matchRangePattern header) as [group|]; [|discriminate].
    apply parseRangeSpecs_valid in P. destruct P as [added [-> [L V]]].
    split; [|exact V].
    pose proof (Split_nonempty group ",") as N.
    destruct (strings.Split group ","); [congruence|].
    destruct added; [discriminate L | discriminate].
Qed.

Lemma rangeChar_plain (c : ascii) :
  rangeChar c ->
  isRegexpSpace c = false /\ Ascii.eqb (ascii_of_nat 10) c = false
  /\ c <> ","%char.
Proof.
  intros [H| ->]; [|repeat split; discriminate].
  destruct (digit_plain c H) as [A [B [C _]]]. repeat split; assumption.
Qed.

(** What follows [bytes=] is the group of the pattern when it is made of
    digits and dashes. *)
Lemma matchRangePattern_plain (s : str) :
  Forall rangeChar s -> matchRangePattern ("bytes=" ++ s) = Some s.
Proof.
  intros H. unfold matchRangePattern.
  cbn [app go list_ascii_of_string skipSpaces].
  change (isRegexpSpace "b") with false. cbv iota.
  change (strings.HasPrefix ("b" :: "y" :: "t" :: "e" :: "s" :: "=" :: s)%char "bytes")
    with true. cbv iota.
  cbn [skipn skipSpaces]. change (isRegexpSpace "=") with false. cbv iota.
  rewrite Ascii.eqb_refl.
  assert (K : skipSpaces s = s).
  { destruct H as [|c t Hc _]; [reflexivity|].
    cbn [skipSpaces]. destruct (rangeChar_plain c Hc) as [E _]. rewrite E. reflexivity. }
  rewrite K.
  assert (L : existsb (Ascii.eqb (ascii_of_nat 10)) s = false).
  { clear K. induction H as [|c t Hc _ IH]; [reflexivity|].
    cbn [existsb]. destruct (rangeChar_plain c Hc) as [_ [E _]]. rewrite E, IH.
    reflexivity. }
  rewrite L. reflexivity.
Qed.

Lemma rangeChars_one_spec (s : str) :
  Forall rangeChar s -> strings.Split s "," = [s].
Proof.
  intros H. apply Split_single. intros I.
  destruct (rangeChar_plain _ (proj1 (Forall_forall _ _) H _ I)) as [_ [_ N]].
  apply N. reflexivity.
Qed.

Lemma FormatInt_digits (n : Z) :
  0 <= n -> allDigits (strconv.FormatInt n) /\ strconv.FormatInt n <> [].
Proof.
  intros H. unfold strconv.FormatInt.
  replace (n <? 0) with false by (symmetry; apply Z.ltb_ge; lia). split.
  - apply formatBits_digits; [lia | constructor].
  - apply formatBits_nonempty. left; discriminate.
Qed.

Lemma digits_rangeChars (s : str) : allDigits s -> Forall rangeChar s.
Proof. intros H. eapply Forall_impl; [|exact H]. intros c I. left; exact I. Qed.

Lemma digits_no_dash (s : str) : allDigits s -> ~ In "-"%char s.
Proof. intros H. apply digits_no_byte; [exact H|]. intros I. each_digit I; discriminate. Qed.

(** The header made of a first number, a dash and what follows. *)
Lemma parseRangeHeader_two_parts (a : Z) (part1 : str) (S : Z) :
  0 <= a -> allDigits part1 ->
  parseRangeHeader ("bytes=" ++ strconv.FormatInt a ++ "-" ++ part1) S
  = parseRangeSpecs [strconv.FormatInt a ++ "-" ++ part1] S []
  /\ strings.Split (strconv.FormatInt a ++ "-" ++ part1) "-"
     = [strconv.FormatInt a; part1].
Proof.
  intros Ha H1. destruct (FormatInt_digits a Ha) as [D0 _].
  assert (R : Forall rangeChar (strconv.FormatInt a ++ "-" ++ part1)).
  { apply Forall_app. split; [apply digits_rangeChars; exact D0|].
    constructor; [right; reflexivity | apply digits_rangeChars; exact H1]. }
  split.
  - unfold parseRangeHeader. rewrite (matchRangePattern_plain _ R).
    rewrite (rangeChars_one_spec _ R). reflexivity.
  - change (strconv.FormatInt a ++ go "-" ++ part1)
      with (strconv.FormatInt a ++ "-"%char :: part1).
    rewrite Split_piece by (apply digits_no_dash; exact D0).
    rewrite Split_single by (apply digits_no_dash; exact H1). reflexivity.
Qed.

Lemma parse_closed_range (a b S : Z) :
  0 <= a <= maxInt64 -> 0 <= b <= maxInt64 ->
  parseRangeHeader ("bytes=" ++ strconv.FormatInt a ++ "-" ++ strconv.FormatInt b) S
  = if (a <=? b) && (b <? S) then inr [{| Start := a; End_ := b |}]
    else inl ErrInvalidRange.
Proof.
  intros Ha Hb.
  destruct (FormatInt_digits a (proj1 Ha)) as [_ Na].
  destruct (FormatInt_digits b (proj1 Hb)) as [Db Nb].
  destruct (parseRangeHeader_two_parts a (strconv.FormatInt b) S (proj1 Ha) Db)
    as [P Sp].
  rewrite P. cbn [parseRangeSpecs]. unfold parseRangeSpec. rewrite Sp.
  unfold rangeBounds.
  replace (strings.eqb (strconv.FormatInt a) "") with false
    by (symmetry; apply eqb_neq; exact Na).
  replace (strings.eqb (strconv.FormatInt b) "") with false
    by (symmetry; apply eqb_neq; exact Nb).
  rewrite !toInt64_FormatInt by assumption.
  destruct (Z.leb_spec a b), (Z.ltb_spec b S), (Z.ltb_spec b a),
           (Z.leb_spec S a), (Z.leb_spec S b); try lia; reflexivity.
Qed.

(** X13.  For non-negative [a] and [b] printed in decimal, the header
    [bytes=a-b] over a file of [S] bytes is accepted exactly when
    [a <= b < S], and then yields the one range from [a] to [b]; otherwise
    the error is "Invalid Range Header". *)
Theorem X13_parseRangeHeader_closed_range (a b S : Z) :
  0 <= a <= maxInt64 -> 0 <= b <= maxInt64 ->
  parseRangeHeader ("bytes=" ++ strconv.FormatInt a ++ "-" ++ strconv.FormatInt b) S
  = if (a <=? b) && (b <? S) then inr [{| Start := a; End_ := b |}]
    else inl ErrInvalidRange.
Proof. apply parse_closed_range. Qed.

Lemma X13_parseRangeHeader_closed_range_witness :
  parseRangeHeader ("bytes=" ++ strconv.FormatInt 0 ++ "-" ++ strconv.FormatInt 99) 1000
  = if (0 <=? 99) && (99 <? 1000) then inr [{| Start := 0; End_ := 99 |}]
    else inl ErrInvalidRange.
Proof.
  apply (X13_parseRangeHeader_closed_range 0 99 1000); unfold maxInt64; lia.
Defined.

(** X14.  For a non-negative [a] printed in decimal and a size [S] of a
    file, the open-ended header [bytes=a-] is accepted exactly when
    [a < S], and then yields the one range from [a] to the last byte
    [S-1]. *)
Theorem X14_parseRangeHeader_open_range (a S : Z) :
  0 <= a <= maxInt64 -> 0 <= S <= maxInt64 ->
  parseRangeHeader ("bytes=" ++ strconv.FormatInt a ++ "-") S
  = if a <? S then inr [{| Start := a; End_ := S - 1 |}]
    else inl ErrInvalidRange.
Proof.
  intros Ha HS.
  destruct (FormatInt_digits a (proj1 Ha)) as [_ Na].
  destruct (parseRangeHeader_two_parts a [] S (proj1 Ha) ltac:(constructor))
    as [P Sp].
  change (strconv.FormatInt a ++ go "-")
    with (strconv.FormatInt a ++ go "-" ++ []).
  rewrite P. cbn [parseRangeSpecs]. unfold parseRangeSpec. rewrite Sp.
  unfold rangeBounds.
  replace (strings.eqb (strconv.FormatInt a) "") with false
    by (symmetry; apply eqb_neq; exact Na).
  cbn [strings.eqb go list_ascii_of_string].
  rewrite toInt64_FormatInt by assumption.
  unfold maxInt64 in *.
  rewrite wrap64_id by (unfold isInt64, minInt64, maxInt64; lia).
  destruct (Z.ltb_spec a S), (Z.ltb_spec (S - 1) a),
           (Z.leb_spec S a), (Z.leb_spec S (S - 1)); try lia; reflexivity.
Qed.

Lemma X14_parseRangeHeader_open_range_witness :
  parseRangeHeader ("bytes=" ++ strconv.FormatInt 900 ++ "-") 1000
  = if 900 <? 1000 then inr [{| Start := 900; End_ := 1000 - 1 |}]
    else inl ErrInvalidRange.
Proof.
  apply (X14_parseRangeHeader_open_range 900 1000); unfold maxInt64; lia.
Defined.

(* ================================================================= *)
(** ** Decimal round trip on every [int64] *)

Lemma trimLeft_head_plain (encs : list str) (fuel : nat) (c : ascii) (t : str) :
  strings.leadingSpace encs (c :: t) = None ->
  strings.trimLeft encs fuel (c :: t) = c :: t.
Proof.
  intros H. destruct fuel as [|fuel]; [reflexivity|].
  cbn [strings.trimLeft]. rewrite H. reflexivity.
Qed.

(** Neither a minus sign in front nor a digit at the end is white space:
    [TrimSpace] leaves a signed decimal as it is. *)
Lemma TrimSpace_signed (ds : str) :
  allDigits ds -> ds <> [] ->
  strings.TrimSpace ("-"%char :: ds) = "-"%char :: ds.
Proof.
  intros D N. unfold strings.TrimSpace.
  rewrite trimLeft_head_plain by reflexivity.
  destruct (exists_last N) as [ds' [z Ez]]. subst ds.
  change ("-"%char :: ds' ++ [z]) with (("-"%char :: ds') ++ [z]).
  rewrite rev_app_distr. cbn [rev app].
  rewrite trimLeft_head_plain.
  - cbn [rev]. rewrite rev_app_distr, rev_involutive. reflexivity.
  - apply digit_no_space. apply (proj1 (Forall_forall _ _) D).
    apply in_or_app. right. left. reflexivity.
Qed.

Lemma ParseInt_FormatInt_negative (n : Z) :
  minInt64 <= n < 0 -> strconv.ParseInt (strconv.FormatInt n) = (n, None).
Proof.
  unfold minInt64. intros H. unfold strconv.FormatInt.
  replace (n <? 0) with true by (symmetry; apply Z.ltb_lt; lia).
  rewrite (Z.mod_small (- n)) by lia.
  pose proof (formatBits_nonempty 20 (- n) [] ltac:(left; discriminate)) as N.
  pose proof (parseUintLoop_formatBits 20 (- n) []
                ltac:(unfold maxUint64; lia) ltac:(simpl; lia)) as P.
  unfold strconv.ParseInt.
  change (Ascii.eqb "-" "+") with false. change (Ascii.eqb "-" "-") with true.
  cbv iota.
  assert (U : strconv.ParseUint (strconv.formatBits 20 (- n) []) = (- n, None)).
  { unfold strconv.ParseUint.
    destruct (strconv.formatBits 20 (- n) []) eqn:E; [congruence|].
    exact P. }
  rewrite U. cbn [negb andb].
  replace (2 ^ 63 <? - n) with false by (symmetry; apply Z.ltb_ge; lia).
  f_equal.
  destruct (Z.eq_dec n (- 2 ^ 63)) as [->|Ne]; [reflexivity|].
  rewrite (wrap64_id (- n)) by (unfold isInt64, minInt64, maxInt64; lia).
  rewrite Z.opp_involutive.
  apply wrap64_id. unfold isInt64, minInt64, maxInt64; lia.
Qed.

(** X16.  [toInt64] reads back every [int64] that [strconv.FormatInt]
    prints, the negative ones and [math.MinInt64] included. *)
Theorem X16_toInt64_FormatInt_round_trip (n : Z) :
  isInt64 n -> toInt64 (strconv.FormatInt n) = n.
Proof.
  unfold isInt64. intros H.
  destruct (Z.ltb_spec n 0) as [Neg|Pos].
  - unfold toInt64.
    assert (T : strings.TrimSpace (strconv.FormatInt n) = strconv.FormatInt n).
    { unfold strconv.FormatInt.
      replace (n <? 0) with true by (symmetry; apply Z.ltb_lt; lia).
      apply TrimSpace_signed.
      - apply formatBits_digits; [|constructor].
        apply Z.mod_pos_bound. lia.
      - apply formatBits_nonempty. left; discriminate. }
    rewrite T, ParseInt_FormatInt_negative by lia. reflexivity.
  - apply toInt64_FormatInt. lia.
Qed.

Lemma X16_toInt64_FormatInt_round_trip_witness :
  toInt64 (strconv.FormatInt minInt64) = minInt64.
Proof.
  apply (X16_toInt64_FormatInt_round_trip minInt64).
  unfold isInt64, minInt64, maxInt64. lia.
Defined.

(* ================================================================= *)
(** ** The range reader: what every call returns *)



(** A [Read] that the first chunk can serve in full. *)
Lemma Read_served (s : io.Stream (list Byte.byte)) (chunk : list Byte.byte)
      (rest : list (list Byte.byte)) (p : list Byte.byte) :
  io.chunks s = chunk :: rest ->
  (length p <= length chunk)%nat ->
  io.Read {| io.pending := s |} p
  = (firstn (length p) chunk, Z.of_nat (length p),
     (if (length p <? length chunk)%nat then None
      else match rest with
           | [] => io.withLast s
           | _ :: _ => None
           end),
     {| io.pending :=
          {| io.chunks := if (length p <? length chunk)%nat
                          then skipn (length p) chunk :: rest else rest;
             io.withLast := io.withLast s; io.atEnd := io.atEnd s |} |}).
Proof.
  intros E H. unfold io.Read. cbn [io.pending]. rewrite E.
  rewrite Nat.min_l by exact H. rewrite skipn_all, app_nil_r.
  destruct (length p <? length chunk)%nat; reflexivity.
Qed.

(** When the first chunk of the stream holds the bytes up to the end of the
    window, the two reads of [ReadAt] are served in full. *)
Lemma ReadAt_first_chunk (s : io.Stream (list Byte.byte)) (chunk : list Byte.byte)
      (rest : list (list Byte.byte)) (p : list Byte.byte) (off sz : Z) :
  io.chunks s = chunk :: rest ->
  0 <= off < sz ->
  (Z.to_nat off < length chunk)%nat ->
  (length p <= length chunk - Z.to_nat off)%nat ->
  ReadAt (NewMyReadAtReader {| io.pending := s |} sz) p off
  = (firstn (length p) (skipn (Z.to_nat off) chunk), 0,
     (if (length p <? length chunk - Z.to_nat off)%nat then None
      else match rest with
           | [] => io.withLast s
           | _ :: _ => None
           end),
     {| r := {| io.pending :=
                  {| io.chunks :=
                       if (length p <? length chunk - Z.to_nat off)%nat
                       then skipn (length p) (skipn (Z.to_nat off) chunk) :: rest
                       else rest;
                     io.withLast := io.withLast s; io.atEnd := io.atEnd s |} |};
        data := []; size := sz |}).
Proof.
  intros E Hoff Hlt Hp. unfold ReadAt, NewMyReadAtReader. cbn [r size].
  replace ((off <? 0) || (sz <=? off)) with false
    by (symmetry; apply orb_false_iff; split; [apply Z.ltb_ge | apply Z.leb_gt]; lia).
  assert (L : length (makeBytes off) = Z.to_nat off)
    by (unfold makeBytes; apply repeat_length).
  rewrite (Read_served s chunk rest _ E) by (rewrite L; lia).
  rewrite L. replace (Z.to_nat off <? length chunk)%nat with true
    by (symmetry; apply Nat.ltb_lt; exact Hlt).
  rewrite (Read_served {| io.chunks := skipn (Z.to_nat off) chunk :: rest;
                          io.withLast := io.withLast s; io.atEnd := io.atEnd s |}
                       (skipn (Z.to_nat off) chunk) rest p eq_refl)
    by (rewrite length_skipn; exact Hp).
  rewrite length_skipn. cbn [io.withLast io.atEnd].
  destruct (length p <? length chunk - Z.to_nat off)%nat; [reflexivity|].
  destruct rest; [destruct (io.withLast s)|]; reflexivity.
Qed.

(** X18.  If the first chunk of the stream reaches the end of the window
    (more than [off] bytes, and [off + len(p)] at least), [ReadAt] fills the
    whole buffer with the bytes of the stream from offset [off] on and
    leaves in the stream what follows the window.  It reports no error,
    unless the window takes the last bytes of the last chunk and the reader
    returns an error together with them: that error ([io.EOF] from a reader
    that knows it is done) is then the result, although the buffer is
    complete. *)
Theorem X18_ReadAt_first_chunk (s : io.Stream (list Byte.byte))
        (chunk : list Byte.byte) (rest : list (list Byte.byte))
        (p : list Byte.byte) (off sz : Z) :
  io.chunks s = chunk :: rest ->
  0 <= off < sz ->
  (Z.to_nat off < length chunk)%nat ->
  (length p <= length chunk - Z.to_nat off)%nat ->
  let '(p', _, err, rd') :=
    ReadAt (NewMyReadAtReader {| io.pending := s |} sz) p off in
  p' = firstn (length p) (skipn (Z.to_nat off) (io.Copy {| io.pending := s |}))
  /\ err = (if (length p <? length chunk - Z.to_nat off)%nat then None
            else match rest with
                 | [] => io.withLast s
                 | _ :: _ => None
                 end)
  /\ io.Copy (r rd')
     = skipn (Z.to_nat off + length p) (io.Copy {| io.pending := s |}).
Proof.
  intros E Hoff Hlt Hp.
  rewrite (ReadAt_first_chunk s chunk rest p off sz E Hoff Hlt Hp).
  unfold io.Copy. cbn [r io.pending io.chunks]. rewrite E. cbn [concat].
  split; [|split; [reflexivity|]].
  - rewrite skipn_app, firstn_app, length_skipn.
    replace (length p - (length chunk - Z.to_nat off))%nat with 0%nat by lia.
    cbn [firstn]. rewrite app_nil_r. reflexivity.
  - rewrite skipn_app.
    replace (Z.to_nat off + length p - length chunk)%nat with 0%nat by lia.
    cbn [skipn]. rewrite Nat.add_comm, <- skipn_skipn.
    destruct (Nat.ltb_spec (length p) (length chunk - Z.to_nat off)).
    + reflexivity.
    + cbn [concat]. rewrite (skipn_all2 (skipn (Z.to_nat off) chunk))
        by (rewrite length_skipn; lia).
      reflexivity.
Qed.

Lemma X18_ReadAt_first_chunk_witness :
  let '(p', _, err, rd') :=
    ReadAt (NewMyReadAtReader
              {| io.pending :=
                   {| io.chunks := [[Byte.x00; Byte.x01; Byte.x02; Byte.x03]];
                      io.withLast := Some EOF; io.atEnd := EOF |} |} 4)
           [Byte.x00; Byte.x00] 2 in
  p' = firstn 2 (skipn (Z.to_nat 2)
                   (io.Copy {| io.pending :=
                                 {| io.chunks := [[Byte.x00; Byte.x01; Byte.x02; Byte.x03]];
                                    io.withLast := Some EOF; io.atEnd := EOF |} |}))
  /\ err = (if (2 <? 4 - Z.to_nat 2)%nat then None else Some EOF)
  /\ io.Copy (r rd')
     = skipn (Z.to_nat 2 + 2)
             (io.Copy {| io.pending :=
                           {| io.chunks := [[Byte.x00; Byte.x01; Byte.x02; Byte.x03]];
                              io.withLast := Some EOF; io.atEnd := EOF |} |}).
Proof.
  apply (X18_ReadAt_first_chunk
           {| io.chunks := [[Byte.x00; Byte.x01; Byte.x02; Byte.x03]];
              io.withLast := Some EOF; io.atEnd := EOF |}
           [Byte.x00; Byte.x01; Byte.x02; Byte.x03] []
           [Byte.x00; Byte.x00] 2 4).
  - reflexivity.
  - lia.
  - simpl. lia.
  - simpl. lia.
Defined.

(* ================================================================= *)
(** ** The range streamer: one range, and none *)

(** What [SuccessStreamResp] answers when the Range header yields one
    range whose buffer [make] allocates, on a fresh context and a file that
    opens: the envelope with code 500 when [ReadAt] fails, and otherwise
    status 206 with the buffer of [ReadAt] as the body. *)
Lemma SuccessStreamResp_single (reqHeader : list (str * str)) (f : File)
      (frc : io.Reader) (header : str) (rg : httpRange) :
  Open f = inr frc ->
  gin.GetHeader (gin.newContext reqHeader) "Range" = header ->
  header <> [] ->
  parseRangeHeader header (Size f) = inr [rg] ->
  makePanics (wrap64 (wrap64 (End_ rg - Start rg) + 1)) = false ->
  match ReadAt (NewMyReadAtReader frc (Size f))
               (makeBytes (wrap64 (wrap64 (End_ rg - Start rg) + 1)))
               (Start rg) with
  | (_, _, Some e, _) =>
      exists c, SuccessStreamResp (gin.newContext reqHeader) f = Returns c
                /\ isErrorEnvelope c 500 (Error e)
  | (buf, _, None, _) =>
      exists c, SuccessStreamResp (gin.newContext reqHeader) f = Returns c
                /\ gin.status c = 206
                /\ gin.lookup (gin.header c) "Content-Range"
                   = Some ("bytes " ++ strconv.FormatInt (Start rg) ++ "-"
                           ++ strconv.FormatInt (End_ rg) ++ "/"
                           ++ strconv.FormatInt (Size f))
                /\ gin.lookup (gin.header c) "Content-Length"
                   = Some (strconv.FormatInt
                             (wrap64 (wrap64 (End_ rg - Start rg) + 1)))
                /\ gin.body c = [gin.RawBody buf]
                /\ gin.aborted c = false
  end.
Proof.
  intros HO HR HN HP HL. unfold SuccessStreamResp. rewrite HO. cbv zeta.
  match goal with
  | |- context [gin.GetHeader ?c7 _] =>
      change (gin.GetHeader c7 "Range")
        with (gin.GetHeader (gin.newContext reqHeader) "Range");
      set (ctx := c7)
  end.
  rewrite HR.
  assert (HN' : strings.eqb header "" = false) by (apply eqb_neq; exact HN).
  rewrite HN', HP. cbn [negb]. rewrite HL.
  destruct (ReadAt _ _ _) as [[[buf n] [e|]] rd'].
  - eexists. split; [reflexivity|]. apply ErrorStrResp_envelope; reflexivity.
  - eexists. split; [reflexivity|]. repeat split.
Qed.

(** The suffix form is accepted for every [N >= 0], also when it reaches
    back beyond the first byte. *)
Lemma parse_suffix_range (S N : Z) :
  0 <= N <= maxInt64 -> 0 <= S <= maxInt64 ->
  parseRangeHeader ("bytes=-" ++ strconv.FormatInt N) S
  = inr [{| Start := S - 1 - N; End_ := S - 1 |}].
Proof.
  unfold maxInt64. intros HN HS.
  destruct (FormatInt_digits N (proj1 HN)) as [D _].
  unfold parseRangeHeader. rewrite (matchRangePattern_suffix _ D).
  rewrite Split_single.
  2:{ intros [E|I]; [discriminate|].
      revert I. apply digits_no_byte; [exact D|].
      intros I. each_digit I; discriminate. }
  cbn [parseRangeSpecs]. unfold parseRangeSpec.
  cbn [strings.Split]. rewrite Ascii.eqb_refl.
  rewrite Split_single by (apply digits_no_dash; exact D).
  unfold rangeBounds. cbn [strings.eqb go list_ascii_of_string].
  rewrite toInt64_FormatInt by (unfold maxInt64; lia).
  rewrite (wrap64_id (S - 1)) by (unfold isInt64, minInt64, maxInt64; lia).
  rewrite (wrap64_id (S - 1 - N)) by (unfold isInt64, minInt64, maxInt64; lia).
  replace (S - 1 <? S - 1 - N) with false by (symmetry; apply Z.ltb_ge; lia).
  replace (S <=? S - 1 - N) with false by (symmetry; apply Z.leb_gt; lia).
  replace (S <=? S - 1) with false by (symmetry; apply Z.leb_gt; lia).
  reflexivity.
Qed.

(** X15.  A suffix range [bytes=-N] that asks for at least as many bytes as
    the file has ([Size <= N]) passes the validation, with the negative
    start [Size - 1 - N].  The buffer of [N + 1] bytes is made first: for
    [N + 1] above [maxAlloc], and for [N = math.MaxInt64], where
    [end - start + 1] wraps to a negative number, [make] panics.  Otherwise
    [ReadAt] refuses the negative offset, and the answer is the envelope
    with code 500 and message [EOF]. *)
Theorem X15_suffix_beyond_the_file (reqHeader : list (str * str)) (f : File)
        (frc : io.Reader) (N : Z) :
  Open f = inr frc ->
  0 <= Size f <= N -> N <= maxInt64 ->
  gin.GetHeader (gin.newContext reqHeader) "Range"
  = "bytes=-" ++ strconv.FormatInt N ->
  parseRangeHeader ("bytes=-" ++ strconv.FormatInt N) (Size f)
  = inr [{| Start := Size f - 1 - N; End_ := Size f - 1 |}]
  /\ if N <? maxAlloc
     then exists c, SuccessStreamResp (gin.newContext reqHeader) f = Returns c
                    /\ isErrorEnvelope c 500 "EOF"
     else SuccessStreamResp (gin.newContext reqHeader) f = Panics.
Proof.
  intros HO HS HN HR.
  assert (HP := parse_suffix_range (Size f) N ltac:(lia) ltac:(lia)).
  split; [exact HP|].
  assert (HE : go "bytes=-" ++ strconv.FormatInt N <> []) by discriminate.
  unfold maxInt64 in *.
  assert (W : wrap64 (Size f - 1 - (Size f - 1 - N)) = N).
  { replace (Size f - 1 - (Size f - 1 - N)) with N by lia.
    apply wrap64_id. unfold isInt64, minInt64, maxInt64; lia. }
  destruct (Z.ltb_spec N maxAlloc) as [Lt|Ge]; unfold maxAlloc in *.
  - pose proof (SuccessStreamResp_single reqHeader f frc _ _ HO HR HE HP) as K.
    cbn [Start End_] in K. rewrite W in K.
    rewrite (wrap64_id (N + 1)) in K by (unfold isInt64, minInt64, maxInt64; lia).
    assert (M : makePanics (N + 1) = false).
    { unfold makePanics, maxAlloc. apply orb_false_iff.
      split; [apply Z.ltb_ge | apply Z.ltb_ge]; lia. }
    specialize (K M).
    unfold ReadAt in K.
    replace (Size f - 1 - N <? 0) with true in K by (symmetry; apply Z.ltb_lt; lia).
    exact K.
  - assert (M : makePanics (wrap64 (N + 1)) = true).
    { unfold makePanics, maxAlloc. apply orb_true_iff.
      destruct (Z.eq_dec N (2 ^ 63 - 1)) as [->|Ne].
      - left. reflexivity.
      - right. rewrite wrap64_id by (unfold isInt64, minInt64, maxInt64; lia).
        apply Z.ltb_lt. lia. }
    unfold SuccessStreamResp. rewrite HO. cbv zeta.
    match goal with
    | |- context [gin.GetHeader ?c7 _] =>
        change (gin.GetHeader c7 "Range")
          with (gin.GetHeader (gin.newContext reqHeader) "Range")
    end.
    rewrite HR. rewrite HP. cbn [Start End_]. rewrite W, M.
    reflexivity.
Qed.

Lemma X15_suffix_beyond_the_file_witness :
  parseRangeHeader ("bytes=-" ++ strconv.FormatInt 5000)
                   (Size (fileOf "f.bin" [repeat Byte.x00 1000]))
  = inr [{| Start := Size (fileOf "f.bin" [repeat Byte.x00 1000]) - 1 - 5000;
            End_ := Size (fileOf "f.bin" [repeat Byte.x00 1000]) - 1 |}]
  /\ if 5000 <? maxAlloc
     then exists c, SuccessStreamResp
                      (gin.newContext [(go "Range", "bytes=-" ++ strconv.FormatInt 5000)])
                      (fileOf "f.bin" [repeat Byte.x00 1000]) = Returns c
                    /\ isErrorEnvelope c 500 "EOF"
     else SuccessStreamResp
            (gin.newContext [(go "Range", "bytes=-" ++ strconv.FormatInt 5000)])
            (fileOf "f.bin" [repeat Byte.x00 1000]) = Panics.
Proof.
  apply (X15_suffix_beyond_the_file
           [(go "Range", "bytes=-" ++ strconv.FormatInt 5000)]
           (fileOf "f.bin" [repeat Byte.x00 1000])
           {| io.pending := [repeat Byte.x00 1000] |} 5000).
  - reflexivity.
  - vm_compute. split; discriminate.
  - vm_compute. discriminate.
  - reflexivity.
Defined.

(** X19.  On a file whose stream delivers the whole content in one chunk, a
    request for [bytes=a-b] with [0 <= a <= b < Size] is answered with
    status 206, [Content-Range: bytes a-b/Size], [Content-Length: b-a+1],
    and exactly the bytes of the content from offset [a] to offset [b],
    with one exception: when the range ends at the last byte of the file and
    the reader returns an error together with its last bytes ([io.EOF] from a
    reader that knows it is done), [ReadAt] passes that error on and the
    answer is the envelope with code 500 and the message of the error. *)
Theorem X19_single_range_served (reqHeader : list (str * str)) (f : File)
        (content : list Byte.byte) (withLast : option error) (atEnd : error)
        (a b : Z) :
  Open f = inr {| io.pending := {| io.chunks := [content];
                                   io.withLast := withLast;
                                   io.atEnd := atEnd |} |} ->
  Size f = Z.of_nat (length content) ->
  0 <= a -> a <= b -> b < Size f -> Size f <= maxAlloc ->
  gin.GetHeader (gin.newContext reqHeader) "Range"
  = "bytes=" ++ strconv.FormatInt a ++ "-" ++ strconv.FormatInt b ->
  exists c, SuccessStreamResp (gin.newContext reqHeader) f = Returns c
            /\ match (if b <? Size f - 1 then None else withLast) with
               | Some e => isErrorEnvelope c 500 (Error e)
               | None =>
                   gin.status c = 206
                   /\ gin.lookup (gin.header c) "Content-Range"
                      = Some ("bytes " ++ strconv.FormatInt a ++ "-"
                              ++ strconv.FormatInt b ++ "/"
                              ++ strconv.FormatInt (Size f))
                   /\ gin.lookup (gin.header c) "Content-Length"
                      = Some (strconv.FormatInt (b - a + 1))
                   /\ gin.body c
                      = [gin.RawBody (firstn (Z.to_nat (b - a + 1))
                                             (skipn (Z.to_nat a) content))]
                   /\ gin.aborted c = false
               end.
Proof.
  intros HO HS Ha Hab Hb HM HR. unfold maxAlloc in HM.
  assert (HP := parse_closed_range a b (Size f)
                  ltac:(unfold maxInt64; lia) ltac:(unfold maxInt64; lia)).
  replace ((a <=? b) && (b <? Size f)) with true in HP
    by (symmetry; apply andb_true_iff; split; [apply Z.leb_le | apply Z.ltb_lt]; lia).
  assert (HE : go "bytes=" ++ strconv.FormatInt a ++ go "-" ++ strconv.FormatInt b
               <> []) by discriminate.
  pose proof (SuccessStreamResp_single reqHeader f _ _ _ HO HR HE HP) as K.
  cbn [Start End_] in K.
  rewrite (wrap64_id (b - a)) in K by (unfold isInt64, minInt64, maxInt64; lia).
  rewrite (wrap64_id (b - a + 1)) in K by (unfold isInt64, minInt64, maxInt64; lia).
  assert (M : makePanics (b - a + 1) = false).
  { unfold makePanics, maxAlloc. apply orb_false_iff.
    split; [apply Z.ltb_ge | apply Z.ltb_ge]; lia. }
  specialize (K M).
  assert (L : length (makeBytes (b - a + 1)) = Z.to_nat (b - a + 1))
    by (unfold makeBytes; apply repeat_length).
  rewrite (ReadAt_first_chunk
             {| io.chunks := [content]; io.withLast := withLast; io.atEnd := atEnd |}
             content [] (makeBytes (b - a + 1)) a (Size f) eq_refl)
    in K by (rewrite ?L; lia).
  rewrite L in K. cbn [io.withLast] in K.
  destruct (Z.ltb_spec b (Size f - 1)) as [Lt|Ge].
  - replace (Z.to_nat (b - a + 1) <? length content - Z.to_nat a)%nat with true in K
      by (symmetry; apply Nat.ltb_lt; lia).
    exact K.
  - replace (Z.to_nat (b - a + 1) <? length content - Z.to_nat a)%nat with false in K
      by (symmetry; apply Nat.ltb_ge; lia).
    destruct withLast as [e|]; exact K.
Qed.

Lemma X19_single_range_served_witness :
  exists c, SuccessStreamResp
              (gin.newContext
                 [(go "Range", "bytes=" ++ strconv.FormatInt 3 ++ "-"
                               ++ strconv.FormatInt 5)])
              {| NameInArchive := "f.bin"; Name := "f.bin"; Size := 6;
                 IsDir := false; LinkTarget := "";
                 Open := inr {| io.pending :=
                                  {| io.chunks := [sampleBytes 6];
                                     io.withLast := Some EOF;
                                     io.atEnd := EOF |} |} |}
            = Returns c
            /\ match (if 5 <? 6 - 1 then None else Some EOF) with
               | Some e => isErrorEnvelope c 500 (Error e)
               | None =>
                   gin.status c = 206
                   /\ gin.lookup (gin.header c) "Content-Range"
                      = Some ("bytes " ++ strconv.FormatInt 3 ++ "-"
                              ++ strconv.FormatInt 5 ++ "/"
                              ++ strconv.FormatInt 6)
                   /\ gin.lookup (gin.header c) "Content-Length"
                      = Some (strconv.FormatInt (5 - 3 + 1))
                   /\ gin.body c
                      = [gin.RawBody (firstn (Z.to_nat (5 - 3 + 1))
                                             (skipn (Z.to_nat 3) (sampleBytes 6)))]
                   /\ gin.aborted c = false
               end.
Proof.
  apply (X19_single_range_served
           [(go "Range", "bytes=" ++ strconv.FormatInt 3 ++ "-"
                         ++ strconv.FormatInt 5)]
           {| NameInArchive := "f.bin"; Name := "f.bin"; Size := 6;
              IsDir := false; LinkTarget := "";
              Open := inr {| io.pending :=
                               {| io.chunks := [sampleBytes 6];
                                  io.withLast := Some EOF;
                                  io.atEnd := EOF |} |} |}
           (sampleBytes 6) (Some EOF) EOF 3 5).
  - reflexivity.
  - reflexivity.
  - lia.
  - lia.
  - simpl. lia.
  - vm_compute. discriminate.
  - reflexivity.
Defined.

(** X20.  Without a Range header, a file that opens is answered under
    status 200 with the whole stream as the body, the size of the file as
    [Content-Length], [Accept-Ranges: bytes], the type of the name's suffix
    as [Content-Type] and the file's name in [Content-Disposition]. *)
Theorem X20_no_range_full_body (reqHeader : list (str * str)) (f : File)
        (frc : io.Reader) :
  Open f = inr frc ->
  gin.GetHeader (gin.newContext reqHeader) "Range" = go "" ->
  exists c, SuccessStreamResp (gin.newContext reqHeader) f = Returns c
            /\ gin.status c = 200
            /\ gin.body c = [gin.RawBody (io.Copy frc)]
            /\ gin.aborted c = false
            /\ gin.lookup (gin.header c) "Content-Length"
               = Some (strconv.FormatInt (Size f))
            /\ gin.lookup (gin.header c) "Accept-Ranges" = Some (go "bytes")
            /\ gin.lookup (gin.header c) "Content-Type"
               = Some (defaultMIME (Name f))
            /\ gin.lookup (gin.header c) "Content-Disposition"
               = Some ("attachment; filename=" ++ Name f)
            /\ gin.lookup (gin.header c) "Content-Range" = None.
Proof.
  intros HO HR. unfold SuccessStreamResp. rewrite HO. cbv zeta.
  match goal with
  | |- context [gin.GetHeader ?c7 _] =>
      change (gin.GetHeader c7 "Range")
        with (gin.GetHeader (gin.newContext reqHeader) "Range")
  end.
  rewrite HR. cbn [strings.eqb go list_ascii_of_string negb].
  eexists. split; [reflexivity|]. repeat split.
Qed.

Lemma X20_no_range_full_body_witness :
  exists c, SuccessStreamResp (gin.newContext []) (fileOf "f.bin" [sampleBytes 6])
            = Returns c
            /\ gin.status c = 200
            /\ gin.body c = [gin.RawBody (io.Copy {| io.pending := [sampleBytes 6] |})]
            /\ gin.aborted c = false
            /\ gin.lookup (gin.header c) "Content-Length"
               = Some (strconv.FormatInt (Size (fileOf "f.bin" [sampleBytes 6])))
            /\ gin.lookup (gin.header c) "Accept-Ranges" = Some (go "bytes")
            /\ gin.lookup (gin.header c) "Content-Type"
               = Some (defaultMIME (Name (fileOf "f.bin" [sampleBytes 6])))
            /\ gin.lookup (gin.header c) "Content-Disposition"
               = Some ("attachment; filename=" ++ Name (fileOf "f.bin" [sampleBytes 6]))
            /\ gin.lookup (gin.header c) "Content-Range" = None.
Proof.
  apply (X20_no_range_full_body [] (fileOf "f.bin" [sampleBytes 6])
                                {| io.pending := [sampleBytes 6] |});
    reflexivity.
Defined.

(* ================================================================= *)
(** ** The [/down] handler *)

(** What [ExtractFile] returns on an archive as [DetectArchive] builds it:
    "file not found", or an entry of the archive that is no directory and
    has the anchored name asked for. *)
Lemma ExtractFile_result (F : str) (es : list File) :
  ExtractFile (NewArchive es) F = (None, Some (errorString "file not found"))
  \/ exists f, ExtractFile (NewArchive es) F = (Some f, None)
               /\ In f es /\ IsDir f = false /\ "/" ++ NameInArchive f = F.
Proof.
  unfold ExtractFile, mholt.Extract.
  cbn [fileHandlerFunc NewArchive sourceArchive pathsInArchive].
  destruct (extractLoop_FileFilter_sound F es [] [] 0) as [added [E A]].
  rewrite E. cbn [app]. destruct added as [|g added]; [left; reflexivity|].
  right. exists g. inversion A as [|? ? [[D N] I] _]; subst. auto.
Qed.

(** The path that [handerReqPath] resolves for a file is a normalized
    path, or it has no leading slash. *)
Lemma handerReqPath_file_result (p q : str) :
  handerReqPath p false = inr q -> NormalizedFilePath q \/ unrooted q.
Proof.
  intros H.
  assert (N : ~ escapesRoot p).
  { intros E. apply (JoinBasePath_denied "") in E.
    unfold handerReqPath in H. rewrite E in H. discriminate H. }
  destruct (strings.HasPrefix p "/") eqn:R.
  - left. rewrite (handerReqPath_returns _ false N) in H. cbv zeta in H.
    rewrite (handerReqPath_rooted_result _ R) in H.
    cbn [andb] in H. injection H as <-.
    destruct (rooted_cons _ R) as [rest ->]. apply Clean_rooted_normalized.
  - destruct p as [|c s].
    + left. vm_compute in H. injection H as <-. split; reflexivity.
    + right.
      destruct (handerReqPath_unrooted_result (c :: s) false
                  ltac:(discriminate) R N) as [q' [E U]].
      rewrite E in H. injection H as <-. exact U.
Qed.

(** On such a path "file not found" means that the archive has no entry
    for it. *)
Lemma ExtractFile_not_found (F : str) (es : list File) :
  NormalizedFilePath F \/ unrooted F ->
  ExtractFile (NewArchive es) F = (None, Some (errorString "file not found")) ->
  forall f, In f es -> IsDir f = false -> "/" ++ NameInArchive f <> F.
Proof.
  intros [HF|HU] E f I D N.
  - rewrite (ExtractFile_filter F HF es) in E.
    destruct (filter (isFileAtb F) es) eqn:K; [|discriminate].
    pose proof (proj1 (filter_none _ _ _) K f I) as B.
    assert (T : isFileAtb F f = true) by (apply isFileAtb_iff; split; assumption).
    congruence.
  - subst F. unfold unrooted in HU. discriminate HU.
Qed.

(** X21.  A [/down] request whose path is one of the relative-path patterns
    is answered with the envelope of code 500 and the message of
    [ErrRelativePath], before the archive is opened: the answer does not
    depend on [getArchive]. *)
Theorem X21_Down_relative_path
        (ShouldBind : gin.Context -> error + GetReq)
        (getArchive : gin.Context -> str -> error + ArchiverExtractor)
        (reqHeader : list (str * str)) (req : GetReq) :
  ShouldBind (gin.newContext reqHeader) = inr req ->
  escapesRoot (Path req) ->
  exists c, Down ShouldBind getArchive (gin.newContext reqHeader) = Returns c
            /\ isErrorEnvelope c 500 "access using relative path is not allowed".
Proof.
  intros HB HE. unfold Down. rewrite HB. unfold handerReqPath.
  rewrite (proj2 (JoinBasePath_denied "" (Path req)) HE).
  eexists. split; [reflexivity|]. apply ErrorStrResp_envelope; reflexivity.
Qed.

Lemma X21_Down_relative_path_witness :
  exists c, Down (fun _ => inr {| RawLink := "http://host/a.zip"; Path := "a/../b" |})
                 (fun _ _ => inl ErrNotSupport) (gin.newContext [])
            = Returns c
            /\ isErrorEnvelope c 500 "access using relative path is not allowed".
Proof.
  apply (X21_Down_relative_path
           (fun _ => inr {| RawLink := "http://host/a.zip"; Path := "a/../b" |})
           (fun _ _ => inl ErrNotSupport) []
           {| RawLink := "http://host/a.zip"; Path := "a/../b" |}).
  - reflexivity.
  - right; right; right. exists (go "a"), (go "b"). reflexivity.
Defined.

(** X22.  A [/down] request whose path is not empty, does not begin with a
    slash and is not refused is answered with the envelope of code 500 and
    message "not support", whatever the archive holds: the path that
    [handerReqPath] returns has no leading slash, and no anchored name
    equals it. *)
Theorem X22_Down_unrooted_path
        (ShouldBind : gin.Context -> error + GetReq)
        (getArchive : gin.Context -> str -> error + ArchiverExtractor)
        (reqHeader : list (str * str)) (req : GetReq) (es : list File) :
  ShouldBind (gin.newContext reqHeader) = inr req ->
  Path req <> [] -> unrooted (Path req) -> ~ escapesRoot (Path req) ->
  getArchive (gin.newContext reqHeader) (RawLink req) = inr (NewArchive es) ->
  exists c, Down ShouldBind getArchive (gin.newContext reqHeader) = Returns c
            /\ isErrorEnvelope c 500 "not support".
Proof.
  intros HB Hne Hu HE HA. unfold Down. rewrite HB.
  destruct (handerReqPath_unrooted_result (Path req) false Hne Hu HE) as [q [-> Hq]].
  rewrite HA.
  destruct (ExtractFile_result q es) as [->|[f [_ [_ [_ N]]]]].
  - eexists. split; [reflexivity|]. apply ErrorStrResp_envelope; reflexivity.
  - subst q. unfold unrooted in Hq. discriminate Hq.
Qed.

Lemma X22_Down_unrooted_path_witness :
  exists c, Down (fun _ => inr {| RawLink := "http://host/a.zip"; Path := "a/b.txt" |})
                 (fun _ _ => inr (NewArchive exampleEntries)) (gin.newContext [])
            = Returns c
            /\ isErrorEnvelope c 500 "not support".
Proof.
  apply (X22_Down_unrooted_path
           (fun _ => inr {| RawLink := "http://host/a.zip"; Path := "a/b.txt" |})
           (fun _ _ => inr (NewArchive exampleEntries)) []
           {| RawLink := "http://host/a.zip"; Path := "a/b.txt" |} exampleEntries).
  - reflexivity.
  - discriminate.
  - reflexivity.
  - intros H. apply (JoinBasePath_denied "") in H. discriminate H.
  - reflexivity.
Defined.

(** X23.  Once the request is bound, the path resolved and the archive
    opened, [Down] either answers with the envelope of code 500 and message
    "not support" (the error "file not found" of [ExtractFile] is not passed
    on), or hands to [SuccessStreamResp] an entry of the archive that is no
    directory and whose anchored name is the resolved path.  It never
    dereferences a nil entry. *)
Theorem X23_Down_not_support_or_stream
        (ShouldBind : gin.Context -> error + GetReq)
        (getArchive : gin.Context -> str -> error + ArchiverExtractor)
        (reqHeader : list (str * str)) (req : GetReq) (reqPath : str)
        (es : list File) :
  ShouldBind (gin.newContext reqHeader) = inr req ->
  handerReqPath (Path req) false = inr reqPath ->
  getArchive (gin.newContext reqHeader) (RawLink req) = inr (NewArchive es) ->
  (exists c, Down ShouldBind getArchive (gin.newContext reqHeader) = Returns c
             /\ isErrorEnvelope c 500 "not support"
             /\ forall f, In f es -> IsDir f = false ->
                          "/" ++ NameInArchive f <> reqPath)
  \/ (exists f, Down ShouldBind getArchive (gin.newContext reqHeader)
                = SuccessStreamResp (gin.newContext reqHeader) f
                /\ In f es /\ IsDir f = false
                /\ "/" ++ NameInArchive f = reqPath).
Proof.
  intros HB HP HA. unfold Down. rewrite HB, HP, HA.
  destruct (ExtractFile_result reqPath es) as [E|[f [E [I [D N]]]]].
  - left. rewrite E. eexists. split; [reflexivity|].
    split; [apply ErrorStrResp_envelope; reflexivity|].
    apply ExtractFile_not_found; [|exact E].
    apply (handerReqPath_file_result (Path req)). exact HP.
  - right. exists f. rewrite E. auto.
Qed.

Lemma X23_Down_not_support_or_stream_witness :
  (exists c, Down (fun _ => inr {| RawLink := "http://host/a.zip";
                                   Path := "/a/b.txt" |})
                  (fun _ _ => inr (NewArchive exampleEntries)) (gin.newContext [])
             = Returns c
             /\ isErrorEnvelope c 500 "not support"
             /\ forall f, In f exampleEntries -> IsDir f = false ->
                          "/" ++ NameInArchive f <> go "/a/b.txt")
  \/ (exists f, Down (fun _ => inr {| RawLink := "http://host/a.zip";
                                      Path := "/a/b.txt" |})
                     (fun _ _ => inr (NewArchive exampleEntries)) (gin.newContext [])
                = SuccessStreamResp (gin.newContext []) f
                /\ In f exampleEntries /\ IsDir f = false
                /\ "/" ++ NameInArchive f = go "/a/b.txt").
Proof.
  apply (X23_Down_not_support_or_stream
           (fun _ => inr {| RawLink := "http://host/a.zip"; Path := "/a/b.txt" |})
           (fun _ _ => inr (NewArchive exampleEntries)) []
           {| RawLink := "http://host/a.zip"; Path := "/a/b.txt" |}
           "/a/b.txt" exampleEntries); reflexivity.
Defined.

(** X24.  A [/down] request whose path begins with a slash and is not
    refused is routed to the first entry of the archive that is no directory
    and whose anchored name is [path.Clean] of the path: [Down] answers what
    [SuccessStreamResp] answers for that entry. *)
Theorem X24_Down_rooted_path_streams_the_file
        (ShouldBind : gin.Context -> error + GetReq)
        (getArchive : gin.Context -> str -> error + ArchiverExtractor)
        (c : gin.Context) (req : GetReq) (pre post : list File) (f : File) :
  ShouldBind c = inr req ->
  strings.HasPrefix (Path req) "/" = true -> ~ escapesRoot (Path req) ->
  getArchive c (RawLink req) = inr (NewArchive (pre ++ f :: post)) ->
  isFileAt (path.Clean (Path req)) f ->
  (forall g, In g pre -> ~ isFileAt (path.Clean (Path req)) g) ->
  Down ShouldBind getArchive c = SuccessStreamResp c f.
Proof.
  intros HB HR HE HA Hf Hpre. unfold Down. rewrite HB.
  rewrite (handerReqPath_returns _ false HE). cbv zeta.
  rewrite (handerReqPath_rooted_result _ HR). cbn [andb].
  rewrite HA.
  assert (HN : NormalizedFilePath (path.Clean (Path req))).
  { destruct (rooted_cons _ HR) as [rest ->]. apply Clean_rooted_normalized. }
  rewrite (ExtractFile_filter _ HN).
  rewrite filter_app. cbn [filter].
  apply isFileAtb_iff in Hf. rewrite Hf.
  replace (filter (isFileAtb (path.Clean (Path req))) pre) with (@nil File);
    [reflexivity|].
  symmetry. apply filter_none. intros g I.
  destruct (isFileAtb (path.Clean (Path req)) g) eqn:E; [|reflexivity].
  apply isFileAtb_iff in E. elim (Hpre g I E).
Qed.

Lemma X24_Down_rooted_path_streams_the_file_witness :
  Down (fun _ => inr {| RawLink := "http://host/a.zip"; Path := "/a/./c//d.txt" |})
       (fun _ _ => inr (NewArchive exampleEntries)) (gin.newContext [])
  = SuccessStreamResp (gin.newContext []) (entry "a/c/d.txt" false).
Proof.
  apply (X24_Down_rooted_path_streams_the_file
           (fun _ => inr {| RawLink := "http://host/a.zip"; Path := "/a/./c//d.txt" |})
           (fun _ _ => inr (NewArchive exampleEntries)) (gin.newContext [])
           {| RawLink := "http://host/a.zip"; Path := "/a/./c//d.txt" |}
           [entry "a/" true; entry "a/b.txt" false; entry "a/c/" true] []
           (entry "a/c/d.txt" false)).
  - reflexivity.
  - reflexivity.
  - intros H. apply (JoinBasePath_denied "") in H. discriminate H.
  - reflexivity.
  - split; reflexivity.
  - intros g [<-|[<-|[<-|[]]]] [D E]; discriminate.
Defined.

(* ================================================================= *)
(** ** The cascade listing and the leading slash *)

(** X25.  For a directory path that is not empty and has no leading slash,
    [CascadeExtractDirs] returns what it returns for the same path with the
    slash in front: only [ExtractDirs] depends on the leading slash. *)
Theorem X25_CascadeExtractDirs_leading_slash (ae : ArchiverExtractor) (d : str) :
  d <> [] -> unrooted d ->
  CascadeExtractDirs ae d = CascadeExtractDirs ae ("/" ++ d).
Proof.
  intros Hne Hu. unfold CascadeExtractDirs.
  assert (E1 : strings.eqb d "/" = false).
  { apply eqb_neq. intros ->. discriminate Hu. }
  assert (E2 : strings.eqb ("/" ++ d) "/" = false).
  { apply eqb_neq. destruct d; [congruence | discriminate]. }
  rewrite E1, E2. cbn [negb].
  assert (T1 : strings.TrimPrefix d "/" = d).
  { unfold strings.TrimPrefix. unfold unrooted in Hu. rewrite Hu. reflexivity. }
  rewrite T1. reflexivity.
Qed.

Lemma X25_CascadeExtractDirs_leading_slash_witness :
  CascadeExtractDirs (NewArchive exampleEntries) "a/"
  = CascadeExtractDirs (NewArchive exampleEntries) ("/" ++ "a/").
Proof.
  apply (X25_CascadeExtractDirs_leading_slash (NewArchive exampleEntries) "a/").
  - discriminate.
  - reflexivity.
Defined.

(* ================================================================= *)
(** ** The content type *)

Lemma HasSuffix_rev (s x : str) :
  strings.HasSuffix s x = strings.HasPrefix (rev s) (rev x).
Proof.
  apply eq_true_iff_eq. rewrite HasSuffix_iff, HasPrefix_iff. split.
  - intros [t ->]. exists (rev t). apply rev_app_distr.
  - intros [t E]. exists (rev t).
    rewrite <- (rev_involutive s), E, rev_app_distr, rev_involutive. reflexivity.
Qed.

(** X26.  The order of the cases in the [switch] of [SuccessStreamResp]
    never decides: a name that ends in a suffix of the table gets the type
    listed for that suffix, whatever stands before the suffix. *)
Theorem X26_defaultMIME_by_suffix (name suffix mime : str) :
  In (suffix, mime) mimeTable ->
  strings.HasSuffix name suffix = true ->
  defaultMIME name = mime.
Proof.
  intros I H. apply HasSuffix_iff in H. destruct H as [t ->].
  unfold defaultMIME, mimeTable. cbn [find].
  rewrite !HasSuffix_rev, !rev_app_distr.
  unfold mimeTable in I. cbn [In] in I.
  repeat (destruct I as [I|I];
          [injection I as <- <-; cbn; reflexivity|]).
  contradiction.
Qed.

Lemma X26_defaultMIME_by_suffix_witness :
  defaultMIME "backup.tar.gz" = go "application/gzip".
Proof.
  apply (X26_defaultMIME_by_suffix "backup.tar.gz" ".gz" "application/gzip").
  - vm_compute. tauto.
  - reflexivity.
Defined.

(* ================================================================= *)
(** ** Several ranges in one header *)

Lemma rangePasses_iff (rangeSpec : str) (S : Z) :
  rangePasses rangeSpec S <-> exists rg, parseRangeSpec rangeSpec S = inr rg.
Proof.
  split.
  - intros [p0 [p1 [Sp [V1 [V2 V3]]]]]. unfold parseRangeSpec. rewrite Sp.
    destruct (rangeBounds p0 p1 S) as [start end_]. cbn [fst snd] in *.
    replace ((end_ <? start) || (S <=? start) || (S <=? end_)) with false.
    + eexists. reflexivity.
    + symmetry. rewrite !orb_false_iff, Z.ltb_ge, !Z.leb_gt. lia.
  - intros [rg P]. apply parseRangeSpec_ok in P.
    destruct P as [p0 [p1 [Sp [_ V]]]]. exists p0, p1. split; assumption.
Qed.

(** When every listed range passes, the parser returns one range for
    each. *)
Lemma parseRangeSpecs_accepts (rangeSpecs : list str) (S : Z) :
  (forall sp, In sp rangeSpecs -> rangePasses sp S) ->
  forall ranges, exists result,
    parseRangeSpecs rangeSpecs S ranges = inr result
    /\ length result = (length ranges + length rangeSpecs)%nat.
Proof.
  induction rangeSpecs as [|sp rest IH]; intros A ranges; cbn [parseRangeSpecs].
  - exists ranges. split; [reflexivity | simpl; lia].
  - destruct (proj1 (rangePasses_iff sp S) (A sp (or_introl eq_refl))) as [rg P].
    rewrite P.
    destruct (IH (fun sp' I => A sp' (or_intror I)) (ranges ++ [rg]))
      as [result [E L]].
    exists result. split; [exact E|].
    rewrite L, length_app. simpl. lia.
Qed.

(** When a listed range is refused, so is the header. *)
Lemma parseRangeSpecs_refuses (rangeSpecs : list str) (S : Z)
      (ranges : list httpRange) :
  (exists sp, In sp rangeSpecs /\ ~ rangePasses sp S) ->
  parseRangeSpecs rangeSpecs S ranges = inl ErrInvalidRange.
Proof.
  intros [sp [I N]].
  destruct (parseRangeSpecs rangeSpecs S ranges) as [e|result] eqn:P.
  - f_equal. eapply parseRangeSpecs_error; eassumption.
  - exfalso. apply N. apply rangePasses_iff.
    apply parseRangeSpecs_ok in P. destruct P as [_ A]. apply A. exact I.
Qed.

Lemma rangePasses_all_or_one (rangeSpecs : list str) (S : Z) :
  (forall sp, In sp rangeSpecs -> rangePasses sp S)
  \/ (exists sp, In sp rangeSpecs /\ ~ rangePasses sp S).
Proof.
  induction rangeSpecs as [|sp rest IH].
  - left. intros sp [].
  - destruct (parseRangeSpec sp S) as [e|rg] eqn:P.
    + right. exists sp. split; [left; reflexivity|].
      intros H. apply rangePasses_iff in H. destruct H as [rg R]. congruence.
    + destruct IH as [A|[sp' [I N]]].
      * left. intros sp' [<-|I]; [|apply A; exact I].
        apply rangePasses_iff. exists rg. exact P.
      * right. exists sp'. split; [right; exact I | exact N].
Qed.

(** A range from [a] to [b] within the file, written in decimal, passes. *)
Lemma closedRange_passes (a b S : Z) :
  0 <= a -> a <= b -> b < S -> S <= maxInt64 ->
  rangePasses (closedRange (a, b)) S.
Proof.
  intros Ha Hab Hb HS. unfold closedRange. cbn [fst snd].
  destruct (FormatInt_digits a Ha) as [_ Na].
  destruct (FormatInt_digits b ltac:(lia)) as [Db Nb].
  destruct (parseRangeHeader_two_parts a (strconv.FormatInt b) S Ha Db) as [_ Sp].
  exists (strconv.FormatInt a), (strconv.FormatInt b). split; [exact Sp|].
  unfold rangeBounds.
  replace (strings.eqb (strconv.FormatInt a) "") with false
    by (symmetry; apply eqb_neq; exact Na).
  replace (strings.eqb (strconv.FormatInt b) "") with false
    by (symmetry; apply eqb_neq; exact Nb).
  rewrite !toInt64_FormatInt by lia. cbn [fst snd]. lia.
Qed.

Lemma closedRange_chars (ab : Z * Z) :
  0 <= fst ab -> 0 <= snd ab -> Forall rangeChar (closedRange ab).
Proof.
  intros Ha Hb. unfold closedRange. apply Forall_app. split.
  - apply digits_rangeChars. apply (FormatInt_digits _ Ha).
  - constructor; [right; reflexivity|].
    apply digits_rangeChars. apply (FormatInt_digits _ Hb).
Qed.

Lemma Split_joinComma (specs : list str) :
  specs <> [] -> Forall (Forall rangeChar) specs ->
  strings.Split (joinComma specs) "," = specs.
Proof.
  assert (NC : forall sp : str, Forall rangeChar sp -> ~ In ","%char sp).
  { intros sp H I.
    destruct (rangeChar_plain _ (proj1 (Forall_forall _ _) H _ I)) as [_ [_ N]].
    apply N. reflexivity. }
  induction specs as [|sp rest IH]; intros Hne H; [congruence|].
  inversion H as [|? ? Hsp Hrest]; subst.
  destruct rest as [|sp2 rest].
  - cbn [joinComma]. apply Split_single. apply NC. exact Hsp.
  - change (joinComma (sp :: sp2 :: rest))
      with (sp ++ ","%char :: joinComma (sp2 :: rest)).
    rewrite Split_piece by (apply NC; exact Hsp).
    rewrite IH; [reflexivity | discriminate | exact Hrest].
Qed.

(** The group of a header is what follows [bytes=] when that holds neither
    white space nor a line feed. *)
Lemma matchRangePattern_group (s : str) :
  Forall (fun c => isRegexpSpace c = false
                   /\ Ascii.eqb (ascii_of_nat 10) c = false) s ->
  matchRangePattern ("bytes=" ++ s) = Some s.
Proof.
  intros H. unfold matchRangePattern.
  cbn [app go list_ascii_of_string skipSpaces].
  change (isRegexpSpace "b") with false. cbv iota.
  change (strings.HasPrefix ("b" :: "y" :: "t" :: "e" :: "s" :: "=" :: s)%char "bytes")
    with true. cbv iota.
  cbn [skipn skipSpaces]. change (isRegexpSpace "=") with false. cbv iota.
  rewrite Ascii.eqb_refl.
  assert (K : skipSpaces s = s).
  { destruct H as [|c t [E _] _]; [reflexivity|].
    cbn [skipSpaces]. rewrite E. reflexivity. }
  rewrite K.
  assert (L : existsb (Ascii.eqb (ascii_of_nat 10)) s = false).
  { clear K. induction H as [|c t [_ E] _ IH]; [reflexivity|].
    cbn [existsb]. rewrite E, IH. reflexivity. }
  rewrite L. reflexivity.
Qed.

Lemma joinComma_chars (specs : list str) :
  Forall (Forall rangeChar) specs ->
  Forall (fun c => isRegexpSpace c = false
                   /\ Ascii.eqb (ascii_of_nat 10) c = false) (joinComma specs).
Proof.
  assert (P : forall sp : str, Forall rangeChar sp ->
                Forall (fun c => isRegexpSpace c = false
                                 /\ Ascii.eqb (ascii_of_nat 10) c = false) sp).
  { intros sp H. eapply Forall_impl; [|exact H].
    intros c Hc. destruct (rangeChar_plain c Hc) as [A [B _]]. split; assumption. }
  induction specs as [|sp rest IH]; intros H; [constructor|].
  inversion H as [|? ? Hsp Hrest]; subst.
  destruct rest as [|sp2 rest].
  - cbn [joinComma]. apply P. exact Hsp.
  - change (joinComma (sp :: sp2 :: rest))
      with (sp ++ ","%char :: joinComma (sp2 :: rest)).
    apply Forall_app. split; [apply P; exact Hsp|].
    constructor; [split; reflexivity | apply IH; exact Hrest].
Qed.

(** The header written from a list of ranges lists exactly these. *)
Lemma listedRanges_closedRangesHeader (pairs : list (Z * Z)) :
  pairs <> [] ->
  Forall (fun ab => 0 <= fst ab /\ 0 <= snd ab) pairs ->
  listedRanges (closedRangesHeader pairs) = map closedRange pairs.
Proof.
  intros Hne H.
  assert (C : Forall (Forall rangeChar) (map closedRange pairs)).
  { apply Forall_map. eapply Forall_impl; [|exact H].
    intros ab [A B]. apply closedRange_chars; assumption. }
  unfold listedRanges, closedRangesHeader.
  rewrite (matchRangePattern_group _ (joinComma_chars _ C)).
  apply Split_joinComma; [|exact C].
  destruct pairs; [congruence | discriminate].
Qed.

(** C3 (as the code has it).  For every /down request on a fresh context,
    over a file that opens, whose Range header lists several comma-separated
    ranges: when every listed range parses and passes the validation, the
    Range header is ignored and the response is the whole stream under
    status 200; when one of them is refused, the response is the error
    envelope with code 416; one of the two is always the case, so the
    response is never multipart.  In particular a header that lists ranges
    [a-b] with [0 <= a <= b < Size], written in decimal, is answered with
    the whole stream under status 200. *)
Theorem C3_several_ranges_full_body_or_416
        (reqHeader : list (str * str)) (f : File) (frc : io.Reader) (header : str) :
  Open f = inr frc ->
  gin.GetHeader (gin.newContext reqHeader) "Range" = header ->
  header <> [] ->
  listsSeveralRanges header ->
  ((forall sp, In sp (listedRanges header) -> rangePasses sp (Size f)) ->
   exists c, SuccessStreamResp (gin.newContext reqHeader) f = Returns c
             /\ gin.status c = 200
             /\ gin.body c = [gin.RawBody (io.Copy frc)])
  /\ ((exists sp, In sp (listedRanges header) /\ ~ rangePasses sp (Size f)) ->
      exists c, SuccessStreamResp (gin.newContext reqHeader) f = Returns c
                /\ isErrorEnvelope c 416 "Invalid Range Header")
  /\ ((forall sp, In sp (listedRanges header) -> rangePasses sp (Size f))
      \/ (exists sp, In sp (listedRanges header) /\ ~ rangePasses sp (Size f)))
  /\ (forall pairs,
         header = closedRangesHeader pairs ->
         Forall (fun ab => 0 <= fst ab /\ fst ab <= snd ab /\ snd ab < Size f)
                pairs ->
         Size f <= maxInt64 ->
         exists c, SuccessStreamResp (gin.newContext reqHeader) f = Returns c
                   /\ gin.status c = 200
                   /\ gin.body c = [gin.RawBody (io.Copy frc)]).
Proof.
  intros HO HR HN [group [M C]].
  pose proof (SuccessStreamResp_range reqHeader f frc header HO HR HN) as H.
  assert (LR : listedRanges header = strings.Split group ",")
    by (unfold listedRanges; rewrite M; reflexivity).
  assert (Full : (forall sp, In sp (listedRanges header) -> rangePasses sp (Size f)) ->
                 exists c, SuccessStreamResp (gin.newContext reqHeader) f = Returns c
                           /\ gin.status c = 200
                           /\ gin.body c = [gin.RawBody (io.Copy frc)]).
  { intros A. rewrite LR in A.
    destruct (parseRangeSpecs_accepts _ _ A []) as [result [P L]].
    assert (PH : parseRangeHeader header (Size f) = inr result)
      by (unfold parseRangeHeader; rewrite M; exact P).
    rewrite PH in H.
    pose proof (Split_several group "," C) as L2. cbn [length] in L.
    destruct result as [|rg [|rg2 result]]; cbn [length] in L; try lia; exact H. }
  split; [exact Full|]. split; [|split].
  - intros R. rewrite LR in R.
    assert (PH : parseRangeHeader header (Size f) = inl ErrInvalidRange)
      by (unfold parseRangeHeader; rewrite M; apply parseRangeSpecs_refuses; exact R).
    rewrite PH in H. exact H.
  - rewrite LR. apply rangePasses_all_or_one.
  - intros pairs E F HS. apply Full.
    assert (Hne : pairs <> []).
    { intros ->. rewrite E in M. vm_compute in M. injection M as <-. destruct C. }
    rewrite E, listedRanges_closedRangesHeader.
    + intros sp I. apply in_map_iff in I. destruct I as [[a b] [<- I]].
      pose proof (proj1 (Forall_forall _ _) F _ I) as V. cbn [fst snd] in V.
      apply closedRange_passes; lia.
    + exact Hne.
    + eapply Forall_impl; [|exact F]. intros ab V. cbv beta in V. lia.
Qed.

Lemma C3_several_ranges_witness :
  let header := closedRangesHeader [(0, 1); (2, 3)] in
  let f := fileOf "f.bin" [[Byte.x00; Byte.x01; Byte.x02; Byte.x03]] in
  let frc := {| io.pending := [[Byte.x00; Byte.x01; Byte.x02; Byte.x03]] |} in
  ((forall sp, In sp (listedRanges header) -> rangePasses sp (Size f)) ->
   exists c, SuccessStreamResp (gin.newContext [(go "Range", header)]) f = Returns c
             /\ gin.status c = 200
             /\ gin.body c = [gin.RawBody (io.Copy frc)])
  /\ ((exists sp, In sp (listedRanges header) /\ ~ rangePasses sp (Size f)) ->
      exists c, SuccessStreamResp (gin.newContext [(go "Range", header)]) f = Returns c
                /\ isErrorEnvelope c 416 "Invalid Range Header")
  /\ ((forall sp, In sp (listedRanges header) -> rangePasses sp (Size f))
      \/ (exists sp, In sp (listedRanges header) /\ ~ rangePasses sp (Size f)))
  /\ (forall pairs,
         header = closedRangesHeader pairs ->
         Forall (fun ab => 0 <= fst ab /\ fst ab <= snd ab /\ snd ab < Size f)
                pairs ->
         Size f <= maxInt64 ->
         exists c, SuccessStreamResp (gin.newContext [(go "Range", header)]) f = Returns c
                   /\ gin.status c = 200
                   /\ gin.body c = [gin.RawBody (io.Copy frc)]).
Proof.
  apply (C3_several_ranges_full_body_or_416
           [(go "Range", closedRangesHeader [(0, 1); (2, 3)])]
           (fileOf "f.bin" [[Byte.x00; Byte.x01; Byte.x02; Byte.x03]])
           {| io.pending := [[Byte.x00; Byte.x01; Byte.x02; Byte.x03]] |}
           (closedRangesHeader [(0, 1); (2, 3)])).
  - reflexivity.
  - reflexivity.
  - discriminate.
  - exists (go "0-1,2-3"). split; [reflexivity|].
    right; right; right; left; reflexivity.
Defined.

(** The claim C3 of the specification fails on [Range: bytes=0-1,2-3] over a
    four-byte file: the header lists two ranges, and the request is not
    refused: the response has status 200 and the full body. *)
Lemma C3_several_ranges_served_in_full :
  listsSeveralRanges "bytes=0-1,2-3"
  /\ exists c,
       SuccessStreamResp (rangeRequest "bytes=0-1,2-3")
                         (fileOf "f.bin" [[Byte.x00; Byte.x01; Byte.x02; Byte.x03]])
       = Returns c
       /\ gin.status c = 200
       /\ gin.body c = [gin.RawBody [Byte.x00; Byte.x01; Byte.x02; Byte.x03]]
       /\ gin.aborted c = false.
Proof.
  split.
  - exists (go "0-1,2-3"). split; [reflexivity|].
    right; right; right; left; reflexivity.
  - eexists. split; [vm_compute; reflexivity|]. repeat split; reflexivity.
Qed.
